(** * A shallow embedding of hierarchical_pathfinding (HPA* on a 2D grid)

    The development follows the Rust crate module by module:
    - [outcome]: the result of running Rust code, with [Panic] for
      [panic!], [expect] and out-of-range indexing, and [OutOfFuel] for a
      loop that was cut short by the fuel bound of the model;
    - [Point], the two [Neighborhood]s of [neighbors.rs];
    - [Path] ([path/generic_path.rs]), [PathSegment]
      ([path_cache/path_segment.rs]) and [AbstractPathImpl]
      ([path_cache/abstract_path.rs]);
    - grid A* and Dijkstra ([grid/a_star.rs], [grid/dijkstra.rs]);
    - the node list ([graph/node_list.rs]) and graph A*
      ([graph/a_star.rs]);
    - chunks ([path_cache/chunk.rs]) and the path cache
      ([path_cache.rs]): [new], [find_path], [tiles_changed].

    Integers.  [usize] and [isize] values are [Z].  A [usize] subtraction
    that goes below zero panics (Rust debug builds), so subtractions of
    costs are checked; additions of costs are left unbounded (an overflow
    would need a total cost above 2^64).

    Hash containers.  [FnvHashMap]/[FnvHashSet] become stdpp's [gmap] and
    [gset]; where the code iterates one, the model iterates it in the
    order of [map_to_list]/[elements].  [BinaryHeap::pop] returns a
    greatest element; the model returns the first greatest element of the
    list of pushed elements. *)

From Stdlib Require Import ZArith Lia String.
From stdpp Require Import base gmap sets list.

Local Open Scope Z_scope.

(* ------------------------------------------------------------------ *)
(** ** Running Rust code: panics and the fuel bound *)

Inductive outcome (A : Type) : Type :=
| Ret (a : A)
| Panic (msg : string)
| OutOfFuel.
Arguments Ret {A} a.
Arguments Panic {A} msg%_string.
Arguments OutOfFuel {A}.

Global Instance outcome_ret : MRet outcome := fun A a => Ret a.
Global Instance outcome_bind : MBind outcome := fun A B f m =>
  match m with
  | Ret a => f a
  | Panic s => Panic s
  | OutOfFuel => OutOfFuel
  end.

(** [a - b] on [usize]: panics below zero. *)
Definition usize_sub (a b : Z) : outcome Z :=
  if b <=? a then Ret (a - b) else Panic "attempt to subtract with overflow".

(** [v[i]] on a slice or [Vec]. *)
Definition index {A} (l : list A) (i : nat) : outcome A :=
  match l !! i with
  | Some x => Ret x
  | None => Panic "index out of bounds"
  end.

(** [map[&k]] on a [HashMap]. *)
Definition map_index {K V} `{EqDecision K, Countable K} (m : gmap K V) (k : K)
  : outcome V :=
  match m !! k with
  | Some v => Ret v
  | None => Panic "key not found"
  end.

(** [BinaryHeap::pop] for an element type ordered by [prio] (greater
    [prio] pops first): the first element of greatest priority. *)
Fixpoint best_index {A} (prio : A -> Z) (l : list A) (i bi : nat) (bp : Z) : nat :=
  match l with
  | [] => bi
  | y :: l' =>
      if bp <? prio y then best_index prio l' (S i) i (prio y)
      else best_index prio l' (S i) bi bp
  end.

Definition heap_pop {A} (prio : A -> Z) (h : list A) : option (A * list A) :=
  match h with
  | [] => None
  | x :: rest =>
      let i := best_index prio rest 1 0 (prio x) in
      match h !! i with
      | Some y => Some (y, delete i h)
      | None => None
      end
  end.

(* ------------------------------------------------------------------ *)
(** ** Points and neighborhoods ([lib.rs], [neighbors.rs]) *)

Definition Point : Type := (Z * Z)%type.

(** The [Neighborhood] trait. *)
Class Neighborhood (N : Type) := {
  get_all_neighbors : N -> Point -> list Point;
  heuristic : N -> Point -> Point -> Z
}.

Definition in_bounds (width height : Z) (p : Point) : bool :=
  (0 <=? p.1) && (0 <=? p.2) && (p.1 <? width) && (p.2 <? height).

Definition offsets_to_neighbors (width height : Z) (offs : list (Z * Z)) (p : Point)
  : list Point :=
  filter (fun q => in_bounds width height q = true)
    (map (fun d => (p.1 + d.1, p.2 + d.2)) offs).

(** [if goal > point { goal - point } else { point - goal }] *)
Definition abs_diff (a b : Z) : Z := if b >? a then b - a else a - b.

Record ManhattanNeighborhood := { mh_width : Z; mh_height : Z }.

Global Instance manhattan_neighborhood : Neighborhood ManhattanNeighborhood := {
  get_all_neighbors n p :=
    offsets_to_neighbors (mh_width n) (mh_height n) [(0, -1); (1, 0); (0, 1); (-1, 0)] p;
  heuristic n p g := abs_diff p.1 g.1 + abs_diff p.2 g.2
}.

Record MooreNeighborhood := { mo_width : Z; mo_height : Z }.

Global Instance moore_neighborhood : Neighborhood MooreNeighborhood := {
  get_all_neighbors n p :=
    offsets_to_neighbors (mo_width n) (mo_height n)
      [(0, -1); (1, -1); (1, 0); (1, 1); (0, 1); (-1, 1); (-1, 0); (-1, -1)] p;
  heuristic n p g := Z.max (abs_diff p.1 g.1) (abs_diff p.2 g.2)
}.

(* ------------------------------------------------------------------ *)
(** ** [Path<P>] ([path/generic_path.rs]) *)

(** The [Arc<[P]>] buffer is the list [path_buf]; a reversed path shares
    the buffer and flips [is_reversed]. *)
Record Path (P : Type) := mkPath {
  path_buf : list P;
  path_cost : Z;
  is_reversed : bool
}.
Arguments mkPath {P}.
Arguments path_buf {P}.
Arguments path_cost {P}.
Arguments is_reversed {P}.

Definition Path_new {P} (steps : list P) (cost : Z) : Path P := mkPath steps cost false.

Definition path_len {P} (p : Path P) : nat := length (path_buf p).

(** [impl Index for Path]: [self.path.len() - index - 1] when reversed. *)
Definition path_index {P} (p : Path P) (i : nat) : outcome P :=
  if is_reversed p then
    if (i <? path_len p)%nat then index (path_buf p) (path_len p - i - 1)
    else Panic "attempt to subtract with overflow"
  else index (path_buf p) i.

(** [Path::reversed]: [cost: self.cost - start_cost + end_cost]. *)
Definition Path_reversed {P} (p : Path P) (start_cost end_cost : Z) : outcome (Path P) :=
  c ← usize_sub (path_cost p) start_cost;
  Ret (mkPath (path_buf p) (c + end_cost) (negb (is_reversed p))).

(** [Path::iter]: front to back, or back to front when reversed. *)
Definition path_points {P} (p : Path P) : list P :=
  if is_reversed p then rev (path_buf p) else path_buf p.

(** [impl PartialEq<Vec<P>> for Path<P>]: equal lengths and equal points,
    compared through [iter]. *)
Definition path_eq_vec {P} `{EqDecision P} (p : Path P) (rhs : list P) : bool :=
  bool_decide (path_len p = length rhs) &&
  forallb (fun ab => bool_decide (ab.1 = ab.2)) (zip (path_points p) rhs).

(** [impl Display for Path<P>]: the formatter as an output string that
    every [write!] appends to; [show] and [show_cost] are the [Display]
    of [P] and of the cost. It prints the buffer [self.path]. *)
Definition path_fmt {P} (show : P -> string) (show_cost : Z -> string) (p : Path P) : string :=
  let out := String.append "Path[Cost = " (String.append (show_cost (path_cost p)) "]: ") in
  match path_buf p with
  | [] => String.append out "<empty>"
  | x :: _ =>
      fold_left (fun out q => String.append out (String.append " -> " (show q)))
        (drop 1 (path_buf p)) (String.append out (show x))
  end.

(* ------------------------------------------------------------------ *)
(** ** [PathSegment] ([path_cache/path_segment.rs]) *)

Inductive PathSegment :=
| Known (path : Path Point)
| Unknown (start end_ : Point) (cost : Z) (len : nat).

Definition PathSegment_new (path : Path Point) (known : bool) : outcome PathSegment :=
  if known then Ret (Known path)
  else
    s ← path_index path 0;
    e ← path_index path (path_len path - 1);
    Ret (Unknown s e (path_cost path) (path_len path)).

Definition seg_cost (s : PathSegment) : Z :=
  match s with
  | Known p => path_cost p
  | Unknown _ _ c _ => c
  end.

Definition seg_len (s : PathSegment) : nat :=
  match s with
  | Known p => path_len p
  | Unknown _ _ _ l => l
  end.

Definition seg_start (s : PathSegment) : outcome Point :=
  match s with
  | Known p => path_index p 0
  | Unknown st _ _ _ => Ret st
  end.

Definition seg_end (s : PathSegment) : outcome Point :=
  match s with
  | Known p => path_index p (path_len p - 1)
  | Unknown _ e _ _ => Ret e
  end.

(** [PathSegment::reversed]: a known path is reversed in place; an
    unknown one swaps its ends and takes [cost + end_cost - start_cost]. *)
Definition PathSegment_reversed (s : PathSegment) (start_cost end_cost : Z)
  : outcome PathSegment :=
  match s with
  | Known p => p' ← Path_reversed p start_cost end_cost; Ret (Known p')
  | Unknown st e c l =>
      c' ← usize_sub (c + end_cost) start_cost;
      Ret (Unknown e st c' l)
  end.

(** The points of a segment in walking order, as its iterator yields them. *)
Definition seg_points (s : PathSegment) : option (list Point) :=
  match s with
  | Known p => Some (path_points p)
  | Unknown _ _ _ _ => None
  end.

(* ------------------------------------------------------------------ *)
(** ** [AbstractPathImpl] ([path_cache/abstract_path.rs]) *)

Section AbstractPathDef.
Context {N : Type}.

Record AbstractPathImpl := mkAbstractPath {
  ap_neighborhood : option N;
  ap_total_cost : Z;
  ap_path : list PathSegment;
  ap_end : Point;
  ap_current_index : nat * nat
}.

(** The constructors of [abstract_path.rs] start with no neighborhood;
    [path_cache.rs] calls them with its neighborhood, hence [nb]. *)
Definition AbstractPath_new (nb : option N) (start : Point) : AbstractPathImpl :=
  mkAbstractPath nb 0 [] start (0%nat, 1%nat).

Definition AbstractPath_from_known_path (nb : option N) (path : Path Point)
  : outcome AbstractPathImpl :=
  e ← path_index path (path_len path - 1);
  Ret (mkAbstractPath nb (path_cost path) [Known path] e (0%nat, 1%nat)).

Definition add_path_segment (ap : AbstractPathImpl) (seg : PathSegment)
  : outcome AbstractPathImpl :=
  s ← seg_start seg;
  if decide (ap_end ap = s) then
    e ← seg_end seg;
    Ret (mkAbstractPath (ap_neighborhood ap) (ap_total_cost ap + seg_cost seg)
           (ap_path ap ++ [seg]) e (ap_current_index ap))
  else Panic "Added disconnected PathSegment".

Definition add_path (ap : AbstractPathImpl) (path : Path Point) : outcome AbstractPathImpl :=
  e ← path_index path (path_len path - 1);
  Ret (mkAbstractPath (ap_neighborhood ap) (ap_total_cost ap + path_cost path)
         (ap_path ap ++ [Known path]) e (ap_current_index ap)).

Definition with_index (ap : AbstractPathImpl) (ix : nat * nat) : AbstractPathImpl :=
  mkAbstractPath (ap_neighborhood ap) (ap_total_cost ap) (ap_path ap) (ap_end ap) ix.

(** [impl Iterator for AbstractPathImpl]: [next]. *)
Definition ap_next (ap : AbstractPathImpl) : outcome (option Point * AbstractPathImpl) :=
  let '(i, j) := ap_current_index ap in
  if (length (ap_path ap) <=? i)%nat then Ret (None, ap)
  else
    cur ← index (ap_path ap) i;
    match cur with
    | Unknown _ _ _ _ =>
        Panic "Tried calling next() on a Path that is not fully known. Use safe_next instead."
    | Known path =>
        ret ← path_index path j;
        let j' := S j in
        let ix := if (path_len path <=? j')%nat then (S i, 1%nat) else (i, j') in
        Ret (Some ret, with_index ap ix)
    end.

(** [safe_next] re-materializes an [Unknown] segment with the generic A*
    of [generics/a_star.rs]; that search is the parameter [remat]
    (neighborhood, cost function, start, end). *)
Variable remat : N -> (Point -> Z) -> Point -> Point -> outcome (option (Path Point)).

Definition ap_safe_next (ap : AbstractPathImpl) (get_cost : Point -> Z)
  : outcome (option Point * AbstractPathImpl) :=
  let '(i, j) := ap_current_index ap in
  if (length (ap_path ap) <=? i)%nat then Ret (None, ap)
  else
    cur ← index (ap_path ap) i;
    '(cur, ap) ←
      match cur with
      | Unknown s e _ _ =>
          match ap_neighborhood ap with
          | None => Panic "Unknown segment in Known Path"
          | Some nb =>
              r ← remat nb get_cost s e;
              match r with
              | None => Panic "Impossible Path marked as Possible"
              | Some path =>
                  let ap' := mkAbstractPath (ap_neighborhood ap) (ap_total_cost ap)
                               (<[i := Known path]> (ap_path ap)) (ap_end ap) (i, 1%nat) in
                  Ret (Known path, ap')
              end
          end
      | Known _ => Ret (cur, ap)
      end;
    let '(i, j) := ap_current_index ap in
    match cur with
    | Known path =>
        ret ← path_index path j;
        let j' := S j in
        let ix := if (path_len path <=? j')%nat then (S i, 0%nat) else (i, j') in
        Ret (Some ret, with_index ap ix)
    | Unknown _ _ _ _ => Panic "how."
    end.

(** [path.collect()]: the points yielded by [next] until [None]. *)
Fixpoint ap_collect (fuel : nat) (ap : AbstractPathImpl) : outcome (list Point) :=
  match fuel with
  | O => OutOfFuel
  | S fuel' =>
      '(r, ap') ← ap_next ap;
      match r with
      | None => Ret []
      | Some x => rest ← ap_collect fuel' ap'; Ret (x :: rest)
      end
  end.

(** Repeated [safe_next] until [None]. *)
Fixpoint ap_safe_collect (fuel : nat) (ap : AbstractPathImpl) (get_cost : Point -> Z)
  : outcome (list Point) :=
  match fuel with
  | O => OutOfFuel
  | S fuel' =>
      '(r, ap') ← ap_safe_next ap get_cost;
      match r with
      | None => Ret []
      | Some x => rest ← ap_safe_collect fuel' ap' get_cost; Ret (x :: rest)
      end
  end.

End AbstractPathDef.
Arguments AbstractPathImpl : clear implicits.

(* ------------------------------------------------------------------ *)
(** ** Grid A* and Dijkstra ([grid/a_star.rs], [grid/dijkstra.rs]) *)

(** [visited]: point -> (best cost, predecessor). *)
Abbreviation Visited := (gmap Point (Z * Point)).

(** Walking the predecessors back from [current] to [start]; [steps] is
    kept in final order (the Rust code pushes and then reverses). *)
Fixpoint walk_back {K} `{EqDecision K, Countable K} (start : K) (fuel : nat)
    (visited : gmap K (Z * K)) (current : K) (steps : list K) : outcome (list K) :=
  match fuel with
  | O => OutOfFuel
  | S fuel' =>
      if decide (current = start) then Ret (start :: steps)
      else
        '(_, prev) ← map_index visited current;
        walk_back start fuel' visited prev (current :: steps)
  end.

Section GridSearch.
Context {N : Type} `{!Neighborhood N}.
Variable neighborhood : N.
Variable valid : Point -> bool.
Variable get_cost : Point -> Z.

(** One neighbor [other_id] of [current_id] in the inner [for] loop of
    A*; the heap holds [HeuristicElement(id, cost, cost + heuristic)]. *)
Definition a_star_relax (goal current_id : Point) (other_cost : Z)
    (st : Visited * list (Point * Z * Z)) (other_id : Point)
  : Visited * list (Point * Z * Z) :=
  let '(visited, next) := st in
  let push := next ++ [(other_id, other_cost, other_cost + heuristic neighborhood other_id goal)] in
  if negb (valid other_id) then st
  else if (get_cost other_id <? 0) && bool_decide (other_id <> goal) then st
  else
    match visited !! other_id with
    | Some (prev_cost, _) =>
        if other_cost <? prev_cost then (<[other_id := (other_cost, current_id)]> visited, push)
        else st
    | None => (<[other_id := (other_cost, current_id)]> visited, push)
    end.

(** The [while let Some(..) = next.pop()] loop of A*.  [HeuristicElement]
    is ordered by the reverse of its third field. *)
Fixpoint a_star_loop (goal : Point) (fuel : nat) (visited : Visited)
    (next : list (Point * Z * Z)) : outcome Visited :=
  match fuel with
  | O => OutOfFuel
  | S fuel' =>
      match heap_pop (fun e => - e.2) next with
      | None => Ret visited
      | Some ((current_id, current_cost, _), next) =>
          if decide (current_id = goal) then Ret visited
          else
            '(best, _) ← map_index visited current_id;
            if best <? current_cost then a_star_loop goal fuel' visited next
            else if current_cost <? best then Panic "Binary Heap failed"
            else
              let delta_cost := get_cost current_id in
              if delta_cost <? 0 then a_star_loop goal fuel' visited next
              else
                let other_cost := current_cost + delta_cost in
                let '(visited, next) :=
                  foldl (a_star_relax goal current_id other_cost) (visited, next)
                    (get_all_neighbors neighborhood current_id) in
                a_star_loop goal fuel' visited next
      end
  end.

(** [grid::a_star_search] ([size_hint] only sizes allocations). *)
Definition a_star_search (fuel : nat) (start goal : Point) : outcome (option (Path Point)) :=
  if get_cost start <? 0 then Ret None
  else if decide (start = goal) then Ret (Some (Path_new [start; start] 0))
  else
    visited ← a_star_loop goal fuel {[start := (0, start)]} [(start, 0, 0)];
    match visited !! goal with
    | None => Ret None
    | Some (goal_cost, _) =>
        steps ← walk_back start fuel visited goal [];
        Ret (Some (Path_new steps goal_cost))
    end.

(** One neighbor in the inner loop of Dijkstra; the heap holds
    [Element(id, cost)]. *)
Definition dijkstra_relax (remaining_goals : gset Point) (current_id : Point) (other_cost : Z)
    (st : Visited * list (Point * Z)) (other_id : Point) : Visited * list (Point * Z) :=
  let '(visited, next) := st in
  let push := next ++ [(other_id, other_cost)] in
  if negb (valid other_id) then st
  else if (get_cost other_id <? 0) && bool_decide (other_id ∉ remaining_goals) then st
  else
    match visited !! other_id with
    | Some (prev_cost, _) =>
        if other_cost <? prev_cost then (<[other_id := (other_cost, current_id)]> visited, push)
        else st
    | None => (<[other_id := (other_cost, current_id)]> visited, push)
    end.

(** The part of the Dijkstra loop body after the goal check. *)
Definition dijkstra_expand (remaining_goals : gset Point) (current_id : Point)
    (current_cost : Z) (visited : Visited) (next : list (Point * Z))
  : option (Visited * list (Point * Z)) :=
  let delta_cost := get_cost current_id in
  if delta_cost <? 0 then None
  else
    Some (foldl (dijkstra_relax remaining_goals current_id (current_cost + delta_cost))
            (visited, next) (get_all_neighbors neighborhood current_id)).

Fixpoint dijkstra_loop (only_closest_goal : bool) (fuel : nat) (visited : Visited)
    (next : list (Point * Z)) (remaining_goals : gset Point) (goal_costs : gmap Point Z)
  : outcome (Visited * gmap Point Z) :=
  match fuel with
  | O => OutOfFuel
  | S fuel' =>
      match heap_pop (fun e => - e.2) next with
      | None => Ret (visited, goal_costs)
      | Some ((current_id, current_cost), next) =>
          '(best, _) ← map_index visited current_id;
          if best <? current_cost
          then dijkstra_loop only_closest_goal fuel' visited next remaining_goals goal_costs
          else if current_cost <? best then Panic "Binary Heap failed"
          else
            let continue_with rg gc :=
              match dijkstra_expand rg current_id current_cost visited next with
              | None => dijkstra_loop only_closest_goal fuel' visited next rg gc
              | Some (visited, next) => dijkstra_loop only_closest_goal fuel' visited next rg gc
              end in
            if bool_decide (current_id ∈ remaining_goals) then
              let rg := remaining_goals ∖ {[current_id]} in
              let gc := <[current_id := current_cost]> goal_costs in
              if only_closest_goal || bool_decide (rg = ∅) then Ret (visited, gc)
              else continue_with rg gc
            else continue_with remaining_goals goal_costs
      end
  end.

(** [grid::dijkstra_search]: goal -> path for every reached goal. *)
Definition dijkstra_search (fuel : nat) (start : Point) (goals : list Point)
    (only_closest_goal : bool) : outcome (gmap Point (Path Point)) :=
  '(visited, goal_costs) ←
    dijkstra_loop only_closest_goal fuel {[start := (0, start)]} [(start, 0)]
      (list_to_set goals) ∅;
  foldl (fun acc gc =>
           m ← acc;
           steps ← walk_back start fuel visited gc.1 [];
           Ret (<[gc.1 := Path_new steps gc.2]> m))
    (Ret ∅) (map_to_list goal_costs).

End GridSearch.

(* ------------------------------------------------------------------ *)
(** ** The abstract graph ([graph/node.rs], [graph/node_list.rs],
       [graph/node_map.rs]) *)

Abbreviation NodeID := nat.

(** [graph::Node]; its id is the key it is stored under. *)
Record Node := mkNode {
  node_pos : Point;
  walk_cost : Z;
  edges : gmap NodeID PathSegment
}.

Definition Node_new (pos : Point) (walk_cost : Z) : Node := mkNode pos walk_cost ∅.

Definition set_edges (n : Node) (e : gmap NodeID PathSegment) : Node :=
  mkNode (node_pos n) (walk_cost n) e.

(** [slab::Slab<T>]: occupied entries, the stack of vacant keys (the most
    recently vacated key is reused first) and the length of the backing
    [Vec]. *)
Record Slab (T : Type) := mkSlab {
  slab_entries : gmap nat T;
  slab_vacant : list nat;
  slab_len : nat
}.
Arguments mkSlab {T}.
Arguments slab_entries {T}.
Arguments slab_vacant {T}.
Arguments slab_len {T}.

Definition slab_empty {T} : Slab T := mkSlab ∅ [] 0%nat.

Definition slab_insert {T} (s : Slab T) (v : T) : nat * Slab T :=
  match slab_vacant s with
  | k :: rest => (k, mkSlab (<[k := v]> (slab_entries s)) rest (slab_len s))
  | [] => (slab_len s, mkSlab (<[slab_len s := v]> (slab_entries s)) [] (S (slab_len s)))
  end.

Definition slab_remove {T} (s : Slab T) (k : nat) : outcome (T * Slab T) :=
  match slab_entries s !! k with
  | Some v => Ret (v, mkSlab (delete k (slab_entries s)) (k :: slab_vacant s) (slab_len s))
  | None => Panic "invalid key"
  end.

Record NodeList := mkNodeList {
  nl_nodes : Slab Node;
  nl_pos_map : gmap Point NodeID
}.

Definition NodeList_new : NodeList := mkNodeList slab_empty ∅.

Definition nl_len (l : NodeList) : nat := size (nl_pos_map l).

(** [self[id]] *)
Definition nl_get (l : NodeList) (id : NodeID) : outcome Node :=
  match slab_entries (nl_nodes l) !! id with
  | Some n => Ret n
  | None => Panic "invalid key"
  end.

(** [self[id] = n] for an occupied [id]. *)
Definition nl_set (l : NodeList) (id : NodeID) (n : Node) : NodeList :=
  mkNodeList (mkSlab (<[id := n]> (slab_entries (nl_nodes l))) (slab_vacant (nl_nodes l))
                (slab_len (nl_nodes l)))
    (nl_pos_map l).

Definition nl_add_node (l : NodeList) (pos : Point) (walk_cost : Z) : NodeID * NodeList :=
  let '(id, nodes) := slab_insert (nl_nodes l) (Node_new pos walk_cost) in
  (id, mkNodeList nodes (<[pos := id]> (nl_pos_map l))).

(** [NodeList::add_edge]: returns early when [src] already has an edge
    to [target] of the same cost. *)
Definition nl_add_edge (l : NodeList) (src target : NodeID) (path : PathSegment)
  : outcome NodeList :=
  src_node ← nl_get l src;
  let exists_equal :=
    match edges src_node !! target with
    | Some existing => bool_decide (seg_cost existing = seg_cost path)
    | None => false
    end in
  if exists_equal then Ret l
  else
    let src_cost := walk_cost src_node in
    target_node ← nl_get l target;
    let target_cost := walk_cost target_node in
    other_path ← PathSegment_reversed path src_cost target_cost;
    let l := nl_set l target (set_edges target_node (<[src := other_path]> (edges target_node))) in
    src_node ← nl_get l src;
    Ret (nl_set l src (set_edges src_node (<[target := path]> (edges src_node)))).

(** [NodeList::remove_node]: the removed node's peers drop their edge
    back to it. *)
Definition nl_remove_node (l : NodeList) (id : NodeID) : outcome NodeList :=
  '(node, nodes) ← slab_remove (nl_nodes l) id;
  let l := mkNodeList nodes (nl_pos_map l) in
  l ← foldl (fun acc other_id =>
               l ← acc;
               other ← nl_get l other_id;
               Ret (nl_set l other_id (set_edges other (delete id (edges other)))))
         (Ret l) (map fst (map_to_list (edges node)));
  Ret (mkNodeList (nl_nodes l) (delete (node_pos node) (nl_pos_map l))).

Definition nl_id_at (l : NodeList) (pos : Point) : option NodeID := nl_pos_map l !! pos.

(** The ids of all nodes, [self.nodes.keys()]. *)
Definition nl_keys (l : NodeList) : list NodeID := map fst (map_to_list (slab_entries (nl_nodes l))).

(** [graph/node_map.rs]: a [Vec<Option<Node>>] with a position index and
    a [next_id] cursor. *)
Record NodeMap := mkNodeMap {
  nm_nodes : list (option Node);
  nm_pos_map : gmap Point NodeID;
  nm_next_id : nat
}.

Definition nm_get (m : NodeMap) (id : NodeID) : outcome Node :=
  match nm_nodes m !! id with
  | Some (Some n) => Ret n
  | Some None => Panic "called `Option::unwrap()` on a `None` value"
  | None => Panic "index out of bounds"
  end.

Definition nm_set (m : NodeMap) (id : NodeID) (n : Node) : NodeMap :=
  mkNodeMap (<[id := Some n]> (nm_nodes m)) (nm_pos_map m) (nm_next_id m).

(** [NodeMap::add_edge]: no check for an existing edge. *)
Definition nm_add_edge (m : NodeMap) (src target : NodeID) (path : PathSegment)
  : outcome NodeMap :=
  src_node ← nm_get m src;
  let src_cost := walk_cost src_node in
  target_node ← nm_get m target;
  other_path ← PathSegment_reversed path src_cost (walk_cost target_node);
  let m := nm_set m target (set_edges target_node (<[src := other_path]> (edges target_node))) in
  src_node ← nm_get m src;
  Ret (nm_set m src (set_edges src_node (<[target := path]> (edges src_node)))).

(* ------------------------------------------------------------------ *)
(** ** A* on the abstract graph ([graph/a_star.rs]) *)

Section GraphAStar.
Context {N : Type} `{!Neighborhood N}.
Variable nodes : NodeList.
Variable neighborhood : N.

(** One [(other_id, path)] of [current.edges.iter()]; note the heuristic
    is taken between [current.pos] and [other.pos]. *)
Definition graph_relax (current_id : NodeID) (current : Node) (current_cost : Z)
    (acc : outcome (gmap NodeID (Z * NodeID) * list (NodeID * Z * Z)))
    (edge : NodeID * PathSegment)
  : outcome (gmap NodeID (Z * NodeID) * list (NodeID * Z * Z)) :=
  '(visited, next) ← acc;
  let '(other_id, path) := edge in
  let other_cost := current_cost + seg_cost path in
  other ← nl_get nodes other_id;
  let push := next ++ [(other_id, other_cost,
                        other_cost + heuristic neighborhood (node_pos current) (node_pos other))] in
  match visited !! other_id with
  | Some (prev_cost, _) =>
      if other_cost <? prev_cost
      then Ret (<[other_id := (other_cost, current_id)]> visited, push)
      else Ret (visited, next)
  | None => Ret (<[other_id := (other_cost, current_id)]> visited, push)
  end.

Fixpoint graph_a_star_loop (goal : NodeID) (fuel : nat) (visited : gmap NodeID (Z * NodeID))
    (next : list (NodeID * Z * Z)) : outcome (gmap NodeID (Z * NodeID)) :=
  match fuel with
  | O => OutOfFuel
  | S fuel' =>
      match heap_pop (fun e => - e.2) next with
      | None => Ret visited
      | Some ((current_id, current_cost, _), next) =>
          if decide (current_id = goal) then Ret visited
          else
            '(best, _) ← map_index visited current_id;
            if best <? current_cost then graph_a_star_loop goal fuel' visited next
            else if current_cost <? best then Panic "Binary Heap failed"
            else
              current ← nl_get nodes current_id;
              '(visited, next) ←
                foldl (graph_relax current_id current current_cost) (Ret (visited, next))
                  (map_to_list (edges current));
              graph_a_star_loop goal fuel' visited next
      end
  end.

Definition graph_a_star_search (fuel : nat) (start goal : NodeID)
  : outcome (option (Path NodeID)) :=
  if decide (start = goal) then Ret (Some (Path_new [start; start] 0))
  else
    visited ← graph_a_star_loop goal fuel {[start := (0, start)]} [(start, 0, 0)];
    match visited !! goal with
    | None => Ret None
    | Some (goal_cost, _) =>
        steps ← walk_back start fuel visited goal [];
        Ret (Some (Path_new steps goal_cost))
    end.

End GraphAStar.

(* ------------------------------------------------------------------ *)
(** ** Configuration, directions ([cache_config.rs], [utils.rs]) *)

Record PathCacheConfig := mkConfig {
  chunk_size : Z;
  cache_paths : bool;
  a_star_fallback : bool;
  perfect_paths : bool
}.

Definition default_config : PathCacheConfig := mkConfig 8 true true false.

Definition with_chunk_size (cs : Z) : PathCacheConfig :=
  mkConfig cs (cache_paths default_config) (a_star_fallback default_config)
    (perfect_paths default_config).

Inductive Dir := UP | RIGHT | DOWN | LEFT.

Global Instance Dir_eq_dec : EqDecision Dir.
Proof. solve_decision. Defined.

Definition dir_all : list Dir := [UP; RIGHT; DOWN; LEFT].

Definition dir_num (d : Dir) : nat :=
  match d with UP => 0 | RIGHT => 1 | DOWN => 2 | LEFT => 3 end.

Definition dir_opposite (d : Dir) : Dir :=
  match d with UP => DOWN | RIGHT => LEFT | DOWN => UP | LEFT => RIGHT end.

Definition is_vertical (d : Dir) : bool :=
  match d with UP | DOWN => true | _ => false end.

(** [UNIT_CIRCLE[dir.num()]] *)
Definition unit_circle (d : Dir) : Z * Z :=
  match d with UP => (0, -1) | RIGHT => (1, 0) | DOWN => (0, 1) | LEFT => (-1, 0) end.

Definition get_in_dir (pos : Point) (dir : Dir) (base : Point) (wh : Z * Z) : option Point :=
  let diff := unit_circle dir in
  if ((bool_decide (pos.1 = base.1) && (diff.1 <? 0))
      || (bool_decide (pos.2 = base.2) && (diff.2 <? 0))
      || (bool_decide (pos.1 = base.1 + wh.1 - 1) && (0 <? diff.1))
      || (bool_decide (pos.2 = base.2 + wh.2 - 1) && (0 <? diff.2)))%bool
  then None
  else Some (pos.1 + diff.1, pos.2 + diff.2).

Definition jump_in_dir (pos : Point) (dir : Dir) (dist : Z) (base : Point) (wh : Z * Z)
  : option Point :=
  let diff := unit_circle dir in
  let res := (pos.1 + diff.1 * dist, pos.2 + diff.2 * dist) in
  if (base.1 <=? res.1) && (res.1 <? base.1 + wh.1) && (base.2 <=? res.2) && (res.2 <? base.2 + wh.2)
  then Some res else None.

Definition expect {A} (o : option A) (msg : string) : outcome A :=
  match o with Some a => Ret a | None => Panic msg end.

(** [cost as usize] for an [isize] cost. *)
Definition isize_as_usize (c : Z) : Z := if c <? 0 then c + 2 ^ 64 else c.

(* ------------------------------------------------------------------ *)
(** ** Chunks ([path_cache/chunk.rs]) *)

Record Chunk := mkChunk {
  ch_pos : Point;
  ch_size : Z * Z;
  ch_nodes : gset NodeID;
  ch_sides : Dir -> bool
}.

Definition set_ch_nodes (c : Chunk) (ns : gset NodeID) : Chunk :=
  mkChunk (ch_pos c) (ch_size c) ns (ch_sides c).

Definition ch_top (c : Chunk) : Z := (ch_pos c).2.
Definition ch_right (c : Chunk) : Z := (ch_pos c).1 + (ch_size c).1.
Definition ch_bottom (c : Chunk) : Z := (ch_pos c).2 + (ch_size c).2.
Definition ch_left (c : Chunk) : Z := (ch_pos c).1.

Definition in_chunk (c : Chunk) (p : Point) : bool :=
  (ch_left c <=? p.1) && (p.1 <? ch_right c) && (ch_top c <=? p.2) && (p.2 <? ch_bottom c).

Definition at_side (c : Chunk) (p : Point) (side : Dir) : bool :=
  match side with
  | UP => bool_decide (p.2 = ch_top c)
  | RIGHT => bool_decide (p.1 = ch_right c - 1)
  | DOWN => bool_decide (p.2 = ch_bottom c - 1)
  | LEFT => bool_decide (p.1 = ch_left c)
  end.

Definition is_corner (c : Chunk) (p : Point) : bool :=
  bool_decide (length (filter (fun d => ch_sides c d && at_side c p d = true) dir_all) = 2%nat).

(** [a..b] on [usize]. *)
Definition zrange (a b : Z) : list Z :=
  map (fun k => a + Z.of_nat k) (seq 0 (Z.to_nat (b - a))).

(** [.map(f).collect::<Vec<_>>()] for a fallible [f]. *)
Fixpoint out_mapM {A B} (f : A -> outcome B) (l : list A) : outcome (list B) :=
  match l with
  | [] => Ret []
  | x :: l' => y ← f x; ys ← out_mapM f l'; Ret (y :: ys)
  end.

Definition Dir_update (sides : Dir -> bool) (dir : Dir) (b : bool) : Dir -> bool :=
  fun d => if decide (d = dir) then b else sides d.

Section ChunkDef.
Context {N : Type} `{!Neighborhood N}.
Variable fuel : nat.

(** The local variables of the loop of [calculate_side_nodes]. *)
Record SideScan := mkSideScan {
  sc_has_gap : bool;
  sc_gap_start : Z;
  sc_gap_start_pos : Point;
  sc_previous : Point;
  sc_current : Point;
  sc_candidates : gset Point
}.

Definition calculate_side_nodes (c : Chunk) (dir : Dir) (total_size : Z * Z)
    (get_cost : Point -> Z) (config : PathCacheConfig) (candidates : gset Point)
  : outcome (gset Point) :=
  let pos := ch_pos c in
  let size := ch_size c in
  let current :=
    match dir with
    | UP => pos
    | RIGHT => (pos.1 + size.1 - 1, pos.2)
    | DOWN => (pos.1, pos.2 + size.2 - 1)
    | LEFT => pos
    end in
  let '(next_dir, length) := if is_vertical dir then (RIGHT, size.1) else (DOWN, size.2) in
  match get_in_dir current dir (0, 0) total_size with
  | None => Ret candidates
  | Some _ =>
  costs ← out_mapM (fun i =>
            p ← expect (jump_in_dir current next_dir i pos size)
                  "Internal Error #3 in Chunk. Please report this";
            o ← expect (get_in_dir p dir (0, 0) total_size)
                  "Internal Error #1 in Chunk. Please report this";
            Ret (get_cost p, get_cost o)) (zrange 0 length);
  let solid i := cc ← index costs (Z.to_nat i); Ret ((cc.1 <? 0) || (cc.2 <? 0))%bool in
  let total_cost i := cc ← index costs (Z.to_nat i); Ret (cc.1 + cc.2) in
  let step (acc : outcome SideScan) (i : Z) : outcome SideScan :=
    st ← acc;
    let is_last := bool_decide (i = length - 1) in
    s ← solid i;
    let '(has_gap, gap_start, gap_start_pos) :=
      if negb s && negb (sc_has_gap st)
      then (true, i, sc_current st)
      else (sc_has_gap st, sc_gap_start st, sc_gap_start_pos st) in
    let current := sc_current st in
    '(has_gap, cands) ←
      if (s || is_last) && has_gap then
        '(gap_end, gap_end_pos) ←
          (if s then ge ← usize_sub i 1; Ret (ge, sc_previous st) else Ret (i, current));
        let gap_len := gap_end - gap_start + 1 in
        let cands := {[gap_end_pos]} ∪ ({[gap_start_pos]} ∪ sc_candidates st) in
        cands ←
          if perfect_paths config then
            '(_, cands) ←
              foldl (fun acc _ =>
                       '(p, cands) ← acc;
                       p ← expect (get_in_dir p next_dir (0, 0) total_size)
                             "Internal Error #6 in Chunk. Please report this";
                       Ret (p, {[p]} ∪ cands))
                (Ret (gap_start_pos, cands)) (zrange (gap_start + 1) gap_end);
            Ret cands
          else
            cands ←
              if 2 <? gap_len then
                tcs ← total_cost gap_start;
                tce ← total_cost gap_end;
                '(_, _, cands) ←
                  foldl (fun acc gi =>
                           '(p, min, cands) ← acc;
                           p ← expect (get_in_dir p next_dir (0, 0) total_size)
                                 "Internal Error #2 in Chunk. Please report this";
                           cost ← total_cost gi;
                           if cost <? min then Ret (p, cost, {[p]} ∪ cands)
                           else Ret (p, min, cands))
                    (Ret (gap_start_pos, Z.min tcs tce, cands)) (zrange (gap_start + 1) gap_end);
                Ret cands
              else Ret cands;
            if 6 <? gap_len then
              let mid := ((gap_start_pos.1 + gap_end_pos.1) / 2,
                          (gap_start_pos.2 + gap_end_pos.2) / 2) in
              Ret ({[mid]} ∪ cands)
            else Ret cands;
        Ret (false, cands)
      else Ret (has_gap, sc_candidates st);
    if negb is_last then
      current' ← expect (get_in_dir current next_dir pos size)
                   "Internal Error #3 in Chunk. Please report this";
      Ret (mkSideScan has_gap gap_start gap_start_pos current current' cands)
    else Ret (mkSideScan has_gap gap_start gap_start_pos (sc_previous st) current cands) in
  st ← foldl step (Ret (mkSideScan false 0 current current current candidates)) (zrange 0 length);
  Ret (sc_candidates st)
  end.

(** [Chunk::find_paths] ([size_hint] only sizes allocations). *)
Definition chunk_find_paths (c : Chunk) (start : Point) (goals : list Point)
    (get_cost : Point -> Z) (nb : N) : outcome (gmap Point (Path Point)) :=
  if negb (in_chunk c start) then Ret ∅
  else dijkstra_search nb (in_chunk c) get_cost fuel start goals false.

(** [Chunk::find_path] *)
Definition chunk_find_path (c : Chunk) (start goal : Point) (get_cost : Point -> Z) (nb : N)
  : outcome (option (Path Point)) :=
  if negb (in_chunk c start) || negb (in_chunk c goal) then Ret None
  else a_star_search nb (in_chunk c) get_cost fuel start goal.

(** [Chunk::add_nodes] *)
Definition add_nodes (c : Chunk) (to_visit : list NodeID) (get_cost : Point -> Z) (nb : N)
    (all_nodes : NodeList) (config : PathCacheConfig) : outcome (Chunk * NodeList) :=
  points ← out_mapM (fun id => n ← nl_get all_nodes id; Ret (node_pos n))
             (to_visit ++ elements (ch_nodes c));
  let c := set_ch_nodes c (foldl (fun s id => {[id]} ∪ s) (ch_nodes c) to_visit) in
  all_nodes ←
    foldl (fun acc '(i, id) =>
             all_nodes ← acc;
             point ← index points i;
             let remaining := drop (S i) points in
             paths ← chunk_find_paths c point remaining get_cost nb;
             foldl (fun acc '(other_pos, path) =>
                      all_nodes ← acc;
                      other_id ← expect (nl_id_at all_nodes other_pos)
                                   "Internal Error #5 in Chunk. Please report this";
                      seg ← PathSegment_new path (cache_paths config);
                      nl_add_edge all_nodes id other_id seg)
               (Ret all_nodes) (map_to_list paths))
      (Ret all_nodes) (zip (seq 0 (length to_visit)) to_visit);
  Ret (c, all_nodes).

(** [Chunk::new] *)
Definition Chunk_new (pos : Point) (size total_size : Z * Z) (get_cost : Point -> Z) (nb : N)
    (all_nodes : NodeList) (config : PathCacheConfig) : outcome (Chunk * NodeList) :=
  let chunk := mkChunk pos size ∅ (fun _ => false) in
  '(chunk, candidates) ←
    foldl (fun acc dir =>
             '(chunk, candidates) ← acc;
             if (bool_decide (dir = UP) && bool_decide (ch_top chunk = 0))
                || (bool_decide (dir = RIGHT) && bool_decide (ch_right chunk = total_size.1))
                || (bool_decide (dir = DOWN) && bool_decide (ch_bottom chunk = total_size.2))
                || (bool_decide (dir = LEFT) && bool_decide (ch_left chunk = 0))
             then Ret (chunk, candidates)
             else
               let chunk := mkChunk (ch_pos chunk) (ch_size chunk) (ch_nodes chunk)
                              (Dir_update (ch_sides chunk) dir true) in
               candidates ← calculate_side_nodes chunk dir total_size get_cost config candidates;
               Ret (chunk, candidates))
      (Ret (chunk, ∅)) dir_all;
  let '(nodes, all_nodes) :=
    foldl (fun '(ids, all_nodes) p =>
             let '(id, all_nodes) := nl_add_node all_nodes p (isize_as_usize (get_cost p)) in
             (ids ++ [id], all_nodes))
      ([], all_nodes) (elements candidates) in
  add_nodes chunk nodes get_cost nb all_nodes config.

(** [Chunk::nearest_node] *)
Definition nearest_node (c : Chunk) (all_nodes : NodeList) (start : Point)
    (get_cost : Point -> Z) (nb : N) (reverse : bool)
  : outcome (option (NodeID * Path Point)) :=
  let start_cost := get_cost start in
  if start_cost <? 0 then
    if negb reverse then Ret None
    else
      foldl (fun acc id =>
               r ← acc;
               match r with
               | Some _ => Ret r
               | None =>
                   n ← nl_get all_nodes id;
                   p ← chunk_find_path c (node_pos n) start get_cost nb;
                   Ret (option_map (fun path => (id, path)) p)
               end)
        (Ret None) (elements (ch_nodes c))
  else
    '(points, map) ←
      foldl (fun acc id =>
               '(points, map) ← acc;
               node ← nl_get all_nodes id;
               Ret (points ++ [node_pos node], <[node_pos node := (id, walk_cost node)]> map))
        (Ret ([], ∅)) (elements (ch_nodes c));
    res ← dijkstra_search nb (in_chunk c) get_cost fuel start points true;
    match map_to_list res with
    | [] => Ret None
    | (point, path) :: _ =>
        '(id, node_cost) ← map_index map point;
        if reverse then
          p ← Path_reversed path (isize_as_usize start_cost) node_cost;
          Ret (Some (id, p))
        else Ret (Some (id, path))
    end.

End ChunkDef.

(* ------------------------------------------------------------------ *)
(** ** Dijkstra on the abstract graph ([graph/dijkstra.rs]) *)

Section GraphDijkstra.
Variable nodes : NodeList.

Fixpoint graph_dijkstra_loop (only_closest_goal : bool) (fuel : nat)
    (visited : gmap NodeID (Z * NodeID)) (next : list (NodeID * Z))
    (remaining_goals : gset NodeID) (goal_costs : gmap NodeID Z)
  : outcome (gmap NodeID (Z * NodeID) * gmap NodeID Z) :=
  match fuel with
  | O => OutOfFuel
  | S fuel' =>
      match heap_pop (fun e => - e.2) next with
      | None => Ret (visited, goal_costs)
      | Some ((current_id, current_cost), next) =>
          '(best, _) ← map_index visited current_id;
          if best <? current_cost
          then graph_dijkstra_loop only_closest_goal fuel' visited next remaining_goals goal_costs
          else if current_cost <? best then Panic "Binary Heap failed"
          else
            let is_goal := bool_decide (current_id ∈ remaining_goals) in
            let remaining_goals := remaining_goals ∖ {[current_id]} in
            let goal_costs :=
              if is_goal then <[current_id := current_cost]> goal_costs else goal_costs in
            if is_goal && (only_closest_goal || bool_decide (remaining_goals = ∅))
            then Ret (visited, goal_costs)
            else
              current ← nl_get nodes current_id;
              let '(visited, next) :=
                foldl (fun '(visited, next) '(other_id, path) =>
                         let other_cost := current_cost + seg_cost path in
                         match visited !! other_id with
                         | Some (prev_cost, _) =>
                             if other_cost <? prev_cost
                             then (<[other_id := (other_cost, current_id)]> visited,
                                   next ++ [(other_id, other_cost)])
                             else (visited, next)
                         | None => (<[other_id := (other_cost, current_id)]> visited,
                                    next ++ [(other_id, other_cost)])
                         end)
                  (visited, next) (map_to_list (edges current)) in
              graph_dijkstra_loop only_closest_goal fuel' visited next remaining_goals goal_costs
      end
  end.

Definition graph_dijkstra_search (fuel : nat) (start : NodeID) (goals : list NodeID)
    (only_closest_goal : bool) : outcome (gmap NodeID (Path NodeID)) :=
  '(visited, goal_costs) ←
    graph_dijkstra_loop only_closest_goal fuel {[start := (0, start)]} [(start, 0)]
      (list_to_set goals) ∅;
  foldl (fun acc gc =>
           m ← acc;
           steps ← walk_back start fuel visited gc.1 [];
           Ret (<[gc.1 := Path_new steps gc.2]> m))
    (Ret ∅) (map_to_list goal_costs).

End GraphDijkstra.

(* ------------------------------------------------------------------ *)
(** ** The path cache ([path_cache.rs]) *)

Record PathCache (N : Type) := mkPathCache {
  pc_width : Z;
  pc_height : Z;
  pc_chunks : list Chunk;
  pc_num_chunks : Z * Z;
  pc_nodes : NodeList;
  pc_neighborhood : N;
  pc_config : PathCacheConfig
}.
Arguments mkPathCache {N}.
Arguments pc_width {N}.
Arguments pc_height {N}.
Arguments pc_chunks {N}.
Arguments pc_num_chunks {N}.
Arguments pc_nodes {N}.
Arguments pc_neighborhood {N}.
Arguments pc_config {N}.

Definition set_pc_nodes {N} (pc : PathCache N) (nodes : NodeList) : PathCache N :=
  mkPathCache (pc_width pc) (pc_height pc) (pc_chunks pc) (pc_num_chunks pc) nodes
    (pc_neighborhood pc) (pc_config pc).

Definition set_pc_chunks {N} (pc : PathCache N) (chunks : list Chunk) : PathCache N :=
  mkPathCache (pc_width pc) (pc_height pc) chunks (pc_num_chunks pc) (pc_nodes pc)
    (pc_neighborhood pc) (pc_config pc).

Section PathCacheDef.
Context {N : Type} `{!Neighborhood N}.
Variable fuel : nat.

Definition get_chunk_pos (pc : PathCache N) (point : Point) : Point :=
  let size := chunk_size (pc_config pc) in
  ((point.1 / size) * size, (point.2 / size) * size).

Definition get_chunk_index (pc : PathCache N) (point : Point) : Z :=
  let size := chunk_size (pc_config pc) in
  (point.2 / size) * (pc_num_chunks pc).1 + point.1 / size.

Definition get_chunk (pc : PathCache N) (point : Point) : outcome Chunk :=
  index (pc_chunks pc) (Z.to_nat (get_chunk_index pc point)).

Definition same_chunk (pc : PathCache N) (a b : Point) : bool :=
  let size := chunk_size (pc_config pc) in
  bool_decide (a.1 / size = b.1 / size) && bool_decide (a.2 / size = b.2 / size).

Definition node_at (pc : PathCache N) (pos : Point) : option NodeID :=
  nl_id_at (pc_nodes pc) pos.

Definition connect_nodes (pc : PathCache N) (ids : option (gset NodeID)) : outcome (PathCache N) :=
  let ids := match ids with
             | Some ids => ids
             | None => list_to_set (nl_keys (pc_nodes pc))
             end in
  nodes ←
    foldl (fun acc id =>
             nodes ← acc;
             node ← nl_get nodes id;
             let pos := node_pos node in
             let cost := walk_cost node in
             foldl (fun acc other_pos =>
                      nodes ← acc;
                      match nl_id_at nodes other_pos with
                      | Some other_id =>
                          seg ← PathSegment_new (Path_new [pos; other_pos] cost)
                                  (cache_paths (pc_config pc));
                          nl_add_edge nodes id other_id seg
                      | None => Ret nodes
                      end)
               (Ret nodes) (get_all_neighbors (pc_neighborhood pc) pos))
      (Ret (pc_nodes pc)) (elements ids);
  Ret (set_pc_nodes pc nodes).

(** [PathCache::new_internal] with a sequential cost function. *)
Definition PathCache_new (wh : Z * Z) (get_cost : Point -> Z) (neighborhood : N)
    (config : PathCacheConfig) : outcome (PathCache N) :=
  let '(width, height) := wh in
  let cs := chunk_size config in
  let '(num_chunks_w, last_width) :=
    let w := width / cs in
    let remain := width - w * cs in
    if 0 <? remain then (w + 1, remain) else (w, cs) in
  let '(num_chunks_h, last_height) :=
    let h := height / cs in
    let remain := height - h * cs in
    if 0 <? remain then (h + 1, remain) else (h, cs) in
  '(chunks, nodes) ←
    foldl (fun acc y =>
             let h := if bool_decide (y = num_chunks_h - 1) then last_height else cs in
             foldl (fun acc x =>
                      '(chunks, nodes) ← acc;
                      let w := if bool_decide (x = num_chunks_w - 1) then last_width else cs in
                      '(chunk, nodes) ← Chunk_new fuel (x * cs, y * cs) (w, h) (width, height)
                                          get_cost neighborhood nodes config;
                      Ret (chunks ++ [chunk], nodes))
               acc (zrange 0 num_chunks_w))
      (Ret ([], NodeList_new)) (zrange 0 num_chunks_h);
  connect_nodes (mkPathCache width height chunks (num_chunks_w, num_chunks_h) nodes
                   neighborhood config) None.

Definition find_nearest_node (pc : PathCache N) (pos : Point) (get_cost : Point -> Z)
    (reverse : bool) : outcome (option (NodeID * option (Path Point))) :=
  match node_at pc pos with
  | Some id => Ret (Some (id, None))
  | None =>
      ch ← get_chunk pc pos;
      r ← nearest_node fuel ch (pc_nodes pc) pos get_cost (pc_neighborhood pc) reverse;
      Ret (option_map (fun '(id, path) => (id, Some path)) r)
  end.

Definition grid_a_star (pc : PathCache N) (start goal : Point) (get_cost : Point -> Z)
  : outcome (option (Path Point)) :=
  a_star_search (pc_neighborhood pc) (fun _ => true) get_cost fuel start goal.

(** The [start_path] part of the loop body of [resolve_paths]: the path
    from [start] to the node after the start node, cached per node
    position in [start_path_map]; returns the map, the start path and
    [skip_first]. *)
Definition resolve_start_path (pc : PathCache N) (start : Point)
    (start_path : option (Path Point)) (path : Path NodeID)
    (start_path_map : gmap Point (Path Point)) (get_cost : Point -> Z)
  : outcome (gmap Point (Path Point) * option (Path Point) * bool) :=
  match start_path with
  | None => Ret (start_path_map, None, false)
  | Some p =>
      after_start_id ← path_index path 1;
      n ← nl_get (pc_nodes pc) after_start_id;
      let after_start := node_pos n in
      if same_chunk pc start after_start then
        match start_path_map !! after_start with
        | Some p' => Ret (start_path_map, Some p', true)
        | None =>
            ch ← get_chunk pc start;
            r ← chunk_find_path fuel ch start after_start get_cost (pc_neighborhood pc);
            p' ← expect r "Inconsistency in Pathfinding";
            Ret (<[after_start := p']> start_path_map, Some p', true)
        end
      else Ret (start_path_map, Some p, false)
  end.

(** The [for (i, (a, b))] loop of [resolve_paths]: the cached edges of
    the node path, without the skipped ones. *)
Definition add_node_path_segments (pc : PathCache N) (final_path : AbstractPathImpl N)
    (path : Path NodeID) (skip_first skip_last : bool) (last_i : Z)
  : outcome (AbstractPathImpl N) :=
  let pts := path_points path in
  foldl (fun acc '(i, (a, b)) =>
           fp ← acc;
           if (skip_first && bool_decide (i = 0%nat))
              || (skip_last && bool_decide (Z.of_nat i = last_i))
           then Ret fp
           else
             an ← nl_get (pc_nodes pc) a;
             e ← map_index (edges an) b;
             add_path_segment fp e)
    (Ret final_path) (zip (seq 0 (length pts)) (zip pts (tail pts))).

(** The loop body of [resolve_paths] for a goal whose node path is [path]. *)
Definition resolve_one (pc : PathCache N) (start : Point) (start_path : option (Path Point))
    (goal : Point) (goal_path : option (Path Point)) (path : Path NodeID)
    (start_path_map : gmap Point (Path Point)) (get_cost : Point -> Z)
  : outcome (gmap Point (Path Point) * AbstractPathImpl N) :=
  let nb := pc_neighborhood pc in
  '(start_path_map, sp, skip_first) ←
    resolve_start_path pc start start_path path start_path_map get_cost;
  bi ← usize_sub (Z.of_nat (path_len path)) 2;
  before_goal_id ← path_index path (Z.to_nat bi);
  bn ← nl_get (pc_nodes pc) before_goal_id;
  let before_goal := node_pos bn in
  let skip_last := bool_decide (is_Some goal_path) && same_chunk pc goal before_goal in
  final_path ←
    match sp with
    | Some p => AbstractPath_from_known_path (Some nb) p
    | None => Ret (AbstractPath_new (Some nb) start)
    end;
  final_path ← add_node_path_segments pc final_path path skip_first skip_last bi;
  final_path ←
    if skip_last then
      ch ← get_chunk pc before_goal;
      r ← chunk_find_path fuel ch before_goal goal get_cost nb;
      p ← expect r "Inconsistency in Pathfinding";
      add_path final_path p
    else match goal_path with
         | Some p => add_path final_path p
         | None => Ret final_path
         end;
  Ret (start_path_map, final_path).

Definition resolve_paths (pc : PathCache N) (start : Point) (start_path : option (Path Point))
    (goal_data : list (Point * NodeID * option (Path Point))) (paths : gmap NodeID (Path NodeID))
    (get_cost : Point -> Z) : outcome (gmap Point (AbstractPathImpl N)) :=
  '(_, ret) ←
    foldl (fun (acc : outcome (gmap Point (Path Point) * gmap Point (AbstractPathImpl N)))
               (gd : Point * NodeID * option (Path Point)) =>
             let '(goal, goal_id, goal_path) := gd in
             '(start_path_map, ret) ← acc;
             match paths !! goal_id with
             | None => Ret (start_path_map, ret)
             | Some path =>
                 '(start_path_map, final_path) ←
                   resolve_one pc start start_path goal goal_path path start_path_map get_cost;
                 Ret (start_path_map, <[goal := final_path]> ret)
             end)
      (Ret (∅, ∅)) goal_data;
  Ret ret.

(** [PathCache::find_path] *)
Definition find_path (pc : PathCache N) (start goal : Point) (get_cost : Point -> Z)
  : outcome (option (AbstractPathImpl N)) :=
  let nb := pc_neighborhood pc in
  if get_cost start <? 0 then Ret None
  else if decide (start = goal) then
    ap ← AbstractPath_from_known_path (Some nb) (Path_new [start; start] 0);
    Ret (Some ap)
  else
    s ← find_nearest_node pc start get_cost false;
    match s with
    | None =>
        ch ← get_chunk pc start;
        r ← chunk_find_path fuel ch start goal get_cost nb;
        match r with
        | None => Ret None
        | Some path => ap ← AbstractPath_from_known_path (Some nb) path; Ret (Some ap)
        end
    | Some (start_id, start_path) =>
        g ← find_nearest_node pc goal get_cost true;
        match g with
        | None => Ret None
        | Some (goal_id, goal_path) =>
            r ← graph_a_star_search (pc_nodes pc) nb fuel start_id goal_id;
            match r with
            | None => Ret None
            | Some path =>
                if (path_len path =? 2)%nat
                   || (a_star_fallback (pc_config pc) && (path_len path <=? 4)%nat)
                then
                  r ← grid_a_star pc start goal get_cost;
                  match r with
                  | None => Ret None
                  | Some path => ap ← AbstractPath_from_known_path (Some nb) path; Ret (Some ap)
                  end
                else
                  res ← resolve_paths pc start start_path [(goal, goal_id, goal_path)]
                          {[goal_id := path]} get_cost;
                  match map_to_list res with
                  | [] => Ret None
                  | (_, p) :: _ => Ret (Some p)
                  end
            end
        end
    end.

(** [PathCache::find_paths_internal].  The map [ret] that collects the
    goals equal to [start] is built but not returned by the source; the
    model builds it as well. *)
Definition find_paths_internal (pc : PathCache N) (start : Point) (goals : list Point)
    (get_cost : Point -> Z) (only_closest_goal : bool) : outcome (gmap Point (AbstractPathImpl N)) :=
  let nb := pc_neighborhood pc in
  if (get_cost start <? 0) || bool_decide (goals = []) then Ret ∅
  else match goals with
  | [goal] =>
      r ← find_path pc start goal get_cost;
      match r with
      | Some path => Ret {[goal := path]}
      | None => Ret ∅
      end
  | _ =>
    s ← find_nearest_node pc start get_cost false;
    match s with
    | None =>
        ch ← get_chunk pc start;
        m ← chunk_find_paths fuel ch start goals get_cost nb;
        foldl (fun acc '(goal, path) =>
                 ret ← acc;
                 ap ← AbstractPath_from_known_path (Some nb) path;
                 Ret (<[goal := ap]> ret))
          (Ret ∅) (map_to_list m)
    | Some (start_id, start_path) =>
        '(goal_data, goal_ids, _) ←
          foldl (fun acc goal =>
                   '(goal_data, goal_ids, ret) ← acc;
                   if decide (goal = start) then
                     path ← AbstractPath_from_known_path (Some nb) (Path_new [start; start] 0);
                     Ret (goal_data, goal_ids, <[goal := path]> (ret : gmap Point (AbstractPathImpl N)))
                   else
                     g ← find_nearest_node pc goal get_cost true;
                     match g with
                     | None => Ret (goal_data, goal_ids, ret)
                     | Some (goal_id, goal_path) =>
                         Ret (goal_data ++ [(goal, goal_id, goal_path)], goal_ids ++ [goal_id], ret)
                     end)
            (Ret ([], [], ∅)) goals;
        paths ← graph_dijkstra_search (pc_nodes pc) fuel start_id goal_ids only_closest_goal;
        resolve_paths pc start start_path goal_data paths get_cost
    end
  end.

(** [PathCache::find_paths] *)
Definition find_paths (pc : PathCache N) (start : Point) (goals : list Point)
    (get_cost : Point -> Z) : outcome (gmap Point (AbstractPathImpl N)) :=
  find_paths_internal pc start goals get_cost false.

End PathCacheDef.

(* ------------------------------------------------------------------ *)
(** ** [PathCache::tiles_changed] *)

Module Renew.
Inductive t := No | Inner | Corner (p : Point) | All.
End Renew.

Definition renew_all_no : Dir -> Renew.t := fun _ => Renew.No.

Definition renew_update (sides : Dir -> Renew.t) (dir : Dir) (r : Renew.t) : Dir -> Renew.t :=
  fun d => if decide (d = dir) then r else sides d.

(** Marking the own side of a changed tile [p]: [All > Corner > Inner > No]. *)
Definition renew_own (old : Renew.t) (corner : bool) (p : Point) : Renew.t :=
  if corner then
    match old with
    | Renew.No | Renew.Inner => Renew.Corner p
    | Renew.Corner p2 => if decide (p2 <> p) then Renew.All else old
    | Renew.All => old
    end
  else
    match old with
    | Renew.No => Renew.Inner
    | _ => old
    end.

Definition renew_other (old : Renew.t) : Renew.t :=
  match old with
  | Renew.No => Renew.Inner
  | _ => old
  end.

Definition renew_is_no (r : Renew.t) : bool :=
  match r with Renew.No => true | _ => false end.

(** Whether a node at [pos] is removed from a side marked [r]. *)
Definition renew_removes (r : Renew.t) (corner : bool) (pos : Point) : bool :=
  match r with
  | Renew.No => false
  | Renew.Inner => negb corner
  | Renew.Corner c => negb corner || bool_decide (c = pos)
  | Renew.All => true
  end.

Section TilesChanged.
Context {N : Type} `{!Neighborhood N}.
Variable fuel : nat.

Definition set_chunk (pc : PathCache N) (ci : nat) (c : Chunk) : PathCache N :=
  set_pc_chunks pc (<[ci := c]> (pc_chunks pc)).

Definition tc_dirty (pc : PathCache N) (tiles : list Point) : gmap Point (list Point) :=
  foldl (fun dirty p =>
           let cp := get_chunk_pos pc p in
           <[cp := default [] (dirty !! cp) ++ [p]]> dirty)
    ∅ tiles.

Definition tc_renew (pc : PathCache N) (dirty : gmap Point (list Point))
  : outcome (gmap Point (Dir -> Renew.t)) :=
  let size := chunk_size (pc_config pc) in
  foldl (fun acc '(cp, positions) =>
           renew ← acc;
           chunk ← get_chunk pc cp;
           foldl (fun acc p =>
                    foldl (fun acc dir =>
                             renew ← acc;
                             other_pos ← expect (jump_in_dir cp dir size (0, 0)
                                                   (pc_width pc, pc_height pc))
                                           "Internal Error #2 in PathCache. Please report this";
                             let own := default renew_all_no (renew !! cp) in
                             let renew := <[cp := renew_update own dir
                                                    (renew_own (own dir) (is_corner chunk p) p)]> renew in
                             let other := default renew_all_no (renew !! other_pos) in
                             Ret (<[other_pos := renew_update other (dir_opposite dir)
                                                   (renew_other (other (dir_opposite dir)))]> renew))
                      acc (filter (fun dir => ch_sides chunk dir && at_side chunk p dir = true) dir_all))
             (Ret renew) positions)
    (Ret ∅) (map_to_list dirty).

(** Removing the nodes of the sides in [renew]. *)
Definition tc_remove (pc : PathCache N) (renew : gmap Point (Dir -> Renew.t))
  : outcome (PathCache N) :=
  foldl (fun acc '(cp, sides) =>
           pc ← acc;
           let ci := Z.to_nat (get_chunk_index pc cp) in
           chunk ← index (pc_chunks pc) ci;
           removed ←
             foldl (fun acc id =>
                      removed ← acc;
                      n ← nl_get (pc_nodes pc) id;
                      let pos := node_pos n in
                      let corner := is_corner chunk pos in
                      if existsb (fun dir => renew_removes (sides dir) corner pos && at_side chunk pos dir)
                           dir_all
                      then Ret (removed ++ [id]) else Ret removed)
               (Ret []) (elements (ch_nodes chunk));
           foldl (fun acc id =>
                    pc ← acc;
                    chunk ← index (pc_chunks pc) ci;
                    let pc := set_chunk pc ci (set_ch_nodes chunk (ch_nodes chunk ∖ {[id]})) in
                    nodes ← nl_remove_node (pc_nodes pc) id;
                    Ret (set_pc_nodes pc nodes))
             (Ret pc) removed)
    (Ret pc) (map_to_list renew).

(** Clearing the edges of the nodes in dirty chunks. *)
Definition tc_clear (pc : PathCache N) (dirty : gmap Point (list Point)) : outcome (PathCache N) :=
  foldl (fun acc cp =>
           pc ← acc;
           chunk ← get_chunk pc cp;
           nodes ← foldl (fun acc id =>
                            nodes ← acc;
                            n ← nl_get nodes id;
                            Ret (nl_set nodes id (set_edges n ∅)))
                     (Ret (pc_nodes pc)) (elements (ch_nodes chunk));
           Ret (set_pc_nodes pc nodes))
    (Ret pc) (map fst (map_to_list dirty)).

(** Recreating the sides in [renew]; returns the cache and the new
    nodes of chunks that are not dirty ([changed_nodes]). *)
Definition tc_recreate (pc : PathCache N) (dirty : gmap Point (list Point))
    (renew : gmap Point (Dir -> Renew.t)) (get_cost : Point -> Z) (changed : gset NodeID)
  : outcome (PathCache N * gset NodeID) :=
  foldl (fun acc '(cp, sides) =>
           '(pc, changed) ← acc;
           let ci := Z.to_nat (get_chunk_index pc cp) in
           chunk ← index (pc_chunks pc) ci;
           candidates ←
             foldl (fun acc dir =>
                      candidates ← acc;
                      if negb (renew_is_no (sides dir))
                      then calculate_side_nodes chunk dir (pc_width pc, pc_height pc) get_cost
                             (pc_config pc) candidates
                      else Ret candidates)
               (Ret ∅) dir_all;
           let candidates := filter (fun pos => nl_id_at (pc_nodes pc) pos = None) candidates in
           if bool_decide (candidates = ∅) then Ret (pc, changed)
           else
             let '(nodes, all_nodes) :=
               foldl (fun '(ids, all_nodes) p =>
                        let '(id, all_nodes) := nl_add_node all_nodes p (isize_as_usize (get_cost p)) in
                        (ids ++ [id], all_nodes))
                 ([], pc_nodes pc) (elements candidates) in
             let pc := set_pc_nodes pc all_nodes in
             if negb (bool_decide (is_Some (dirty !! cp))) then
               let changed := foldl (fun s id => {[id]} ∪ s) changed nodes in
               '(chunk, all_nodes) ← add_nodes fuel chunk nodes get_cost (pc_neighborhood pc)
                                        (pc_nodes pc) (pc_config pc);
               Ret (set_pc_nodes (set_chunk pc ci chunk) all_nodes, changed)
             else
               Ret (set_chunk pc ci (set_ch_nodes chunk (foldl (fun s id => {[id]} ∪ s)
                                                        (ch_nodes chunk) nodes)), changed))
    (Ret (pc, changed)) (map_to_list renew).

(** Recreating the paths inside the dirty chunks. *)
Definition tc_reconnect (pc : PathCache N) (dirty : gmap Point (list Point))
    (get_cost : Point -> Z) (changed : gset NodeID) : outcome (PathCache N * gset NodeID) :=
  foldl (fun acc cp =>
           '(pc, changed) ← acc;
           let ci := Z.to_nat (get_chunk_index pc cp) in
           chunk ← index (pc_chunks pc) ci;
           let nodes := elements (ch_nodes chunk) in
           let changed := foldl (fun s id => {[id]} ∪ s) changed nodes in
           '(chunk, all_nodes) ← add_nodes fuel (set_ch_nodes chunk ∅) nodes get_cost
                                    (pc_neighborhood pc) (pc_nodes pc) (pc_config pc);
           Ret (set_pc_nodes (set_chunk pc ci chunk) all_nodes, changed))
    (Ret (pc, changed)) (map fst (map_to_list dirty)).

(** [PathCache::tiles_changed_internal] with a sequential cost function. *)
Definition tiles_changed (pc : PathCache N) (tiles : list Point) (get_cost : Point -> Z)
  : outcome (PathCache N) :=
  let dirty := tc_dirty pc tiles in
  renew ← tc_renew pc dirty;
  pc ← tc_remove pc renew;
  pc ← tc_clear pc dirty;
  '(pc, changed) ← tc_recreate pc dirty renew get_cost ∅;
  '(pc, changed) ← tc_reconnect pc dirty get_cost changed;
  connect_nodes pc (Some changed).

End TilesChanged.

(** The abstract graph as the claims compare it: node positions, and
    edges by the positions of their end points and their cost. *)
Definition node_positions {N} (pc : PathCache N) : gset Point :=
  list_to_set (map (fun kn => node_pos kn.2) (map_to_list (slab_entries (nl_nodes (pc_nodes pc))))).

Definition edge_set {N} (pc : PathCache N) : gset (Point * Point * Z) :=
  let entries := slab_entries (nl_nodes (pc_nodes pc)) in
  list_to_set $ concat (map (fun kn =>
                 omap (fun '(other, seg) =>
                         match entries !! other with
                         | Some o => Some (node_pos kn.2, node_pos o, seg_cost seg)
                         | None => None
                         end)
                   (map_to_list (edges kn.2)))
            (map_to_list entries)).

(* ------------------------------------------------------------------ *)
(** ** Concrete grids used by the examples below *)

(** The grid of the crate's documentation and tests: 0 = empty (cost 1),
    1 = swamp (cost 10), 2 = wall; rows are [y]. *)
Definition grid_doc : list (list Z) :=
  [[0; 2; 0; 0; 0];
   [0; 2; 2; 2; 0];
   [0; 1; 0; 0; 0];
   [0; 1; 0; 2; 0];
   [0; 0; 0; 2; 0]].

Definition cost_map (t : Z) : Z := if bool_decide (t = 0) then 1 else if bool_decide (t = 1) then 10 else -1.

Definition cost_doc (p : Point) : Z :=
  match nth_error grid_doc (Z.to_nat p.2) with
  | Some row => match nth_error row (Z.to_nat p.1) with Some t => cost_map t | None => -1 end
  | None => -1
  end.

Definition nb_doc : ManhattanNeighborhood := {| mh_width := 5; mh_height := 5 |}.

(** The walkable tiles of the documentation grid. *)
Definition walkable_doc (q : Point) : bool := 0 <=? cost_doc q.

Definition cache_doc : outcome (PathCache ManhattanNeighborhood) :=
  PathCache_new 200 (5, 5) cost_doc nb_doc (with_chunk_size 3).

Definition cost_wall_demo (p : Point) : Z := if bool_decide (p = (0, 0)) then -1 else 1.

Definition nl_demo : NodeList :=
  snd (nl_add_node (snd (nl_add_node NodeList_new (0, 0) 1)) (0, 1) 10).

Definition seg_demo : PathSegment := Known (Path_new [(0, 0); (0, 1)] 1).

(** [nl_demo] with the edge [seg_demo] between its two nodes. *)
Definition nl_demo_linked : NodeList :=
  match nl_add_edge nl_demo 0 1 seg_demo with Ret l => l | _ => nl_demo end.


(** A 4x2 Moore grid in two 2x2 chunks; the walls [(2, 0)] and [(1, 1)]
    close both straight crossings of the chunk border, the diagonal step
    [(1, 0)] -> [(2, 1)] stays open. *)
Definition cost_c1 (p : Point) : Z :=
  if bool_decide (p = (2, 0)) || bool_decide (p = (1, 1)) then -1 else 1.
Definition nb_c1 : MooreNeighborhood := {| mo_width := 4; mo_height := 2 |}.
Definition cache_c1 : outcome (PathCache MooreNeighborhood) :=
  PathCache_new 100 (4, 2) cost_c1 nb_c1 (with_chunk_size 2).
(** A 4x4 Manhattan grid in 2x2 chunks, before and after the tile
    [(2, 1)] (a corner of its chunk) becomes a wall. *)
Definition cost_c2_before (p : Point) : Z := if bool_decide (p = (1, 2)) then -1 else 1.
Definition cost_c2_after (p : Point) : Z :=
  if bool_decide (p = (1, 2)) || bool_decide (p = (2, 1)) then -1 else 1.
Definition nb_c2 : ManhattanNeighborhood := {| mh_width := 4; mh_height := 4 |}.
Definition cache_c2_updated : outcome (PathCache ManhattanNeighborhood) :=
  pc ← PathCache_new 200 (4, 4) cost_c2_before nb_c2 (with_chunk_size 2);
  tiles_changed 200 pc [(2, 1)] cost_c2_after.
Definition cache_c2_fresh : outcome (PathCache ManhattanNeighborhood) :=
  PathCache_new 200 (4, 4) cost_c2_after nb_c2 (with_chunk_size 2).
(** A 6x3 Manhattan grid in two 3x3 chunks, with [perfect_paths] set and
    [a_star_fallback] off; [(2, 1)] is a wall and [(1, 2)] costs 2. *)
Definition cost_c3 (p : Point) : Z :=
  if bool_decide (p = (2, 1)) then -1 else if bool_decide (p = (1, 2)) then 2 else 1.
Definition nb_c3 : ManhattanNeighborhood := {| mh_width := 6; mh_height := 3 |}.
Definition config_c3 : PathCacheConfig := mkConfig 3 true false true.
Definition cache_c3 : outcome (PathCache ManhattanNeighborhood) :=
  PathCache_new 200 (6, 3) cost_c3 nb_c3 config_c3.

(** The path of the crate's test [new]: (0, 0) to (4, 4) on the
    documentation grid with the default configuration. *)
Definition doc_path : outcome (option (AbstractPathImpl ManhattanNeighborhood)) :=
  pc ← cache_doc; find_path 200 pc (0, 0) (4, 4) cost_doc.

(* ------------------------------------------------------------------ *)
(** ** Invariants used by the proofs *)

(** An invariant of the results of an [outcome] computation. *)
Definition holds {A} (P : A -> Prop) (m : outcome A) : Prop := forall a, m = Ret a -> P a.

(** Every predecessor recorded in a grid search's [visited] map is
    walkable. *)
Definition preds_walkable (get_cost : Point -> Z) (v : Visited) : Prop :=
  forall q k p, v !! q = Some (k, p) -> 0 <= get_cost p.

(** The iteration cursor of a fresh abstract path: segment 0, offset 1. *)
Definition at_start_cursor {N} (ap : AbstractPathImpl N) : Prop :=
  ap_current_index ap = (0%nat, 1%nat).

(** [p] lies in the rectangle of [base] and size [wh]. *)
Definition in_rect (base : Point) (wh : Z * Z) (p : Point) : Prop :=
  base.1 <= p.1 < base.1 + wh.1 /\ base.2 <= p.2 < base.2 + wh.2.

(** The bookkeeping of an abstract path: [total_cost] is the sum of the
    segments' costs and the last segment ends at [end]. *)
Definition ap_consistent {N} (ap : AbstractPathImpl N) : Prop :=
  ap_total_cost ap = foldr (fun s acc => seg_cost s + acc) 0 (ap_path ap) /\
  forall s, last (ap_path ap) = Some s -> seg_end s = Ret (ap_end ap).

(** What is left to iterate of an abstract path made of the known
    segments [segs], with the cursor at point [j] of segment [i], and the
    number of those points. *)
Definition collect_rest (segs : list (Path Point)) (i j : nat) : list Point :=
  match segs !! i with
  | Some p => drop j (path_points p) ++ concat (map (fun q => tail (path_points q)) (drop (S i) segs))
  | None => []
  end.

Definition collect_count (segs : list (Path Point)) (i j : nat) : nat :=
  match segs !! i with
  | Some p => (path_len p - j) + sum_list_with path_len (drop (S i) segs)
  | None => 0
  end.

(** [R a b] for every two consecutive elements of [l]. *)
Fixpoint chain {K} (R : K -> K -> Prop) (l : list K) : Prop :=
  match l with
  | a :: ((b :: _) as l') => R a b /\ chain R l'
  | _ => True
  end.

(** Every entry [q -> (_, p)] of a search's [visited] map, but the start's,
    records a predecessor [p] with [R p q]. *)
Definition preds_rel {K} `{EqDecision K, Countable K} (R : K -> K -> Prop) (start : K)
    (v : gmap K (Z * K)) : Prop :=
  forall q k p, v !! q = Some (k, p) -> q <> start -> R p q.

(** A step of a grid search: to a neighbour that [valid] accepts. *)
Definition grid_step {N} `{!Neighborhood N} (nb : N) (valid : Point -> bool) (a b : Point) : Prop :=
  b ∈ get_all_neighbors nb a /\ valid b = true.

(** A step of a graph search: along an edge of the node list. *)
Definition graph_step (nodes : NodeList) (a b : NodeID) : Prop :=
  exists n, nl_get nodes a = Ret n /\ is_Some (edges n !! b).

(** The invariant of [slab::Slab]: occupied keys and vacant keys are below
    the length, vacant keys are unoccupied and listed once. *)
Definition slab_wf {T} (s : Slab T) : Prop :=
  (forall k v, slab_entries s !! k = Some v -> (k < slab_len s)%nat) /\
  (forall k, k ∈ slab_vacant s -> (k < slab_len s)%nat /\ slab_entries s !! k = None) /\
  NoDup (slab_vacant s).

(** The edges of a node list are symmetric and closed: an edge [a -> b]
    joins two distinct stored nodes and [b] has an edge back to [a]. *)
Definition edges_sym (e : gmap NodeID Node) : Prop :=
  forall a na b, e !! a = Some na -> is_Some (edges na !! b) ->
  a <> b /\ exists nb, e !! b = Some nb /\ is_Some (edges nb !! a).

Definition nl_sym (l : NodeList) : Prop := edges_sym (slab_entries (nl_nodes l)).

Definition nl_ok (l : NodeList) : Prop := slab_wf (nl_nodes l) /\ nl_sym l.

Section AStarInvariants.
Context {N : Type} `{!Neighborhood N}.
Variables (nb : N) (valid : Point -> bool) (get_cost : Point -> Z).

(** The cells grid A* may enter from a neighbor: valid, and walkable
    unless it is the goal. *)
Definition relaxable (goal y : Point) : Prop := valid y = true /\ (0 <= get_cost y \/ y = goal).

(** The invariant of the A* loop: every heap entry is visited, and every
    visited cell is the goal, a wall, waiting in the heap with its best
    cost, or expanded, so that its enterable neighbors are all visited. *)
Definition astar_inv (goal : Point) (v : Visited) (h : list (Point * Z * Z)) : Prop :=
  (forall e, e ∈ h -> is_Some (v !! e.1.1)) /\
  (forall x cx px, v !! x = Some (cx, px) ->
     x = goal \/ get_cost x < 0 \/ (exists k, (x, cx, k) ∈ h) \/
     (forall y, y ∈ get_all_neighbors nb x -> relaxable goal y -> is_Some (v !! y))).

(** The [visited] map of a loop that ran out of heap without the goal:
    every visited cell is the goal, a wall or expanded. *)
Definition astar_closed (goal : Point) (v : Visited) : Prop :=
  forall x cx px, v !! x = Some (cx, px) ->
    x = goal \/ get_cost x < 0 \/
    (forall y, y ∈ get_all_neighbors nb x -> relaxable goal y -> is_Some (v !! y)).
End AStarInvariants.

(** The path [p] starts at [s]. *)
Definition starts_at {P} (s : P) (p : Path P) : Prop := path_index p 0 = Ret s.

(** The first segment of [ap] starts at [s]; with no segment yet, [ap]
    ends (and starts) at [s]. *)
Definition first_seg_at {N} (s : Point) (ap : AbstractPathImpl N) : Prop :=
  match ap_path ap with
  | [] => ap_end ap = s
  | seg :: _ => seg_start seg = Ret s
  end.

(** The position index of a node list agrees with the stored nodes: the
    id recorded for a position is that of a node at this position. *)
Definition pos_index_ok (l : NodeList) : Prop :=
  forall pos id n, nl_id_at l pos = Some id -> nl_get l id = Ret n -> node_pos n = pos.

Definition pos_index_okb (l : NodeList) : bool :=
  forallb (fun '(pos, id) =>
             match nl_get l id with
             | Ret n => bool_decide (node_pos n = pos)
             | _ => true
             end) (map_to_list (nl_pos_map l)).

(* ================================================================== *)
(** * Proofs *)

Lemma bind_Ret {A B} (m : outcome A) (f : A -> outcome B) (b : B) :
  (m ≫= f) = Ret b -> exists a, m = Ret a /\ f a = Ret b.
Proof. destruct m; simpl; try discriminate. eauto. Qed.

Lemma bind_Ret_eq {A B} (a : A) (f : A -> outcome B) : (Ret a ≫= f) = f a.
Proof. reflexivity. Qed.


Lemma usize_sub_Ret a b c : usize_sub a b = Ret c -> b <= a /\ c = a - b.
Proof. unfold usize_sub. destruct (Z.leb_spec b a); [|discriminate]. intros [= <-]; lia. Qed.

Lemma usize_sub_ok a b : b <= a -> usize_sub a b = Ret (a - b).
Proof. unfold usize_sub. destruct (Z.leb_spec b a); [reflexivity | lia]. Qed.

Ltac inv_bind :=
  repeat match goal with
  | H : (?m ≫= ?f) = Ret _ |- _ =>
      let a := fresh "a" in let Ha := fresh "Ha" in
      apply bind_Ret in H as (a & Ha & H)
  end.


Lemma holds_Ret {A} (P : A -> Prop) a : P a -> holds P (Ret a).
Proof. intros ? ? [= <-]; auto. Qed.

Lemma holds_fail {A} (P : A -> Prop) s : holds P (Panic s).
Proof. intros ? [=]. Qed.

Lemma holds_fuel {A} (P : A -> Prop) : holds P OutOfFuel.
Proof. intros ? [=]. Qed.

Lemma foldl_holds {A B} (P : A -> Prop) (f : outcome A -> B -> outcome A) (l : list B) m :
  (forall acc b, holds P acc -> holds P (f acc b)) -> holds P m -> holds P (foldl f m l).
Proof. intros Hf. revert m. induction l as [|b l IH]; simpl; auto. Qed.

Lemma PathSegment_reversed_cost s a b s' :
  PathSegment_reversed s a b = Ret s' -> seg_cost s' = seg_cost s - a + b.
Proof.
  destruct s as [p | st e c l]; simpl; intros H; inv_bind.
  - unfold Path_reversed in Ha. inv_bind. injection Ha as <-. injection H as <-.
    simpl. apply usize_sub_Ret in Ha0. lia.
  - injection H as <-. simpl. apply usize_sub_Ret in Ha. lia.
Qed.

Lemma nl_get_set l id n : nl_get (nl_set l id n) id = Ret n.
Proof. unfold nl_get, nl_set. simpl. by rewrite lookup_insert_eq. Qed.

Lemma nl_get_set_ne l id id' n : id <> id' -> nl_get (nl_set l id n) id' = nl_get l id'.
Proof. intros Hne. unfold nl_get, nl_set. simpl. by rewrite lookup_insert_ne. Qed.

Lemma nm_get_set m id n : nm_get (nm_set m id n) id = if (id <? length (nm_nodes m))%nat then Ret n else nm_get m id.
Proof.
  unfold nm_get, nm_set. simpl. destruct (Nat.ltb_spec id (length (nm_nodes m))).
  - by rewrite list_lookup_insert_eq.
  - rewrite list_insert_ge; [reflexivity | lia].
Qed.

Lemma nm_get_set_ne m id id' n : id <> id' -> nm_get (nm_set m id n) id' = nm_get m id'.
Proof. intros Hne. unfold nm_get, nm_set. simpl. by rewrite list_lookup_insert_ne. Qed.

(* ------------------------------------------------------------------ *)
(** ** Reversal of path segments *)

(** C6: reversing a path segment [s] with the walk costs [a] (start) and
    [b] (end) gives the cost [cost - a + b]; a known path keeps its point
    buffer and only flips its [is_reversed] flag, an unknown one swaps
    its ends; reversing the result with [b] and [a] gives [s] back, with
    the same points and the same cost.  Costs are [usize], hence
    [0 <= seg_cost s]. *)
Theorem PathSegment_reversed_involutive (s : PathSegment) (a b : Z) (s' : PathSegment)
    (Hcost : 0 <= seg_cost s) (Hrev : PathSegment_reversed s a b = Ret s') :
  seg_cost s' = seg_cost s - a + b /\
  match s, s' with
  | Known p, Known p' => path_buf p' = path_buf p /\ is_reversed p' = negb (is_reversed p)
  | Unknown st e _ l, Unknown st' e' _ l' => st' = e /\ e' = st /\ l' = l
  | _, _ => False
  end /\
  PathSegment_reversed s' b a = Ret s.
Proof.
  split; [by eapply PathSegment_reversed_cost|].
  destruct s as [p | st e c l]; simpl in *; inv_bind.
  - unfold Path_reversed in Ha. inv_bind. injection Ha as <-. injection Hrev as <-.
    apply usize_sub_Ret in Ha0 as [Hle ->].
    split; [simpl; auto|].
    simpl. unfold Path_reversed. simpl. rewrite usize_sub_ok by lia.
    rewrite negb_involutive. simpl. destruct p as [buf cost rev]. simpl.
    do 3 f_equal. lia.
  - injection Hrev as <-. apply usize_sub_Ret in Ha as [Hle ->].
    split; [auto|]. simpl. rewrite usize_sub_ok by lia. simpl. do 2 f_equal. lia.
Qed.

(** Witness of C6: a known two-point path of cost 5 between walk costs 3 and 7. *)
Lemma PathSegment_reversed_involutive_witness :
  let s := Known (Path_new [(0, 0); (0, 1)] 5) in
  0 <= seg_cost s /\ PathSegment_reversed s 3 7 = Ret (Known (mkPath [(0, 0); (0, 1)] 9 true)) /\
  PathSegment_reversed (Known (mkPath [(0, 0); (0, 1)] 9 true)) 7 3 = Ret s.
Proof.
  simpl. split; [lia|]. split; [reflexivity|].
  exact (proj2 (proj2 (PathSegment_reversed_involutive (Known (Path_new [(0, 0); (0, 1)] 5)) 3 7
           (Known (mkPath [(0, 0); (0, 1)] 9 true)) ltac:(simpl; lia) eq_refl))).
Defined.

(* ------------------------------------------------------------------ *)
(** ** Queries from a wall *)

(** C9: [find_path] from a start whose cost is negative returns [None]
    (and does not panic), and [find_paths_internal] ([find_paths] and
    [find_closest_goal]) returns the empty map, for every cache, goal and
    cost function. *)
Theorem find_path_wall_start {N} `{!Neighborhood N} (fuel : nat) (pc : PathCache N)
    (start goal : Point) (get_cost : Point -> Z) (Hwall : get_cost start < 0) :
  find_path fuel pc start goal get_cost = Ret None /\
  forall goals only_closest_goal,
    find_paths_internal fuel pc start goals get_cost only_closest_goal = Ret ∅.
Proof.
  unfold find_path, find_paths_internal.
  destruct (Z.ltb_spec (get_cost start) 0); [|lia].
  split; [reflexivity|]. intros goals oc. reflexivity.
Qed.

(** Witness of C9: a 3x3 grid whose corner [(0, 0)] is a wall. *)
Lemma find_path_wall_start_witness :
  match PathCache_new 100 (3, 3) cost_wall_demo {| mh_width := 3; mh_height := 3 |}
          (with_chunk_size 2) with
  | Ret pc =>
      cost_wall_demo (0, 0) < 0 /\
      find_path 100 pc (0, 0) (2, 2) cost_wall_demo = Ret None
  | _ => False
  end.
Proof.
  destruct (PathCache_new 100 (3, 3) cost_wall_demo _ _) as [pc| |] eqn:E;
    [| vm_compute in E; discriminate ..].
  split; [vm_compute; reflexivity|].
  apply (find_path_wall_start 100 pc (0, 0) (2, 2) cost_wall_demo).
  vm_compute; reflexivity.
Defined.

(* ------------------------------------------------------------------ *)
(** ** [add_edge] *)

Lemma nm_get_Ret_lt m id n : nm_get m id = Ret n -> (id < length (nm_nodes m))%nat.
Proof.
  unfold nm_get. destruct (nm_nodes m !! id) as [[o|]|] eqn:E; try discriminate.
  intros _. by apply lookup_lt_Some in E.
Qed.

Lemma nm_set_length m id n : length (nm_nodes (nm_set m id n)) = length (nm_nodes m).
Proof. unfold nm_set. simpl. apply length_insert. Qed.

Lemma nm_get_set_Ret m id n n0 : nm_get m id = Ret n0 -> nm_get (nm_set m id n) id = Ret n.
Proof.
  intros H. rewrite nm_get_set. apply nm_get_Ret_lt in H.
  destruct (Nat.ltb_spec id (length (nm_nodes m))); [reflexivity | lia].
Qed.

(** C8: [add_edge(a, b, segment)] for [a <> b].  On the node list
    ([NodeList::add_edge]) it leaves the list unchanged when [a] already
    has an edge to [b] of the same cost; otherwise [a] gets the edge
    [segment] to [b] and [b] gets the edge back to [a] carrying
    [segment] reversed with the walk costs of [a] and [b], whose cost is
    [cost - walk_cost a + walk_cost b] (not the cost of [segment] in
    general).  On the node map ([NodeMap::add_edge]) there is no check for
    an existing edge: both edges are always written. *)
Theorem add_edge_reciprocal (a b : NodeID) (seg : PathSegment) (Hne : a <> b) :
  (forall l l', nl_add_edge l a b seg = Ret l' ->
     exists na, nl_get l a = Ret na /\
     ((l' = l /\ exists e, edges na !! b = Some e /\ seg_cost e = seg_cost seg) \/
      ((forall e, edges na !! b = Some e -> seg_cost e <> seg_cost seg) /\
       exists nb rseg,
         nl_get l b = Ret nb /\
         PathSegment_reversed seg (walk_cost na) (walk_cost nb) = Ret rseg /\
         seg_cost rseg = seg_cost seg - walk_cost na + walk_cost nb /\
         nl_get l' a = Ret (set_edges na (<[b := seg]> (edges na))) /\
         nl_get l' b = Ret (set_edges nb (<[a := rseg]> (edges nb)))))) /\
  (forall m m', nm_add_edge m a b seg = Ret m' ->
     exists na nb rseg,
       nm_get m a = Ret na /\ nm_get m b = Ret nb /\
       PathSegment_reversed seg (walk_cost na) (walk_cost nb) = Ret rseg /\
       seg_cost rseg = seg_cost seg - walk_cost na + walk_cost nb /\
       nm_get m' a = Ret (set_edges na (<[b := seg]> (edges na))) /\
       nm_get m' b = Ret (set_edges nb (<[a := rseg]> (edges nb)))).
Proof.
  split.
  - intros l l' H. unfold nl_add_edge in H. inv_bind. exists a0. split; [exact Ha|].
    destruct (edges a0 !! b) as [e|] eqn:He.
    + destruct (bool_decide (seg_cost e = seg_cost seg)) eqn:Hb.
      * apply bool_decide_eq_true in Hb. left. injection H as <-. eauto.
      * apply bool_decide_eq_false in Hb. right. split; [congruence|].
        inv_bind. rewrite nl_get_set_ne in Ha2 by congruence.
        rewrite Ha in Ha2. injection Ha2 as <-. injection H as <-.
        exists a1, a2. repeat split; auto.
        -- by eapply PathSegment_reversed_cost.
        -- apply nl_get_set.
        -- rewrite nl_get_set_ne by congruence. apply nl_get_set.
    + right. split; [congruence|]. simpl in H. inv_bind.
      rewrite nl_get_set_ne in Ha2 by congruence.
      rewrite Ha in Ha2. injection Ha2 as <-. injection H as <-.
      exists a1, a2. repeat split; auto.
      * by eapply PathSegment_reversed_cost.
      * apply nl_get_set.
      * rewrite nl_get_set_ne by congruence. apply nl_get_set.
  - intros m m' H. unfold nm_add_edge in H. inv_bind.
    rewrite nm_get_set_ne in Ha2 by congruence.
    rewrite Ha in Ha2. injection Ha2 as <-. injection H as <-.
    exists a0, a1, a2. repeat split; auto.
    + by eapply PathSegment_reversed_cost.
    + by eapply nm_get_set_Ret; rewrite nm_get_set_ne by congruence.
    + rewrite nm_get_set_ne by congruence. by eapply nm_get_set_Ret.
Qed.

(** Witness of C8: node 0 at [(0, 0)] (walk cost 1), node 1 at [(0, 1)]
    (walk cost 10), a known segment of cost 1 between them. *)
Lemma add_edge_reciprocal_witness :
  exists l' na nb rseg, nl_add_edge nl_demo 0 1 seg_demo = Ret l' /\
    nl_get nl_demo 0 = Ret na /\ nl_get nl_demo 1 = Ret nb /\
    PathSegment_reversed seg_demo (walk_cost na) (walk_cost nb) = Ret rseg /\
    nl_get l' 1 = Ret (set_edges nb (<[0%nat := rseg]> (edges nb))).
Proof.
  assert (H : nl_add_edge nl_demo 0 1 seg_demo =
              Ret (match nl_add_edge nl_demo 0 1 seg_demo with Ret l => l | _ => nl_demo end))
    by (vm_compute; reflexivity).
  destruct (proj1 (add_edge_reciprocal 0 1 seg_demo ltac:(lia)) _ _ H) as [na [Hna Hor]].
  destruct Hor as [[Heq _] | [_ [nb [rseg (Hnb & Hr & _ & _ & Hb)]]]].
  - vm_compute in Heq. discriminate.
  - eexists; exists na, nb, rseg. repeat split; eassumption.
Defined.

(** Counterexample to C8: the reciprocal edge that node 1 receives back to
    node 0 costs 10, not the cost 1 of the inserted segment. *)
Lemma add_edge_reciprocal_counterexample :
  exists l' nb, nl_add_edge nl_demo 0 1 seg_demo = Ret l' /\ nl_get l' 1 = Ret nb /\
    option_map seg_cost (edges nb !! 0%nat) = Some 10 /\ seg_cost seg_demo = 1.
Proof. do 2 eexists. split; [vm_compute; reflexivity|]. split; [vm_compute; reflexivity|].
  split; vm_compute; reflexivity. Qed.

(* ------------------------------------------------------------------ *)
(** ** Searches from a start that is a goal *)

Lemma foldl_holds_Forall {A B} (P : A -> Prop) (Q : B -> Prop)
    (f : outcome A -> B -> outcome A) (l : list B) m :
  Forall Q l ->
  (forall acc b, Q b -> holds P acc -> holds P (f acc b)) -> holds P m -> holds P (foldl f m l).
Proof. intros HQ Hf. revert m. induction HQ; simpl; auto. Qed.

Section DijkstraStart.
Context {N : Type} `{!Neighborhood N}.
Variables (nb : N) (valid : Point -> bool) (get_cost : Point -> Z).

Lemma dijkstra_loop_keeps_goal_cost (s : Point) (c : Z) :
  forall fuel oc v next rg gcs v' gcs',
    dijkstra_loop nb valid get_cost oc fuel v next rg gcs = Ret (v', gcs') ->
    s ∉ rg -> gcs !! s = Some c -> gcs' !! s = Some c.
Proof.
  induction fuel as [|fuel IH]; simpl; intros oc v next rg gcs v' gcs' H Hs Hc; [discriminate|].
  destruct (heap_pop _ next) as [[[cur cc] next']|].
  2:{ injection H as <- <-. exact Hc. }
  inv_bind. destruct a as [best prev].
  destruct (Z.ltb_spec best cc); [eauto|].
  destruct (Z.ltb_spec cc best); [discriminate|].
  case_bool_decide as Hin.
  - assert (cur <> s) by (intros ->; contradiction).
    assert (Hc' : <[cur := cc]> gcs !! s = Some c) by (rewrite lookup_insert_ne; auto).
    destruct (oc || bool_decide (rg ∖ {[cur]} = ∅)).
    + injection H as <- <-. exact Hc'.
    + destruct (dijkstra_expand _ _ _ _ _ _ _ _) as [[v2 next2]|]; eapply IH; eauto; set_solver.
  - destruct (dijkstra_expand _ _ _ _ _ _ _ _) as [[v2 next2]|]; eapply IH; eauto.
Qed.

Lemma dijkstra_search_start_path (fuel : nat) (s : Point) (goals : list Point) (oc : bool)
    (m : gmap Point (Path Point)) :
  s ∈ goals -> dijkstra_search nb valid get_cost fuel s goals oc = Ret m ->
  m !! s = Some (Path_new [s] 0).
Proof.
  intros Hin H. unfold dijkstra_search in H. inv_bind. destruct a as [v' gcs'].
  destruct fuel as [|f]; [discriminate|].
  assert (Hgc : gcs' !! s = Some 0).
  { simpl in Ha. unfold map_index in Ha. rewrite lookup_singleton_eq in Ha. simpl in Ha.
    rewrite bool_decide_eq_true_2 in Ha by (by apply elem_of_list_to_set).
    assert (Hs : s ∉ (list_to_set goals : gset Point) ∖ {[s]}) by set_solver.
    assert (H0 : (<[s := 0]> ∅ : gmap Point Z) !! s = Some 0) by apply lookup_insert_eq.
    destruct (oc || _).
    - injection Ha as <- <-. exact H0.
    - destruct (dijkstra_expand _ _ _ _ _ _ _ _) as [[v2 next2]|];
        eapply dijkstra_loop_keeps_goal_cost; eauto. }
  apply elem_of_map_to_list in Hgc.
  apply list_elem_of_split in Hgc as (l1 & l2 & Hl).
  pose proof (NoDup_fst_map_to_list gcs') as Hnd. rewrite Hl, map_app in Hnd. simpl in Hnd.
  apply NoDup_app in Hnd as (_ & _ & Hnd). apply NoDup_cons in Hnd as [Hnotin _].
  rewrite Hl, foldl_app in H. simpl in H.
  revert H. apply (foldl_holds_Forall (fun m => m !! s = Some (Path_new [s] 0))
                     (fun gc => gc.1 <> s)).
  - apply Forall_forall. intros [k c] Hk Hks. simpl in Hks. subst k.
    apply Hnotin. apply list_elem_of_fmap. exists (s, c). auto.
  - intros acc [k c] Hk Hacc r Hr. simpl in Hk. destruct acc as [a| |]; simpl in Hr; try discriminate.
    inv_bind. injection Hr as <-. rewrite lookup_insert_ne by auto. by apply Hacc.
  - intros r Hr. destruct (foldl _ _ l1) as [a| |]; simpl in Hr; try discriminate.
    destruct (decide (s = s)); [|contradiction]. simpl in Hr. injection Hr as <-.
    apply lookup_insert_eq.
Qed.
End DijkstraStart.

(** C5: when the start is a goal, grid A* returns the two-point path
    [[start; start]] of cost 0 if the start is walkable and [None] if it
    is a wall, while grid Dijkstra returns for that goal the one-point
    path [[start]] of cost 0 (even from a wall). *)
Theorem grid_search_start_is_goal {N} `{!Neighborhood N} (nb : N) (valid : Point -> bool)
    (get_cost : Point -> Z) :
  (forall fuel s, a_star_search nb valid get_cost fuel s s =
     if get_cost s <? 0 then Ret None else Ret (Some (Path_new [s; s] 0))) /\
  (forall fuel s goals oc m, s ∈ goals ->
     dijkstra_search nb valid get_cost fuel s goals oc = Ret m ->
     m !! s = Some (Path_new [s] 0)).
Proof.
  split.
  - intros fuel s. unfold a_star_search. destruct (get_cost s <? 0); [reflexivity|].
    by rewrite decide_True.
  - intros. by eapply dijkstra_search_start_path.
Qed.

(** Witness of C5: Dijkstra on the documentation grid from [(0, 0)] with
    the goals [(0, 0)] and [(4, 4)]. *)
Lemma grid_search_start_is_goal_witness :
  exists m, dijkstra_search nb_doc (fun _ => true) cost_doc 100 (0, 0) [(0, 0); (4, 4)] false = Ret m /\
    m !! (0, 0) = Some (Path_new [(0, 0)] 0).
Proof.
  destruct (dijkstra_search nb_doc (fun _ => true) cost_doc 100 (0, 0) [(0, 0); (4, 4)] false)
    as [m| |] eqn:E; try (vm_compute in E; discriminate E).
  exists m. split; [reflexivity|].
  exact (proj2 (grid_search_start_is_goal nb_doc (fun _ => true) cost_doc) 100%nat (0, 0)
           [(0, 0); (4, 4)] false m ltac:(left) E).
Defined.

(** Counterexample to C5: with the start as its only goal, grid Dijkstra
    returns the one-point path [[(0, 0)]], where grid A* returns
    [[(0, 0); (0, 0)]]. *)
Lemma grid_search_start_is_goal_counterexample :
  dijkstra_search nb_doc (fun _ => true) cost_doc 10 (0, 0) [(0, 0)] false =
    Ret {[(0, 0) := Path_new [(0, 0)] 0]} /\
  a_star_search nb_doc (fun _ => true) cost_doc 10 (0, 0) (0, 0) =
    Ret (Some (Path_new [(0, 0); (0, 0)] 0)).
Proof. split; vm_compute; reflexivity. Qed.

(* ------------------------------------------------------------------ *)
(** ** Walls in grid A* *)

Section AStarWalls.
Context {N : Type} `{!Neighborhood N}.
Variables (nb : N) (valid : Point -> bool) (get_cost : Point -> Z).

Lemma a_star_relax_preds goal c cost st x :
  0 <= get_cost c -> preds_walkable get_cost st.1 ->
  preds_walkable get_cost (a_star_relax nb valid get_cost goal c cost st x).1.
Proof.
  destruct st as [v next]. simpl. intros Hc Hv. unfold a_star_relax.
  assert (Hins : preds_walkable get_cost (<[x := (cost, c)]> v)).
  { intros q k p Hq. destruct (decide (q = x)) as [->|Hne].
    - rewrite lookup_insert_eq in Hq. by injection Hq as <- <-.
    - rewrite lookup_insert_ne in Hq by congruence. eauto. }
  destruct (negb (valid x)); [exact Hv|].
  destruct (_ && _); [exact Hv|].
  destruct (v !! x) as [[pc pp]|]; [|exact Hins].
  destruct (cost <? pc); [exact Hins|exact Hv].
Qed.

Lemma a_star_relax_fold_preds goal c cost st l :
  0 <= get_cost c -> preds_walkable get_cost st.1 ->
  preds_walkable get_cost (foldl (a_star_relax nb valid get_cost goal c cost) st l).1.
Proof.
  intros Hc. revert st. induction l as [|x l IH]; simpl; auto.
  intros st Hst. apply IH. by apply a_star_relax_preds.
Qed.

Lemma a_star_loop_preds goal :
  forall fuel v next v', a_star_loop nb valid get_cost goal fuel v next = Ret v' ->
  preds_walkable get_cost v -> preds_walkable get_cost v'.
Proof.
  induction fuel as [|fuel IH]; simpl; intros v next v' H Hv; [discriminate|].
  destruct (heap_pop _ next) as [[[[cur cc] h] next']|]; [|by injection H as <-].
  destruct (decide (cur = goal)); [by injection H as <-|].
  inv_bind. destruct a as [best prev].
  destruct (Z.ltb_spec best cc); [eauto|].
  destruct (Z.ltb_spec cc best); [discriminate|].
  destruct (Z.ltb_spec (get_cost cur) 0); [eauto|].
  destruct (foldl _ _ _) as [v2 next2] eqn:Ef.
  eapply IH; [exact H|].
  change v2 with (v2, next2).1. rewrite <- Ef.
  apply a_star_relax_fold_preds; [lia|exact Hv].
Qed.

Lemma walk_back_walkable start (Hs : 0 <= get_cost start) :
  forall fuel v cur steps res, preds_walkable get_cost v ->
  walk_back start fuel v cur steps = Ret res ->
  exists pre, res = pre ++ cur :: steps /\ Forall (fun q => 0 <= get_cost q) pre.
Proof.
  induction fuel as [|fuel IH]; simpl; intros v cur steps res Hv H; [discriminate|].
  destruct (decide (cur = start)) as [->|Hne].
  - injection H as <-. exists []. auto.
  - inv_bind. destruct a as [k p]. unfold map_index in Ha.
    destruct (v !! cur) as [[k' p']|] eqn:Ev; [|discriminate]. injection Ha as Hk Hp; subst k' p'.
    destruct (IH _ _ _ _ Hv H) as (pre & -> & Hpre).
    exists (pre ++ [p]). rewrite <- app_assoc. split; [reflexivity|].
    apply Forall_app. split; [exact Hpre|]. constructor; [|constructor]. eapply Hv; eauto.
Qed.

Lemma a_star_search_walkable fuel start goal p :
  a_star_search nb valid get_cost fuel start goal = Ret (Some p) ->
  exists pre, path_buf p = pre ++ [goal] /\ Forall (fun q => 0 <= get_cost q) pre.
Proof.
  unfold a_star_search. destruct (Z.ltb_spec (get_cost start) 0) as [Hlt|Hge]; [discriminate|].
  destruct (decide (start = goal)) as [<-|Hne].
  - intros [= <-]. exists [start]. simpl. auto.
  - intros H. inv_bind.
    destruct (a !! goal) as [[gc gp]|]; [|discriminate]. inv_bind.
    injection H as <-. simpl.
    assert (Hv : preds_walkable get_cost a).
    { eapply a_star_loop_preds; [exact Ha|].
      intros q k p' Hq. destruct (decide (q = start)) as [->|Hq'].
      - rewrite lookup_singleton_eq in Hq. injection Hq as <- <-. lia.
      - rewrite lookup_singleton_ne in Hq by congruence. discriminate. }
    exact (walk_back_walkable start ltac:(lia) _ _ _ _ _ Hv Ha0).
Qed.

Lemma a_star_relax_keeps goal c cost st x y :
  is_Some (st.1 !! y) -> is_Some ((a_star_relax nb valid get_cost goal c cost st x).1 !! y).
Proof.
  destruct st as [v next]. simpl. intros Hy. unfold a_star_relax.
  assert (Hins : is_Some (<[x := (cost, c)]> v !! y)).
  { destruct (decide (y = x)) as [->|Hne]; [rewrite lookup_insert_eq; eauto|].
    by rewrite lookup_insert_ne by congruence. }
  destruct (negb (valid x)); [exact Hy|].
  destruct (_ && _); [exact Hy|].
  destruct (v !! x) as [[pc pp]|]; [|exact Hins].
  destruct (cost <? pc); [exact Hins|exact Hy].
Qed.

Lemma a_star_relax_fold_keeps goal c cost st l y :
  is_Some (st.1 !! y) ->
  is_Some ((foldl (a_star_relax nb valid get_cost goal c cost) st l).1 !! y).
Proof.
  revert st. induction l as [|x l IH]; simpl; auto.
  intros st Hst. apply IH. by apply a_star_relax_keeps.
Qed.

Lemma a_star_relax_goal goal c cost st :
  valid goal = true ->
  is_Some ((a_star_relax nb valid get_cost goal c cost st goal).1 !! goal).
Proof.
  destruct st as [v next]. intros Hg. unfold a_star_relax. rewrite Hg. simpl.
  rewrite bool_decide_eq_false_2 by congruence. rewrite andb_false_r.
  destruct (v !! goal) as [[pc pp]|] eqn:Ev.
  - destruct (cost <? pc); simpl; [rewrite lookup_insert_eq|rewrite Ev]; eauto.
  - simpl. rewrite lookup_insert_eq. eauto.
Qed.

Lemma a_star_loop_keeps goal :
  forall fuel v next v', is_Some (v !! goal) ->
  a_star_loop nb valid get_cost goal fuel v next = Ret v' -> is_Some (v' !! goal).
Proof.
  induction fuel as [|fuel IH]; simpl; intros v next v' Hv H; [discriminate|].
  destruct (heap_pop _ next) as [[[[cur cc] h] next']|]; [|by injection H as <-].
  destruct (decide (cur = goal)); [by injection H as <-|].
  inv_bind. destruct a as [best prev].
  destruct (Z.ltb_spec best cc); [eauto|].
  destruct (Z.ltb_spec cc best); [discriminate|].
  destruct (Z.ltb_spec (get_cost cur) 0); [eauto|].
  destruct (foldl _ _ _) as [v2 next2] eqn:Ef.
  eapply IH; [|exact H].
  change v2 with (v2, next2).1. rewrite <- Ef.
  by apply a_star_relax_fold_keeps.
Qed.
End AStarWalls.

Lemma best_index_bound {A} (prio : A -> Z) (l : list A) (i bi : nat) (bp : Z) :
  (bi < i)%nat -> (best_index prio l i bi bp < i + List.length l)%nat.
Proof.
  revert i bi bp. induction l as [|y l IH]; intros i bi bp Hb; simpl; [lia|].
  destruct (bp <? prio y).
  - specialize (IH (S i) i (prio y) ltac:(lia)). lia.
  - specialize (IH (S i) bi bp ltac:(lia)). lia.
Qed.

Lemma heap_pop_None {A} (prio : A -> Z) (h : list A) : heap_pop prio h = None -> h = [].
Proof.
  destruct h as [|x rest]; [done|]. unfold heap_pop.
  destruct (lookup_lt_is_Some_2 (x :: rest) (best_index prio rest 1 0 (prio x))) as [y Hy].
  { pose proof (best_index_bound prio rest 1 0 (prio x) ltac:(lia)). simpl. lia. }
  rewrite Hy. discriminate.
Qed.

Lemma heap_pop_Some {A} (prio : A -> Z) (h : list A) x h' :
  heap_pop prio h = Some (x, h') ->
  x ∈ h /\ (forall e, e ∈ h' -> e ∈ h) /\ (forall e, e ∈ h -> e <> x -> e ∈ h').
Proof.
  destruct h as [|x0 rest]; [discriminate|]. unfold heap_pop.
  set (i := best_index prio rest 1 0 (prio x0)).
  destruct ((x0 :: rest) !! i) as [y|] eqn:Hy; [|discriminate]. intros [= <- <-].
  pose proof (take_drop_middle (x0 :: rest) i y Hy) as Hl.
  rewrite delete_take_drop. split; [by eapply list_elem_of_lookup_2|]. split.
  - intros e He. rewrite <- Hl. apply elem_of_app in He as [He|He]; apply elem_of_app; [by left|].
    right. by right.
  - intros e He Hne. rewrite <- Hl in He. apply elem_of_app in He as [He|He]; apply elem_of_app; [by left|].
    apply elem_of_cons in He as [->|He]; [done|by right].
Qed.

Section AStarComplete.
Context {N : Type} `{!Neighborhood N}.
Variables (nb : N) (valid : Point -> bool) (get_cost : Point -> Z).

Lemma a_star_relax_fold_facts goal c cost l :
  forall v h v2 h2,
  foldl (a_star_relax nb valid get_cost goal c cost) (v, h) l = (v2, h2) ->
  (forall y, is_Some (v !! y) -> is_Some (v2 !! y)) /\
  (forall e, e ∈ h -> e ∈ h2) /\
  (forall x cx px, v2 !! x = Some (cx, px) -> v !! x = Some (cx, px) \/ exists k, (x, cx, k) ∈ h2) /\
  ((forall e, e ∈ h -> is_Some (v !! e.1.1)) -> forall e, e ∈ h2 -> is_Some (v2 !! e.1.1)) /\
  (forall y, y ∈ l -> relaxable valid get_cost goal y -> is_Some (v2 !! y)).
Proof.
  induction l as [|y l IH]; intros v h v2 h2 Hf; cbn [foldl] in Hf.
  - injection Hf as <- <-. split; [done|]. split; [done|]. split; [eauto|]. split; [done|].
    intros y Hy. by apply elem_of_nil in Hy.
  - destruct (a_star_relax nb valid get_cost goal c cost (v, h) y) as [v1 h1] eqn:Hr.
    destruct (IH _ _ _ _ Hf) as (K1 & K2 & K3 & K4 & K5).
    assert (S1 : forall z, is_Some (v !! z) -> is_Some (v1 !! z)).
    { intros z Hz. change v1 with (v1, h1).1. rewrite <- Hr. by apply (a_star_relax_keeps nb valid get_cost). }
    assert (Hcase : (v1 = v /\ h1 = h) \/
                (v1 = <[y := (cost, c)]> v /\ h1 = h ++ [(y, cost, cost + heuristic nb y goal)])).
    { unfold a_star_relax in Hr.
      destruct (negb (valid y)); [injection Hr as <- <-; by left|].
      destruct (_ && _); [injection Hr as <- <-; by left|].
      destruct (v !! y) as [[pc pp]|]; [destruct (cost <? pc)|]; injection Hr as <- <-; auto. }
    assert (S5 : relaxable valid get_cost goal y -> is_Some (v1 !! y)).
    { intros [Hv Hg]. change v1 with (v1, h1).1. rewrite <- Hr. unfold a_star_relax. rewrite Hv. simpl.
      assert (Hsk : (get_cost y <? 0) && bool_decide (y <> goal) = false).
      { destruct Hg as [Hg| ->]; [destruct (Z.ltb_spec (get_cost y) 0); [lia|done]|].
        rewrite bool_decide_eq_false_2 by congruence. apply andb_false_r. }
      rewrite Hsk. destruct (v !! y) as [[pc pp]|] eqn:Ev; [destruct (cost <? pc)|]; simpl;
        rewrite ?lookup_insert_eq, ?Ev; eauto. }
    split; [auto|]. split.
    { intros e He. apply K2. destruct Hcase as [[-> ->]|[-> ->]]; [done|]. apply elem_of_app. by left. }
    split.
    { intros x cx px Hx. destruct (K3 x cx px Hx) as [H1|H1]; [|by right].
      destruct Hcase as [[-> ->]|[-> ->]]; [by left|].
      destruct (decide (x = y)) as [->|Hne].
      - rewrite lookup_insert_eq in H1. injection H1 as <- <-. right.
        exists (cost + heuristic nb y goal). apply K2. apply elem_of_app. right. by left.
      - rewrite lookup_insert_ne in H1 by congruence. by left. }
    split.
    { intros Hh. apply K4. intros e He. destruct Hcase as [[-> ->]|[-> ->]]; [auto|].
      apply elem_of_app in He as [He|He].
      - destruct (decide (e.1.1 = y)) as [->|Hne]; [by rewrite lookup_insert_eq|].
        rewrite lookup_insert_ne by congruence. auto.
      - apply list_elem_of_singleton in He. subst e. simpl. by rewrite lookup_insert_eq. }
    intros z Hz Hrz. apply elem_of_cons in Hz as [->|Hz]; [|by apply K5].
    destruct (S5 Hrz) as [w Hw]. eapply K1. eauto.
Qed.

Lemma a_star_loop_complete goal :
  forall fuel v h v', astar_inv nb valid get_cost goal v h ->
  a_star_loop nb valid get_cost goal fuel v h = Ret v' ->
  is_Some (v' !! goal) \/ astar_closed nb valid get_cost goal v'.
Proof.
  induction fuel as [|fuel IH]; simpl; intros v h v' [I1 I2] H; [discriminate|].
  destruct (heap_pop _ h) as [[[[cur cc] hh] h']|] eqn:Hp.
  2:{ apply heap_pop_None in Hp as ->. injection H as <-. right.
      intros x cx px Hx. destruct (I2 x cx px Hx) as [?|[?|[[k Hk]|?]]]; auto.
      by apply elem_of_nil in Hk. }
  apply heap_pop_Some in Hp as (Hin & Hsub & Hkeep).
  destruct (decide (cur = goal)) as [->|Hng].
  { injection H as <-. left. exact (I1 _ Hin). }
  apply bind_Ret in H as ([best prev] & Hb & H).
  assert (Hvc : v !! cur = Some (best, prev)).
  { unfold map_index in Hb. destruct (v !! cur) as [x|]; [by injection Hb as ->|discriminate]. }
  (* the heap without the popped entry keeps every witness but possibly cur's *)
  assert (Hrest : forall x cx px, v !! x = Some (cx, px) -> (exists k, (x, cx, k) ∈ h) ->
                  (x = cur /\ cx = cc) \/ exists k, (x, cx, k) ∈ h').
  { intros x cx px Hx [k Hk]. destruct (decide ((x, cx, k) = (cur, cc, hh))) as [Heq|Hne].
    - injection Heq as -> -> ->. by left.
    - right. exists k. by apply Hkeep. }
  destruct (Z.ltb_spec best cc) as [Hlt|Hge].
  { eapply IH; [|exact H]. split; [intros e He; apply I1, Hsub, He|].
    intros x cx px Hx. destruct (I2 x cx px Hx) as [?|[?|[Hk|?]]]; auto.
    destruct (Hrest x cx px Hx Hk) as [[-> ->]|?]; [|auto].
    rewrite Hvc in Hx. injection Hx as -> ->. lia. }
  destruct (Z.ltb_spec cc best) as [Hlt|Hle]; [discriminate|].
  assert (cc = best) as -> by lia.
  destruct (Z.ltb_spec (get_cost cur) 0) as [Hw|Hw].
  { eapply IH; [|exact H]. split; [intros e He; apply I1, Hsub, He|].
    intros x cx px Hx. destruct (I2 x cx px Hx) as [?|[?|[Hk|?]]]; auto.
    destruct (Hrest x cx px Hx Hk) as [[-> ->]|?]; auto. }
  destruct (foldl _ _ _) as [v2 h2] eqn:Ef.
  destruct (a_star_relax_fold_facts _ _ _ _ _ _ _ _ Ef) as (K1 & K2 & K3 & K4 & K5).
  eapply IH; [|exact H]. split.
  { apply K4. intros e He. apply I1, Hsub, He. }
  intros x cx px Hx. destruct (K3 x cx px Hx) as [Hx0|Hk]; [|auto].
  destruct (I2 x cx px Hx0) as [?|[?|[Hk|Hexp]]]; auto.
  - destruct (Hrest x cx px Hx0 Hk) as [[-> ->]|[k Hk']].
    + do 3 right. intros y Hy Hry. exact (K5 y Hy Hry).
    + do 2 right. left. exists k. by apply K2.
  - do 3 right. intros y Hy Hry. apply K1. by apply Hexp.
Qed.

Lemma a_star_loop_mono goal y :
  forall fuel v next v', is_Some (v !! y) ->
  a_star_loop nb valid get_cost goal fuel v next = Ret v' -> is_Some (v' !! y).
Proof.
  induction fuel as [|fuel IH]; simpl; intros v next v' Hv H; [discriminate|].
  destruct (heap_pop _ next) as [[[[cur cc] h] next']|]; [|by injection H as <-].
  destruct (decide (cur = goal)); [by injection H as <-|].
  apply bind_Ret in H as ([best prev] & _ & H).
  destruct (Z.ltb_spec best cc); [eauto|].
  destruct (Z.ltb_spec cc best); [discriminate|].
  destruct (Z.ltb_spec (get_cost cur) 0); [eauto|].
  destruct (foldl _ _ _) as [v2 next2] eqn:Ef.
  eapply IH; [|exact H].
  change v2 with (v2, next2).1. rewrite <- Ef.
  by apply (a_star_relax_fold_keeps nb valid get_cost).
Qed.

Lemma astar_closed_reach goal v w start c :
  astar_closed nb valid get_cost goal v -> v !! goal = None -> is_Some (v !! start) ->
  head w = Some start -> last w = Some c -> chain (grid_step nb valid) w ->
  Forall (fun q => 0 <= get_cost q) w -> is_Some (v !! c).
Proof.
  intros Hc Hg. revert start. induction w as [|x w IH]; intros start Hs Hh Hl Hch Hw; [discriminate|].
  injection Hh as ->. inversion Hw as [|? ? Hx Hw']; subst.
  destruct w as [|y w].
  - injection Hl as ->. exact Hs.
  - destruct Hch as [[Hy Hvy] Hch]. apply (IH y); [|done|done|done|done].
    destruct Hs as [[cx px] Hs]. destruct (Hc start cx px Hs) as [->|[Hneg|Hexp]].
    + rewrite Hg in Hs. discriminate.
    + lia.
    + apply Hexp; [done|]. split; [done|]. left. by inversion Hw'.
Qed.

Lemma a_star_search_reaches_wall fuel start goal r w c :
  a_star_search nb valid get_cost fuel start goal = Ret r -> valid goal = true ->
  head w = Some start -> last w = Some c -> chain (grid_step nb valid) w ->
  Forall (fun q => 0 <= get_cost q) w -> goal ∈ get_all_neighbors nb c ->
  exists p, r = Some p.
Proof.
  intros H Hvg Hh Hl Hch Hw Hgc. unfold a_star_search in H.
  assert (Hs : 0 <= get_cost start).
  { destruct w as [|x w]; [discriminate|]. injection Hh as ->. by inversion Hw. }
  destruct (Z.ltb_spec (get_cost start) 0); [lia|].
  destruct (decide (start = goal)); [injection H as <-; eauto|].
  apply bind_Ret in H as (v' & Hloop & H).
  assert (Hg : is_Some (v' !! goal)).
  { destruct (a_star_loop_complete goal fuel {[start := (0, start)]} [(start, 0, 0)] v' ltac:(split; [
        intros e He; apply list_elem_of_singleton in He; subst e; simpl; by rewrite lookup_singleton_eq|
        intros x cx px Hx; do 2 right; left; apply lookup_singleton_Some in Hx as [<- [= <- <-]];
        exists 0; by left]) Hloop) as [?|Hcl]; [done|].
    destruct (v' !! goal) as [x|] eqn:Eg; [eauto|exfalso].
    assert (Hst : is_Some (v' !! start)).
    { apply (a_star_loop_mono goal start fuel {[start := (0, start)]} [(start, 0, 0)] v');
        [by rewrite lookup_singleton_eq|exact Hloop]. }
    destruct (astar_closed_reach goal v' w start c Hcl Eg Hst Hh Hl Hch Hw) as [[cc pc] Hcv].
    destruct (Hcl c cc pc Hcv) as [->|[Hneg|Hexp]].
    + rewrite Eg in Hcv. discriminate.
    + apply last_Some_elem_of in Hl. rewrite Forall_forall in Hw. specialize (Hw c Hl). lia.
    + destruct (Hexp goal Hgc (conj Hvg (or_intror eq_refl))) as [? Hx]. congruence. }
  destruct Hg as [[gc gp] Hg]. rewrite Hg in H. apply bind_Ret in H as (steps & _ & H).
  injection H as <-. eauto.
Qed.
End AStarComplete.

(** C4: grid A* treats walls (cost < 0) as impassable except for the
    goal: every path it returns is [pre ++ [goal]] with every cell of
    [pre] walkable; and when a valid goal has a neighbor [c] reachable
    from [start] by valid steps through walkable cells, a run of A* that
    terminates returns a path, which therefore ends in the goal, wall or
    not. *)
Theorem a_star_wall_goal {N} `{!Neighborhood N} (nb : N) (valid : Point -> bool)
    (get_cost : Point -> Z) :
  (forall fuel start goal p,
     a_star_search nb valid get_cost fuel start goal = Ret (Some p) ->
     exists pre, path_buf p = pre ++ [goal] /\ Forall (fun q => 0 <= get_cost q) pre) /\
  (forall fuel start goal r w c,
     a_star_search nb valid get_cost fuel start goal = Ret r -> valid goal = true ->
     head w = Some start -> last w = Some c -> chain (grid_step nb valid) w ->
     Forall (fun q => 0 <= get_cost q) w -> goal ∈ get_all_neighbors nb c ->
     exists p pre, r = Some p /\ path_buf p = pre ++ [goal] /\ Forall (fun q => 0 <= get_cost q) pre).
Proof.
  split.
  - apply a_star_search_walkable.
  - intros fuel start goal r w c H Hvg Hh Hl Hch Hw Hgc.
    destruct (a_star_search_reaches_wall nb valid get_cost fuel start goal r w c H Hvg Hh Hl Hch Hw Hgc)
      as [p ->].
    destruct (a_star_search_walkable nb valid get_cost fuel start goal p H) as (pre & Hp & Hpre).
    exists p, pre. auto.
Qed.

(** Witness of C4: on the documentation grid, the wall [(2, 1)] has the
    neighbor [(2, 2)], reached from [(0, 0)] through walkable cells, and
    A* from [(0, 0)] to [(2, 1)] returns a path ending in the wall. *)
Lemma a_star_wall_goal_witness :
  exists p pre, a_star_search nb_doc (fun _ => true) cost_doc 50 (0, 0) (2, 1) = Ret (Some p) /\
    cost_doc (2, 1) < 0 /\
    path_buf p = pre ++ [(2, 1)] /\ Forall (fun q => 0 <= cost_doc q) pre.
Proof.
  destruct (a_star_search nb_doc (fun _ => true) cost_doc 50 (0, 0) (2, 1)) as [r| |] eqn:E;
    try (vm_compute in E; discriminate E).
  destruct (proj2 (a_star_wall_goal nb_doc (fun _ => true) cost_doc) 50%nat (0, 0) (2, 1) r
              [(0, 0); (0, 1); (0, 2); (1, 2); (2, 2)] (2, 2) E eq_refl eq_refl eq_refl
              ltac:(cbn [chain]; unfold grid_step; repeat split; apply list_elem_of_In; vm_compute; tauto)
              ltac:(repeat constructor; vm_compute; discriminate)
              ltac:(apply list_elem_of_In; vm_compute; tauto))
    as (p & pre & -> & Hp & Hpre).
  exists p, pre. split; [reflexivity|]. split; [vm_compute; reflexivity|]. auto.
Defined.

(* ------------------------------------------------------------------ *)
(** ** Concrete runs of the path cache *)

(** C1: completeness fails.  On the 4x2 Moore grid the cache has no
    node at all, grid A* finds the path [(0, 0); (1, 0); (2, 1)] of cost
    2, and [find_path] returns [None]. *)
Theorem find_path_misses_diagonal_crossing :
  exists pc, cache_c1 = Ret pc /\ node_positions pc = ∅ /\
    grid_a_star 100 pc (0, 0) (2, 1) cost_c1 = Ret (Some (Path_new [(0, 0); (1, 0); (2, 1)] 2)) /\
    find_path 100 pc (0, 0) (2, 1) cost_c1 = Ret None.
Proof.
  destruct cache_c1 as [pc| |] eqn:E; try (vm_compute in E; discriminate E).
  exists pc. split; [reflexivity|]. vm_compute in E. injection E as <-.
  split; [|split]; vm_compute; reflexivity.
Qed.

(** C2: rebuild equivalence fails.  After [tiles_changed [(2, 1)]] the
    cache keeps the corner nodes [(1, 1)] and [(2, 2)], which a fresh
    build on the new grid does not have, and the edge sets differ. *)
Theorem tiles_changed_keeps_stale_corners :
  exists pc pc', cache_c2_updated = Ret pc /\ cache_c2_fresh = Ret pc' /\
    node_positions pc = node_positions pc' ∪ {[(1, 1)]} ∪ {[(2, 2)]} /\
    ((1, 1) ∉ node_positions pc') /\ ((2, 2) ∉ node_positions pc') /\
    edge_set pc ≠ edge_set pc'.
Proof.
  destruct cache_c2_updated as [pc| |] eqn:E; try (vm_compute in E; discriminate E).
  destruct cache_c2_fresh as [pc'| |] eqn:E'; try (vm_compute in E'; discriminate E').
  exists pc, pc'. split; [reflexivity|]. split; [reflexivity|].
  split; [|split; [|split]].
  - vm_compute in E, E'. injection E as <-. injection E' as <-. vm_compute. reflexivity.
  - apply (bool_decide_eq_false_1 ((1, 1) ∈ node_positions pc')).
    vm_compute in E'. injection E' as <-. vm_compute. reflexivity.
  - apply (bool_decide_eq_false_1 ((2, 2) ∈ node_positions pc')).
    vm_compute in E'. injection E' as <-. vm_compute. reflexivity.
  - intros Heq. assert (Hb : bool_decide (edge_set pc = edge_set pc') = false)
      by (vm_compute in E, E'; injection E as <-; injection E' as <-; vm_compute; reflexivity).
    rewrite bool_decide_eq_true_2 in Hb by exact Heq. discriminate.
Qed.

(** C3: with [perfect_paths = true], [find_path] from [(1, 1)] to
    [(4, 2)] returns a path of cost 6 while grid A* finds one of cost 5. *)
Theorem perfect_paths_not_optimal :
  exists pc ap, cache_c3 = Ret pc /\ perfect_paths (pc_config pc) = true /\
    find_path 200 pc (1, 1) (4, 2) cost_c3 = Ret (Some ap) /\
    ap_total_cost ap = 6 /\
    ap_collect 50 ap = Ret [(1, 0); (2, 0); (3, 0); (4, 0); (4, 1); (4, 2)] /\
    grid_a_star 200 pc (1, 1) (4, 2) cost_c3 =
      Ret (Some (Path_new [(1, 1); (1, 2); (2, 2); (3, 2); (4, 2)] 5)).
Proof.
  destruct cache_c3 as [pc| |] eqn:E; try (vm_compute in E; discriminate E).
  destruct (find_path 200 pc (1, 1) (4, 2) cost_c3) as [[ap|]| |] eqn:F;
    try (vm_compute in E; injection E as <-; vm_compute in F; discriminate F).
  exists pc, ap. split; [reflexivity|].
  split; [vm_compute in E; injection E as <-; reflexivity|]. split; [exact F|].
  vm_compute in E. injection E as <-. vm_compute in F. injection F as <-.
  split; [reflexivity|]. split; vm_compute; reflexivity.
Qed.

(** C7: [safe_next] does not skip the junction cell.  For the path of
    the test [new], iterating with [next] yields each cell once, while
    iterating with [safe_next] yields every junction between two Known
    segments twice, since it moves to offset 0 of the next segment. *)
Theorem safe_next_repeats_junction remat :
  exists ap, doc_path = Ret (Some ap) /\
  ap_collect 100 ap =
    Ret [(0, 1); (0, 2); (0, 3); (0, 4); (1, 4); (2, 4); (2, 3); (2, 2); (3, 2); (4, 2);
         (4, 3); (4, 4)] /\
  ap_safe_collect remat 100 ap cost_doc =
    Ret [(0, 1); (0, 2); (0, 2); (0, 3); (0, 3); (0, 4); (1, 4); (2, 4); (2, 3); (2, 3);
         (2, 2); (2, 2); (3, 2); (3, 2); (4, 2); (4, 2); (4, 3); (4, 3); (4, 4)].
Proof.
  destruct doc_path as [[ap|]| |] eqn:E; try (vm_compute in E; discriminate E).
  exists ap. split; [reflexivity|]. vm_compute in E. injection E as <-.
  split; reflexivity.
Qed.

(* ------------------------------------------------------------------ *)
(** ** The iteration cursor of the paths returned by the cache *)

Section Cursor.
Context {N : Type} `{!Neighborhood N}.

Lemma from_known_path_cursor (nb : option N) p ap :
  AbstractPath_from_known_path nb p = Ret ap -> at_start_cursor ap.
Proof. unfold AbstractPath_from_known_path. intros H. inv_bind. by injection H as <-. Qed.

Lemma add_path_segment_cursor (fp : AbstractPathImpl N) seg fp' :
  add_path_segment fp seg = Ret fp' -> ap_current_index fp' = ap_current_index fp.
Proof.
  unfold add_path_segment. intros H. inv_bind.
  destruct (decide _); [|discriminate]. inv_bind. by injection H as <-.
Qed.

Lemma add_path_cursor (fp : AbstractPathImpl N) p fp' :
  add_path fp p = Ret fp' -> ap_current_index fp' = ap_current_index fp.
Proof. unfold add_path. intros H. inv_bind. by injection H as <-. Qed.

Lemma add_node_path_segments_cursor pc (fp : AbstractPathImpl N) path sf sl li fp' :
  add_node_path_segments pc fp path sf sl li = Ret fp' ->
  ap_current_index fp' = ap_current_index fp.
Proof.
  unfold add_node_path_segments. intros H. revert H.
  apply (foldl_holds (fun a => ap_current_index a = ap_current_index fp)); [|by intros ? [= <-]].
  intros acc [i [a b]] Hacc r Hr. inv_bind.
  destruct (_ || _).
  - injection Hr as <-. by apply Hacc.
  - inv_bind. rewrite (add_path_segment_cursor _ _ _ Hr). by apply Hacc.
Qed.

Lemma resolve_one_cursor fuel pc start sp goal gp path spm gc spm' fp :
  resolve_one fuel pc start sp goal gp path spm gc = Ret (spm', fp) -> at_start_cursor fp.
Proof.
  unfold resolve_one. intros H. inv_bind. destruct a as [[spm1 sp1] sf].
  inv_bind.
  assert (Hfp0 : at_start_cursor a2).
  { destruct sp1; [by eapply from_known_path_cursor|by injection Ha3 as <-]. }
  apply add_node_path_segments_cursor in Ha4.
  injection H as <- <-. unfold at_start_cursor. rewrite <- Hfp0, <- Ha4.
  destruct (bool_decide _ && _).
  - inv_bind. by eapply add_path_cursor.
  - destruct gp; [by eapply add_path_cursor|by injection Ha5 as <-].
Qed.

Lemma resolve_paths_cursor fuel pc start sp gd paths gc m :
  resolve_paths fuel pc start sp gd paths gc = Ret m -> map_Forall (fun _ => @at_start_cursor N) m.
Proof.
  unfold resolve_paths. intros H. inv_bind. destruct a as [spm ret]. injection H as <-.
  revert Ha.
  apply (foldl_holds (fun r => map_Forall (fun _ => @at_start_cursor N) r.2)); [|by intros ? [= <-]].
  intros acc [[goal goal_id] goal_path] Hacc r Hr. inv_bind. destruct a as [spm1 ret1].
  specialize (Hacc _ Ha). simpl in Hacc.
  destruct (paths !! goal_id) as [path|].
  - inv_bind. destruct a as [spm2 fp]. injection Hr as <-. simpl.
    apply map_Forall_insert_2; [|exact Hacc]. by eapply resolve_one_cursor.
  - by injection Hr as <-.
Qed.

Lemma find_path_cursor fuel (pc : PathCache N) start goal gc ap :
  find_path fuel pc start goal gc = Ret (Some ap) -> at_start_cursor ap.
Proof.
  unfold find_path. intros H.
  destruct (gc start <? 0); [discriminate|].
  destruct (decide _).
  { inv_bind. injection H as <-. by eapply from_known_path_cursor. }
  inv_bind. destruct a as [[start_id start_path]|].
  - inv_bind. destruct a as [[goal_id goal_path]|]; [|discriminate].
    inv_bind. destruct a as [path|]; [|discriminate].
    destruct (_ || _).
    + inv_bind. destruct a as [p|]; [|discriminate]. inv_bind.
      injection H as <-. by eapply from_known_path_cursor.
    + inv_bind. destruct (map_to_list a) as [|[g p] l] eqn:El; [discriminate|].
      injection H as <-. apply resolve_paths_cursor in Ha2.
      assert (Hin : (g, p) ∈ map_to_list a) by (rewrite El; left).
      apply elem_of_map_to_list in Hin. exact (Ha2 _ _ Hin).
  - inv_bind. destruct a0 as [p|]; [|discriminate]. inv_bind.
    injection H as <-. by eapply from_known_path_cursor.
Qed.

Lemma find_paths_internal_cursor fuel (pc : PathCache N) start goals gc oc m :
  find_paths_internal fuel pc start goals gc oc = Ret m -> map_Forall (fun _ => @at_start_cursor N) m.
Proof.
  unfold find_paths_internal. intros H.
  destruct (gc start <? 0); simpl in H.
  { injection H as <-. apply map_Forall_empty. }
  destruct goals as [|g [|g2 goals]]; simpl in H.
  - injection H as <-. apply map_Forall_empty.
  - inv_bind. destruct a as [ap|].
    + injection H as <-. apply map_Forall_singleton. by eapply find_path_cursor.
    + injection H as <-. apply map_Forall_empty.
  - inv_bind. destruct a as [[start_id start_path]|].
    + inv_bind. destruct a as [[goal_data goal_ids] ret]. inv_bind.
      by eapply resolve_paths_cursor.
    + inv_bind. revert H.
      apply (foldl_holds (fun r => map_Forall (fun _ => @at_start_cursor N) r));
        [|by intros ? [= <-]; apply map_Forall_empty].
      intros acc [goal path] Hacc r Hr. inv_bind. injection Hr as <-.
      apply map_Forall_insert_2; [by eapply from_known_path_cursor|by apply Hacc].
Qed.
End Cursor.

(* ================================================================== *)
(** * Further properties of the code *)

(*X1*)

Lemma abs_diff_abs a b : abs_diff a b = Z.abs (a - b).
Proof. unfold abs_diff. destruct (Z.gtb_spec b a); lia. Qed.

Lemma offsets_to_neighbors_elem w h offs p q :
  q ∈ offsets_to_neighbors w h offs p <->
  in_bounds w h q = true /\ exists d, d ∈ offs /\ q = (p.1 + d.1, p.2 + d.2).
Proof.
  unfold offsets_to_neighbors. rewrite list_elem_of_filter.
  change (map ?f offs) with (f <$> offs). rewrite list_elem_of_fmap. naive_solver.
Qed.

Lemma offsets_to_neighbors_NoDup w h offs p :
  NoDup offs -> NoDup (offsets_to_neighbors w h offs p).
Proof.
  intros Hn. unfold offsets_to_neighbors. apply NoDup_filter.
  induction Hn as [|d offs Hd Hn IH]; simpl; constructor; [|exact IH].
  intros Hin. apply Hd. change (map ?f offs) with (f <$> offs) in Hin.
  apply list_elem_of_fmap in Hin as ([a b] & Heq & Hin). destruct d as [c e].
  simpl in Heq. injection Heq as H1 H2. assert (a = c) by lia. assert (b = e) by lia. subst. exact Hin.
Qed.

(** X1: [get_all_neighbors] of a Manhattan neighbourhood returns exactly the
    in-bounds points at Manhattan distance ([heuristic]) 1 from [p], each once. *)
Theorem manhattan_neighbors_spec (w h : Z) (p q : Point) :
  let n := {| mh_width := w; mh_height := h |} in
  (q ∈ get_all_neighbors n p <-> in_bounds w h q = true /\ heuristic n p q = 1) /\
  NoDup (get_all_neighbors n p).
Proof.
  intros n. split.
  - simpl. rewrite offsets_to_neighbors_elem, !abs_diff_abs.
    destruct p as [x y], q as [a b]. simpl. split.
    + intros [Hb (d & Hd & Heq)]. split; [exact Hb|].
      repeat rewrite elem_of_cons in Hd. rewrite elem_of_nil in Hd.
      injection Heq as -> ->. destruct Hd as [->|[->|[->|[->|[]]]]]; simpl; lia.
    + intros [Hb Hh]. split; [exact Hb|].
      assert ((a = x /\ b = y - 1) \/ (a = x + 1 /\ b = y) \/ (a = x /\ b = y + 1) \/ (a = x - 1 /\ b = y)) as Hc by lia.
      destruct Hc as [[-> ->]|[[-> ->]|[[-> ->]|[-> ->]]]].
      * exists (0, -1). split; [set_solver|f_equal; simpl; lia].
      * exists (1, 0). split; [set_solver|f_equal; simpl; lia].
      * exists (0, 1). split; [set_solver|f_equal; simpl; lia].
      * exists (-1, 0). split; [set_solver|f_equal; simpl; lia].
  - apply offsets_to_neighbors_NoDup. apply (bool_decide_unpack _). vm_compute. reflexivity.
Qed.

(** X2: [get_all_neighbors] of a Moore neighbourhood returns exactly the
    in-bounds points at Chebyshev distance ([heuristic]) 1 from [p], each once. *)
Theorem moore_neighbors_spec (w h : Z) (p q : Point) :
  let n := {| mo_width := w; mo_height := h |} in
  (q ∈ get_all_neighbors n p <-> in_bounds w h q = true /\ heuristic n p q = 1) /\
  NoDup (get_all_neighbors n p).
Proof.
  intros n. split.
  - simpl. rewrite offsets_to_neighbors_elem, !abs_diff_abs.
    destruct p as [x y], q as [a b]. simpl. split.
    + intros [Hb (d & Hd & Heq)]. split; [exact Hb|].
      repeat rewrite elem_of_cons in Hd. rewrite elem_of_nil in Hd.
      injection Heq as -> ->.
      destruct Hd as [->|[->|[->|[->|[->|[->|[->|[->|[]]]]]]]]]; simpl; lia.
    + intros [Hb Hh]. split; [exact Hb|]. exists (a - x, b - y). split; [|f_equal; simpl; lia].
      assert ((a - x = 0 /\ b - y = -1) \/ (a - x = 1 /\ b - y = -1) \/ (a - x = 1 /\ b - y = 0) \/
              (a - x = 1 /\ b - y = 1) \/ (a - x = 0 /\ b - y = 1) \/ (a - x = -1 /\ b - y = 1) \/
              (a - x = -1 /\ b - y = 0) \/ (a - x = -1 /\ b - y = -1)) as Hc by lia.
      destruct Hc as [[-> ->]|[[-> ->]|[[-> ->]|[[-> ->]|[[-> ->]|[[-> ->]|[[-> ->]|[-> ->]]]]]]]];
        set_solver.
  - apply offsets_to_neighbors_NoDup. apply (bool_decide_unpack _). vm_compute. reflexivity.
Qed.

(** X3: Both heuristics are metrics: zero exactly between equal points,
    symmetric, and satisfying the triangle inequality. *)
Theorem heuristics_are_metrics (mh : ManhattanNeighborhood) (mo : MooreNeighborhood) (p q r : Point) :
  (heuristic mh p q = 0 <-> p = q) /\ heuristic mh p q = heuristic mh q p /\
  heuristic mh p r <= heuristic mh p q + heuristic mh q r /\
  (heuristic mo p q = 0 <-> p = q) /\ heuristic mo p q = heuristic mo q p /\
  heuristic mo p r <= heuristic mo p q + heuristic mo q r.
Proof.
  simpl. rewrite !abs_diff_abs. destruct p as [a b], q as [c d], r as [e f]. simpl.
  repeat split; try lia; intros H; try (injection H; lia).
  assert (a = c) by lia. assert (b = d) by lia. subst; reflexivity.
  assert (a = c) by lia. assert (b = d) by lia. subst; reflexivity.
Qed.

(*X2*)


Ltac zcases :=
  repeat match goal with
  | |- context [bool_decide ?P] => case_bool_decide
  | |- context [Z.leb ?a ?b] => destruct (Z.leb_spec a b)
  | |- context [Z.ltb ?a ?b] => destruct (Z.ltb_spec a b)
  end; simpl.

(** X4: From a position inside the rectangle, [get_in_dir] is [jump_in_dir]
    by distance 1, and any point it returns lies inside the rectangle. *)
Theorem get_in_dir_is_jump_one (pos : Point) (d : Dir) (base : Point) (wh : Z * Z) :
  in_rect base wh pos ->
  get_in_dir pos d base wh = jump_in_dir pos d 1 base wh /\
  (forall q, get_in_dir pos d base wh = Some q -> in_rect base wh q).
Proof.
  destruct pos as [x y], base as [bx by_], wh as [w h]. unfold in_rect. simpl. intros Hr.
  assert (Heq : get_in_dir (x, y) d (bx, by_) (w, h) = jump_in_dir (x, y) d 1 (bx, by_) (w, h)).
  { destruct d; unfold get_in_dir, jump_in_dir; simpl; zcases;
      try reflexivity; try lia; f_equal; f_equal; lia. }
  split; [exact Heq|]. intros [a b]. rewrite Heq. unfold jump_in_dir. simpl. zcases; [|congruence..].
  intros [= <- <-]. lia.
Qed.

Lemma get_in_dir_is_jump_one_witness :
  in_rect (0, 0) (3, 3) (1, 1) /\
  get_in_dir (1, 1) UP (0, 0) (3, 3) = jump_in_dir (1, 1) UP 1 (0, 0) (3, 3) /\
  get_in_dir (1, 1) UP (0, 0) (3, 3) = Some (1, 0).
Proof.
  split; [unfold in_rect; simpl; lia|]. split; [|reflexivity].
  exact (proj1 (get_in_dir_is_jump_one (1, 1) UP (0, 0) (3, 3) ltac:(unfold in_rect; simpl; lia))).
Defined.

(** X5: From a position inside the rectangle, a successful [jump_in_dir]
    lands inside it, and jumping back the same distance in the opposite
    direction returns to the position. *)
Theorem jump_in_dir_round_trip (pos : Point) (d : Dir) (dist : Z) (base : Point) (wh : Z * Z) (q : Point) :
  in_rect base wh pos -> jump_in_dir pos d dist base wh = Some q ->
  in_rect base wh q /\ jump_in_dir q (dir_opposite d) dist base wh = Some pos.
Proof.
  destruct pos as [x y], base as [bx by_], wh as [w h], q as [a b]. unfold in_rect. simpl. intros Hr.
  destruct d; unfold jump_in_dir; simpl; zcases; intros Hj; try discriminate Hj;
    injection Hj as <- <-; (split; [lia|]); zcases; try lia; f_equal; f_equal; lia.
Qed.

Lemma jump_in_dir_round_trip_witness :
  in_rect (0, 0) (5, 5) (1, 1) /\ jump_in_dir (1, 1) RIGHT 3 (0, 0) (5, 5) = Some (4, 1) /\
  jump_in_dir (4, 1) LEFT 3 (0, 0) (5, 5) = Some (1, 1).
Proof.
  assert (Hr : in_rect (0, 0) (5, 5) (1, 1)) by (unfold in_rect; simpl; lia).
  assert (Hj : jump_in_dir (1, 1) RIGHT 3 (0, 0) (5, 5) = Some (4, 1)) by reflexivity.
  split; [exact Hr|]. split; [exact Hj|].
  exact (proj2 (jump_in_dir_round_trip (1, 1) RIGHT 3 (0, 0) (5, 5) (4, 1) Hr Hj)).
Defined.


Lemma rev_reverse {A} (l : list A) : rev l = reverse l.
Proof. unfold reverse. apply rev_alt. Qed.

Lemma length_path_points {P} (p : Path P) : length (path_points p) = path_len p.
Proof. unfold path_points, path_len. destruct (is_reversed p); [apply length_rev|reflexivity]. Qed.

Lemma path_index_lookup {P} (p : Path P) i x :
  path_points p !! i = Some x -> path_index p i = Ret x.
Proof.
  unfold path_index, path_points, path_len, index. destruct (is_reversed p).
  - rewrite rev_reverse. intros Hx. pose proof Hx as Hx'. apply reverse_lookup_Some in Hx' as [Hx' Hi].
    destruct (Nat.ltb_spec i (length (path_buf p))); [|lia].
    replace (length (path_buf p) - i - 1)%nat with (length (path_buf p) - S i)%nat by lia. by rewrite Hx'.
  - intros ->. reflexivity.
Qed.

Lemma forallb_zip_eq {P} `{EqDecision P} (l r : list P) :
  length l = length r ->
  forallb (fun ab => bool_decide (ab.1 = ab.2)) (zip l r) = true <-> l = r.
Proof.
  revert r. induction l as [|x l IH]; intros [|y r]; simpl; try discriminate; intros Hl.
  - tauto.
  - rewrite andb_true_iff, IH by lia. rewrite bool_decide_eq_true. split.
    + intros [-> ->]; reflexivity.
    + intros [= -> ->]; auto.
Qed.

(** X6: A [Path] equals a [Vec] exactly when iterating the path yields the
    vector's elements in order. *)
Theorem path_eq_vec_spec {P} `{EqDecision P} (p : Path P) (v : list P) :
  path_eq_vec p v = true <-> path_points p = v.
Proof.
  unfold path_eq_vec. rewrite andb_true_iff, bool_decide_eq_true. split.
  - intros [Hl Hz]. apply forallb_zip_eq in Hz; [exact Hz|]. rewrite length_path_points. exact Hl.
  - intros <-. rewrite length_path_points. split; [reflexivity|].
    apply forallb_zip_eq; reflexivity.
Qed.

(** X7: [path[i]] is the [i]-th point in iteration order (also for a reversed
    path), and indexing at [len()] or beyond panics. *)
Theorem path_index_agrees_with_iter {P} (p : Path P) (i : nat) :
  (forall x, path_index p i = Ret x <-> path_points p !! i = Some x) /\
  ((path_len p <= i)%nat -> exists msg, path_index p i = Panic msg).
Proof.
  unfold path_index, path_points, path_len, index. destruct (is_reversed p).
  - rewrite rev_reverse. destruct (Nat.ltb_spec i (length (path_buf p))) as [Hi|Hi].
    + rewrite reverse_lookup by exact Hi. replace (length (path_buf p) - i - 1)%nat with (length (path_buf p) - S i)%nat by lia.
      split; [|lia]. intros x. destruct (path_buf p !! _); split; congruence.
    + rewrite lookup_ge_None_2 by (rewrite length_reverse; lia). split; [|eauto].
      intros x; split; discriminate.
  - split.
    + intros x. destruct (path_buf p !! i); split; congruence.
    + intros Hi. rewrite lookup_ge_None_2 by exact Hi. eauto.
Qed.

(** X8: [Path::reversed] with [start_cost] at most the cost gives the points
    in the opposite order, cost [cost - start_cost + end_cost] and the same
    length; a larger [start_cost] makes the subtraction overflow and panic. *)
Theorem Path_reversed_spec {P} (p : Path P) (sc ec : Z) :
  (sc <= path_cost p -> exists p', Path_reversed p sc ec = Ret p' /\
     path_points p' = rev (path_points p) /\ path_cost p' = path_cost p - sc + ec /\
     path_len p' = path_len p) /\
  (path_cost p < sc -> exists msg, Path_reversed p sc ec = Panic msg).
Proof.
  unfold Path_reversed, usize_sub. destruct (Z.leb_spec sc (path_cost p)); split; intros; try lia; simpl.
  - eexists; split; [reflexivity|]. unfold path_points, path_len. simpl.
    destruct (is_reversed p); simpl; [rewrite rev_involutive|]; auto.
  - eauto.
Qed.

(** X9: A segment made from a non-empty path, cached or not, reports the
    path's first and last points as [start] and [end], its cost and its
    length. *)
Theorem PathSegment_new_summary (p : Path Point) (known : bool) :
  (1 <= path_len p)%nat ->
  exists s, PathSegment_new p known = Ret s /\
    seg_start s = path_index p 0 /\ seg_end s = path_index p (path_len p - 1) /\
    seg_cost s = path_cost p /\ seg_len s = path_len p.
Proof.
  intros Hl. destruct known; simpl; [eexists; repeat split; reflexivity|].
  destruct (lookup_lt_is_Some_2 (path_points p) 0) as [x Hx]; [rewrite length_path_points; lia|].
  destruct (lookup_lt_is_Some_2 (path_points p) (path_len p - 1)) as [y Hy]; [rewrite length_path_points; lia|].
  rewrite (path_index_lookup p 0 x Hx), (path_index_lookup p _ y Hy). simpl. eauto 10.
Qed.

Lemma PathSegment_new_summary_witness :
  exists s, PathSegment_new (Path_new [(0, 0); (0, 1); (1, 1)] 2) false = Ret s /\
    seg_start s = Ret (0, 0) /\ seg_end s = Ret (1, 1) /\ seg_len s = 3%nat.
Proof.
  destruct (PathSegment_new_summary (Path_new [(0, 0); (0, 1); (1, 1)] 2) false ltac:(cbv; lia))
    as (s & Hs & Hst & Hen & _ & Hl).
  exists s. split; [exact Hs|]. rewrite Hst, Hen, Hl. repeat split; reflexivity.
Defined.

(** X10: Reversing a non-empty segment swaps its [start] and [end] and keeps
    its length. *)
Theorem PathSegment_reversed_swaps_ends (s : PathSegment) (a b : Z) (s' : PathSegment) :
  (1 <= seg_len s)%nat -> PathSegment_reversed s a b = Ret s' ->
  seg_start s' = seg_end s /\ seg_end s' = seg_start s /\ seg_len s' = seg_len s.
Proof.
  intros Hl. destruct s as [p | st e c l]; simpl in *; intros H.
  - destruct (Path_reversed p a b) as [p'| |] eqn:E; try discriminate. injection H as <-.
    unfold Path_reversed in E. destruct (usize_sub _ _); try discriminate. injection E as <-.
    unfold path_index, path_len, seg_len in *; simpl in *.
    destruct (is_reversed p); simpl; unfold path_index, path_len; simpl;
      repeat match goal with |- context [Nat.ltb ?a ?b] => destruct (Nat.ltb_spec a b) end;
      try lia; repeat split; try reflexivity; f_equal; lia.
  - destruct (usize_sub _ _); try discriminate. injection H as <-. simpl. auto.
Qed.

Lemma PathSegment_reversed_swaps_ends_witness :
  let s := Known (Path_new [(0, 0); (0, 1)] 5) in
  PathSegment_reversed s 3 7 = Ret (Known (mkPath [(0, 0); (0, 1)] 9 true)) /\
  seg_start (Known (mkPath [(0, 0); (0, 1)] 9 true)) = seg_end s.
Proof.
  simpl. split; [reflexivity|].
  exact (proj1 (PathSegment_reversed_swaps_ends (Known (Path_new [(0, 0); (0, 1)] 5)) 3 7
           (Known (mkPath [(0, 0); (0, 1)] 9 true)) ltac:(cbv; lia) eq_refl)).
Defined.

(*X4*)


Section Collect.
Context {N : Type}.
Variable segs : list (Path Point).
Hypothesis Hsegs : Forall (fun p => (2 <= path_len p)%nat) segs.


Lemma ap_collect_from :
  forall fuel (nb : option N) c e i j,
  (forall p, segs !! i = Some p -> 1 <= j < path_len p)%nat ->
  (collect_count segs i j < fuel)%nat ->
  ap_collect fuel (mkAbstractPath nb c (map Known segs) e (i, j)) = Ret (collect_rest segs i j).
Proof.
  induction fuel as [|fuel IH]; intros nb c e i j Hj Hf; [lia|].
  simpl. unfold ap_next. simpl. rewrite length_map.
  destruct (Nat.leb_spec (length segs) i) as [Hi|Hi].
  - simpl. unfold collect_rest. by rewrite lookup_ge_None_2 by lia.
  - destruct (lookup_lt_is_Some_2 segs i Hi) as [p Hp].
    specialize (Hj p Hp).
    unfold index. rewrite list_lookup_fmap, Hp. simpl.
    destruct (lookup_lt_is_Some_2 (path_points p) j) as [x Hx]; [rewrite length_path_points; lia|].
    rewrite (path_index_lookup p j x Hx). simpl.
    unfold collect_count in Hf. rewrite Hp in Hf.
    destruct (Nat.leb_spec (path_len p) (S j)) as [Hl|Hl]; unfold with_index; simpl.
    + rewrite IH.
      * rewrite bind_Ret_eq. unfold collect_rest. rewrite Hp. rewrite (drop_S _ x j) by exact Hx.
        replace (drop (S j) (path_points p)) with (@nil Point)
          by (symmetry; apply drop_ge; rewrite length_path_points; lia).
        simpl. destruct (segs !! S i) as [q|] eqn:Hq.
        -- rewrite (drop_S _ q (S i)) by exact Hq. simpl. reflexivity.
        -- rewrite drop_ge by (apply lookup_ge_None_1 in Hq; lia). reflexivity.
      * intros q Hq. rewrite Forall_lookup in Hsegs. specialize (Hsegs _ _ Hq). lia.
      * unfold collect_count. destruct (segs !! S i) as [q|] eqn:Hq; [|lia].
        rewrite (drop_S _ q (S i)) in Hf by exact Hq. simpl in Hf.
        rewrite Forall_lookup in Hsegs. specialize (Hsegs _ _ Hq). lia.
    + rewrite IH.
      * rewrite bind_Ret_eq. unfold collect_rest. rewrite Hp. rewrite (drop_S _ x j) by exact Hx. reflexivity.
      * intros q Hq. rewrite Hp in Hq. injection Hq as <-. lia.
      * unfold collect_count. rewrite Hp. lia.
Qed.


End Collect.

(** X11: Iterating an abstract path made of known segments of at least two
    points each, from its initial cursor, yields every segment's points but
    the first, in order; the start point itself is not yielded. *)
Theorem ap_collect_known_segments {N} (nb : option N) (c : Z) (segs : list (Path Point)) (e : Point)
    (fuel : nat) :
  Forall (fun p => (2 <= path_len p)%nat) segs ->
  (sum_list_with path_len segs < fuel)%nat ->
  ap_collect fuel (mkAbstractPath nb c (map Known segs) e (0%nat, 1%nat)) =
  Ret (concat (map (fun p => tail (path_points p)) segs)).
Proof.
  intros Hs Hf. rewrite (ap_collect_from segs Hs).
  - unfold collect_rest. destruct segs as [|p segs]; simpl; [reflexivity|].
    rewrite drop_0. destruct (path_points p); reflexivity.
  - intros p Hp. destruct segs as [|q segs]; [discriminate|]. simpl in Hp. injection Hp as <-.
    inversion Hs; lia.
  - unfold collect_count. destruct segs as [|q segs]; simpl in *; [lia|]. rewrite drop_0. lia.
Qed.

Lemma ap_collect_known_segments_witness :
  ap_collect 10 (mkAbstractPath (None : option ManhattanNeighborhood) 2
                   (map Known [Path_new [(0, 0); (0, 1)] 1; Path_new [(0, 1); (1, 1); (2, 1)] 2])
                   (2, 1) (0%nat, 1%nat)) = Ret [(0, 1); (1, 1); (2, 1)].
Proof.
  exact (ap_collect_known_segments None 2 [Path_new [(0, 0); (0, 1)] 1; Path_new [(0, 1); (1, 1); (2, 1)] 2]
           (2, 1) 10 ltac:(repeat constructor) ltac:(simpl; lia)).
Defined.

(*X6*)


Lemma foldr_cost_snoc l s :
  foldr (fun s acc => seg_cost s + acc) 0 (l ++ [s]) = foldr (fun s acc => seg_cost s + acc) 0 l + seg_cost s.
Proof. induction l as [|x l IH]; simpl; lia. Qed.

(** X12: [new], [from_known_path], [add_path] and [add_path_segment] keep
    [total_cost] equal to the sum of the segments' costs and [end] equal to
    the last segment's end. *)
Theorem abstract_path_builders_consistent {N} (nb : option N) (start : Point) (p : Path Point)
    (seg : PathSegment) (ap ap' : AbstractPathImpl N) :
  ap_consistent (AbstractPath_new nb start) /\
  (AbstractPath_from_known_path nb p = Ret ap' -> ap_consistent ap') /\
  (ap_consistent ap -> add_path ap p = Ret ap' -> ap_consistent ap') /\
  (ap_consistent ap -> add_path_segment ap seg = Ret ap' -> ap_consistent ap').
Proof.
  split; [|split; [|split]].
  - split; [reflexivity|]. intros s [=].
  - unfold AbstractPath_from_known_path. intros H. inv_bind. injection H as <-.
    split; simpl; [lia|]. intros s [= <-]. exact Ha.
  - intros [Hc _]. unfold add_path. intros H. inv_bind. injection H as <-.
    split; simpl.
    + rewrite foldr_cost_snoc. simpl. lia.
    + intros s. rewrite last_snoc. intros [= <-]. exact Ha.
  - intros [Hc _]. unfold add_path_segment. intros H. inv_bind.
    destruct (decide (ap_end ap = a)); [|discriminate]. inv_bind. injection H as <-.
    split; simpl.
    + rewrite foldr_cost_snoc. simpl. lia.
    + intros s. rewrite last_snoc. intros [= <-]. exact Ha0.
Qed.

(*X11*)


Lemma foldl_pres {A B} (P : A -> Prop) (Q : B -> Prop) (f : A -> B -> A) l a :
  Forall Q l -> (forall a b, Q b -> P a -> P (f a b)) -> P a -> P (foldl f a l).
Proof. intros Hl Hf. revert a. induction Hl; simpl; auto. Qed.

Lemma preds_rel_init {K} `{EqDecision K, Countable K} (R : K -> K -> Prop) start :
  preds_rel R start {[start := (0, start)]}.
Proof.
  intros q k p Hq Hne. rewrite lookup_singleton_ne in Hq by congruence. discriminate.
Qed.

Lemma preds_rel_insert {K} `{EqDecision K, Countable K} (R : K -> K -> Prop) start v q k p :
  R p q -> preds_rel R start v -> preds_rel R start (<[q := (k, p)]> v).
Proof.
  intros Hr Hs q' k' p' Hq' Hne. destruct (decide (q' = q)) as [->|Hqq].
  - rewrite lookup_insert_eq in Hq'. by injection Hq' as <- <-.
  - rewrite lookup_insert_ne in Hq' by congruence. eauto.
Qed.

Lemma walk_back_chain {K} `{EqDecision K, Countable K} (R : K -> K -> Prop) (start : K) :
  forall fuel v cur steps res, preds_rel R start v -> chain R (cur :: steps) ->
  walk_back start fuel v cur steps = Ret res ->
  chain R res /\ head res = Some start /\ exists pre, res = pre ++ cur :: steps.
Proof.
  induction fuel as [|fuel IH]; simpl; intros v cur steps res Hv Hw Hwb; [discriminate|].
  destruct (decide (cur = start)) as [->|Hne].
  - injection Hwb as <-. split; [exact Hw|]. split; [reflexivity|]. exists []. reflexivity.
  - inv_bind. destruct a as [k p]. unfold map_index in Ha.
    destruct (v !! cur) as [[k' p']|] eqn:Ev; [|discriminate]. injection Ha as Hk Hp; subst k' p'.
    assert (Hw2 : chain R (p :: cur :: steps)) by (split; [exact (Hv _ _ _ Ev Hne)|exact Hw]).
    destruct (IH _ _ _ _ Hv Hw2 Hwb) as (Hw' & Hh & pre & ->).
    split; [exact Hw'|]. split; [exact Hh|]. exists (pre ++ [p]). by rewrite <- app_assoc.
Qed.

Lemma walk_back_from_goal {K} `{EqDecision K, Countable K} (R : K -> K -> Prop) (start : K)
    fuel v goal res :
  preds_rel R start v -> walk_back start fuel v goal [] = Ret res ->
  head res = Some start /\ last res = Some goal /\ chain R res.
Proof.
  intros Hv Hwb. destruct (walk_back_chain R start _ _ _ [] _ Hv I Hwb) as (Hw & Hh & pre & ->).
  split; [exact Hh|]. split; [apply last_snoc|exact Hw].
Qed.

Section GridWalks.
Context {N : Type} `{!Neighborhood N}.
Variables (nb : N) (valid : Point -> bool) (get_cost : Point -> Z).

Lemma a_star_relax_step start goal c cost st x :
  x ∈ get_all_neighbors nb c -> preds_rel (grid_step nb valid) start st.1 ->
  preds_rel (grid_step nb valid) start (a_star_relax nb valid get_cost goal c cost st x).1.
Proof.
  destruct st as [v next]. simpl. intros Hx Hv. unfold a_star_relax.
  destruct (valid x) eqn:Hval; simpl; [|exact Hv].
  assert (Hins : preds_rel (grid_step nb valid) start (<[x := (cost, c)]> v))
    by (apply preds_rel_insert; [split|]; auto).
  destruct (_ && _); [exact Hv|].
  destruct (v !! x) as [[pc pp]|]; [|exact Hins].
  destruct (cost <? pc); [exact Hins|exact Hv].
Qed.

Lemma a_star_loop_step start goal :
  forall fuel v next v', a_star_loop nb valid get_cost goal fuel v next = Ret v' ->
  preds_rel (grid_step nb valid) start v -> preds_rel (grid_step nb valid) start v'.
Proof.
  induction fuel as [|fuel IH]; simpl; intros v next v' H Hv; [discriminate|].
  destruct (heap_pop _ next) as [[[[cur cc] h] next']|]; [|by injection H as <-].
  destruct (decide (cur = goal)); [by injection H as <-|].
  inv_bind. destruct a as [best prev].
  destruct (Z.ltb_spec best cc); [eauto|].
  destruct (Z.ltb_spec cc best); [discriminate|].
  destruct (Z.ltb_spec (get_cost cur) 0); [eauto|].
  destruct (foldl _ _ _) as [v2 next2] eqn:Ef.
  eapply IH; [exact H|].
  change v2 with (v2, next2).1. rewrite <- Ef.
  apply (foldl_pres (fun st => preds_rel (grid_step nb valid) start st.1)
           (fun x => x ∈ get_all_neighbors nb cur)); [by apply Forall_forall| |exact Hv].
  intros st x Hx Hst. by apply a_star_relax_step.
Qed.

Lemma dijkstra_relax_step start rg c cost st x :
  x ∈ get_all_neighbors nb c -> preds_rel (grid_step nb valid) start st.1 ->
  preds_rel (grid_step nb valid) start (dijkstra_relax valid get_cost rg c cost st x).1.
Proof.
  destruct st as [v next]. simpl. intros Hx Hv. unfold dijkstra_relax.
  destruct (valid x) eqn:Hval; simpl; [|exact Hv].
  assert (Hins : preds_rel (grid_step nb valid) start (<[x := (cost, c)]> v))
    by (apply preds_rel_insert; [split|]; auto).
  destruct (_ && _); [exact Hv|].
  destruct (v !! x) as [[pc pp]|]; [|exact Hins].
  destruct (cost <? pc); [exact Hins|exact Hv].
Qed.

Lemma dijkstra_expand_step start rg c cc v next v' next' :
  dijkstra_expand nb valid get_cost rg c cc v next = Some (v', next') ->
  preds_rel (grid_step nb valid) start v -> preds_rel (grid_step nb valid) start v'.
Proof.
  unfold dijkstra_expand. destruct (_ <? 0); [discriminate|]. intros [= Hf] Hv.
  change v' with (v', next').1. rewrite <- Hf.
  apply (foldl_pres (fun st => preds_rel (grid_step nb valid) start st.1)
           (fun x => x ∈ get_all_neighbors nb c)); [by apply Forall_forall| |exact Hv].
  intros st x Hx Hst. by apply dijkstra_relax_step.
Qed.

Lemma dijkstra_loop_step (start : Point) (G : gset Point) :
  forall fuel oc v next rg gc v' gc',
  dijkstra_loop nb valid get_cost oc fuel v next rg gc = Ret (v', gc') ->
  preds_rel (grid_step nb valid) start v -> rg ⊆ G -> (forall k x, gc !! k = Some x -> k ∈ G) ->
  preds_rel (grid_step nb valid) start v' /\ (forall k x, gc' !! k = Some x -> k ∈ G).
Proof.
  induction fuel as [|fuel IH]; simpl; intros oc v next rg gc v' gc' H Hv Hrg Hgc; [discriminate|].
  destruct (heap_pop _ next) as [[[cur cc] next']|].
  2:{ injection H as <- <-. auto. }
  inv_bind. destruct a as [best prev].
  destruct (Z.ltb_spec best cc); [eauto|].
  destruct (Z.ltb_spec cc best); [discriminate|].
  case_bool_decide as Hin.
  - assert (Hgc' : forall k x, <[cur := cc]> gc !! k = Some x -> k ∈ G).
    { intros k x Hk. destruct (decide (k = cur)) as [->|Hne]; [set_solver|].
      rewrite lookup_insert_ne in Hk by congruence. eauto. }
    destruct (oc || bool_decide (rg ∖ {[cur]} = ∅)).
    + injection H as <- <-. auto.
    + destruct (dijkstra_expand _ _ _ _ _ _ _ _) as [[v2 next2]|] eqn:Ee.
      * eapply IH; [exact H| |set_solver|exact Hgc']. eapply dijkstra_expand_step; eauto.
      * eapply IH; [exact H|exact Hv|set_solver|exact Hgc'].
  - destruct (dijkstra_expand _ _ _ _ _ _ _ _) as [[v2 next2]|] eqn:Ee.
    + eapply IH; [exact H| |exact Hrg|exact Hgc]. eapply dijkstra_expand_step; eauto.
    + eapply IH; [exact H|exact Hv|exact Hrg|exact Hgc].
Qed.

Lemma dijkstra_loop_closest :
  forall fuel v next rg v' gc',
  dijkstra_loop nb valid get_cost true fuel v next rg ∅ = Ret (v', gc') ->
  forall k1 k2 x1 x2, gc' !! k1 = Some x1 -> gc' !! k2 = Some x2 -> k1 = k2.
Proof.
  induction fuel as [|fuel IH]; simpl; intros v next rg v' gc' H; [discriminate|].
  destruct (heap_pop _ next) as [[[cur cc] next']|].
  2:{ injection H as <- <-. intros k1 k2 x1 x2 Hk1. discriminate. }
  inv_bind. destruct a as [best prev].
  destruct (Z.ltb_spec best cc); [eauto|].
  destruct (Z.ltb_spec cc best); [discriminate|].
  case_bool_decide as Hin.
  - simpl in H. injection H as <- <-. intros k1 k2 x1 x2 Hk1 Hk2.
    destruct (decide (k1 = cur)) as [->|Hne1]; [|rewrite lookup_insert_ne in Hk1 by congruence; discriminate].
    destruct (decide (k2 = cur)) as [->|Hne2]; [|rewrite lookup_insert_ne in Hk2 by congruence; discriminate].
    reflexivity.
  - destruct (dijkstra_expand _ _ _ _ _ _ _ _) as [[v2 next2]|]; eauto.
Qed.

End GridWalks.

(** Building the result map of a search from its goal costs. *)
Lemma search_results {K} `{EqDecision K, Countable K} (R : K -> K -> Prop) (start : K) fuel v
    (gcs : gmap K Z) (m : gmap K (Path K)) :
  preds_rel R start v ->
  foldl (fun acc gc =>
           m ← acc;
           steps ← walk_back start fuel v gc.1 [];
           Ret (<[gc.1 := Path_new steps gc.2]> m))
    (Ret ∅) (map_to_list gcs) = Ret m ->
  forall g p, m !! g = Some p -> is_Some (gcs !! g) /\ head (path_buf p) = Some start /\
    last (path_buf p) = Some g /\ chain R (path_buf p).
Proof.
  intros Hv. apply (foldl_holds_Forall
      (fun m : gmap K (Path K) => forall g p, m !! g = Some p -> is_Some (gcs !! g) /\
         head (path_buf p) = Some start /\ last (path_buf p) = Some g /\ chain R (path_buf p))
      (fun kc => gcs !! kc.1 = Some kc.2)).
  - apply Forall_forall. intros [k c] Hkc. by apply elem_of_map_to_list in Hkc.
  - intros acc [k c] Hkc Hacc r Hr. simpl in Hkc. destruct acc as [a| |]; simpl in Hr; try discriminate.
    inv_bind. injection Hr as <-. intros g p Hg. destruct (decide (g = k)) as [->|Hne].
    + rewrite lookup_insert_eq in Hg. injection Hg as <-. simpl.
      destruct (walk_back_from_goal R start _ _ _ _ Hv Ha) as (Hh & Hl & Hw). eauto.
    + rewrite lookup_insert_ne in Hg by congruence. eapply Hacc; eauto.
  - intros r [= <-] g p Hg. discriminate.
Qed.

(** X13: A path found by grid A* between two distinct points starts at
    [start], ends at [goal], and each step moves to a neighbour that
    [is_valid] accepts. *)
Theorem a_star_search_walk {N} `{!Neighborhood N} (nb : N) (valid : Point -> bool)
    (get_cost : Point -> Z) (fuel : nat) (start goal : Point) (p : Path Point) :
  start <> goal -> a_star_search nb valid get_cost fuel start goal = Ret (Some p) ->
  head (path_buf p) = Some start /\ last (path_buf p) = Some goal /\
  chain (grid_step nb valid) (path_buf p).
Proof.
  intros Hne. unfold a_star_search.
  destruct (get_cost start <? 0); [discriminate|].
  destruct (decide (start = goal)); [contradiction|].
  intros H. inv_bind. destruct (a !! goal) as [[gc gp]|]; [|discriminate]. inv_bind.
  injection H as <-. simpl.
  eapply walk_back_from_goal; [|exact Ha0].
  eapply a_star_loop_step; [exact Ha|apply preds_rel_init].
Qed.

Lemma a_star_search_walk_witness :
  exists p, a_star_search nb_doc walkable_doc cost_doc 100 (0, 0) (4, 4) = Ret (Some p) /\
    head (path_buf p) = Some (0, 0) /\ last (path_buf p) = Some (4, 4) /\
    chain (grid_step nb_doc walkable_doc) (path_buf p).
Proof.
  destruct (a_star_search nb_doc walkable_doc cost_doc 100 (0, 0) (4, 4)) as [[p|]| |] eqn:E;
    try (vm_compute in E; discriminate E).
  exists p. split; [reflexivity|].
  exact (a_star_search_walk nb_doc walkable_doc cost_doc 100 (0, 0) (4, 4) p ltac:(discriminate) E).
Defined.

(** X14: Every path in the result of grid Dijkstra is for a requested goal,
    starts at [start], ends at that goal and steps to valid neighbours;
    with [only_closest_goal] the result has at most one entry. *)
Theorem dijkstra_search_walks {N} `{!Neighborhood N} (nb : N) (valid : Point -> bool)
    (get_cost : Point -> Z) (fuel : nat) (start : Point) (goals : list Point) (oc : bool)
    (m : gmap Point (Path Point)) :
  dijkstra_search nb valid get_cost fuel start goals oc = Ret m ->
  (forall g p, m !! g = Some p ->
     g ∈ goals /\ head (path_buf p) = Some start /\ last (path_buf p) = Some g /\
     chain (grid_step nb valid) (path_buf p)) /\
  (oc = true -> forall g1 g2 p1 p2, m !! g1 = Some p1 -> m !! g2 = Some p2 -> g1 = g2).
Proof.
  unfold dijkstra_search. intros H. inv_bind. destruct a as [v gcs].
  destruct (dijkstra_loop_step nb valid get_cost start (list_to_set goals) _ _ _ _ _ _ _ _ Ha
              (preds_rel_init _ start) ltac:(set_solver) ltac:(intros ? ? [=]))
    as [Hv Hk].
  pose proof (search_results _ start _ _ _ _ Hv H) as Hm.
  split.
  - intros g p Hg. destruct (Hm g p Hg) as ([c Hc] & Hrest). split; [|exact Hrest].
    apply (elem_of_list_to_set (C := gset Point)). eapply Hk; eauto.
  - intros -> g1 g2 p1 p2 H1 H2.
    destruct (Hm g1 p1 H1) as ([c1 Hc1] & _). destruct (Hm g2 p2 H2) as ([c2 Hc2] & _).
    eapply dijkstra_loop_closest; eauto.
Qed.

Lemma dijkstra_search_walks_witness :
  exists m, dijkstra_search nb_doc walkable_doc cost_doc 100 (0, 0) [(4, 4); (2, 0)] false = Ret m /\
    (forall g p, m !! g = Some p ->
       g ∈ [(4, 4); (2, 0)] /\ head (path_buf p) = Some (0, 0) /\ last (path_buf p) = Some g /\
       chain (grid_step nb_doc walkable_doc) (path_buf p)) /\
    is_Some (m !! (4, 4)).
Proof.
  destruct (dijkstra_search nb_doc walkable_doc cost_doc 100 (0, 0) [(4, 4); (2, 0)] false) as [m| |] eqn:E;
    try (vm_compute in E; discriminate E).
  exists m. split; [reflexivity|]. split.
  - exact (proj1 (dijkstra_search_walks nb_doc walkable_doc cost_doc 100 (0, 0) [(4, 4); (2, 0)] false m E)).
  - vm_compute in E. injection E as <-. vm_compute. eauto.
Defined.

Section GraphWalks.
Context {N : Type} `{!Neighborhood N}.
Variables (nodes : NodeList) (nb : N).

Lemma graph_relax_step start cid current cc acc e :
  nl_get nodes cid = Ret current -> edges current !! e.1 = Some e.2 ->
  holds (fun st => preds_rel (graph_step nodes) start st.1) acc ->
  holds (fun st => preds_rel (graph_step nodes) start st.1) (graph_relax nodes nb cid current cc acc e).
Proof.
  intros Hc He Hacc r Hr. destruct e as [oid path]. simpl in He. unfold graph_relax in Hr.
  destruct acc as [[v next]| |]; simpl in Hr; try discriminate.
  specialize (Hacc _ eq_refl). simpl in Hacc. inv_bind.
  assert (Hins : forall k, preds_rel (graph_step nodes) start (<[oid := (k, cid)]> v)).
  { intros k. apply preds_rel_insert; [|exact Hacc]. exists current. split; [exact Hc|]. rewrite He. eauto. }
  destruct (v !! oid) as [[pc pp]|].
  - destruct (_ <? pc); injection Hr as <-; [apply Hins|exact Hacc].
  - injection Hr as <-. apply Hins.
Qed.

Lemma graph_edges_fold_step start cid current cc acc :
  nl_get nodes cid = Ret current ->
  holds (fun st => preds_rel (graph_step nodes) start st.1) acc ->
  holds (fun st => preds_rel (graph_step nodes) start st.1)
    (foldl (graph_relax nodes nb cid current cc) acc (map_to_list (edges current))).
Proof.
  intros Hc. apply (foldl_holds_Forall _ (fun e => edges current !! e.1 = Some e.2)).
  - apply Forall_forall. intros [k s] Hk. by apply elem_of_map_to_list in Hk.
  - intros acc' e He Hacc. by apply graph_relax_step.
Qed.

Lemma graph_a_star_loop_step start goal :
  forall fuel v next v', graph_a_star_loop nodes nb goal fuel v next = Ret v' ->
  preds_rel (graph_step nodes) start v -> preds_rel (graph_step nodes) start v'.
Proof.
  induction fuel as [|fuel IH]; simpl; intros v next v' H Hv; [discriminate|].
  destruct (heap_pop _ next) as [[[[cur cc] h] next']|]; [|by injection H as <-].
  destruct (decide (cur = goal)); [by injection H as <-|].
  inv_bind. destruct a as [best prev].
  destruct (Z.ltb_spec best cc); [eauto|].
  destruct (Z.ltb_spec cc best); [discriminate|].
  inv_bind. destruct a0 as [v2 next2]. eapply IH; [exact H|].
  apply (graph_edges_fold_step start cur a cc (Ret (v, next')) Ha0 (holds_Ret _ (v, next') Hv) _ Ha1).
Qed.

Lemma graph_dijkstra_loop_step (start : NodeID) (G : gset NodeID) :
  forall fuel oc v next rg gc v' gc',
  graph_dijkstra_loop nodes oc fuel v next rg gc = Ret (v', gc') ->
  preds_rel (graph_step nodes) start v -> rg ⊆ G -> (forall k x, gc !! k = Some x -> k ∈ G) ->
  preds_rel (graph_step nodes) start v' /\ (forall k x, gc' !! k = Some x -> k ∈ G).
Proof.
  induction fuel as [|fuel IH]; simpl; intros oc v next rg gc v' gc' H Hv Hrg Hgc; [discriminate|].
  destruct (heap_pop _ next) as [[[cur cc] next']|].
  2:{ injection H as <- <-. auto. }
  inv_bind. destruct a as [best prev].
  destruct (Z.ltb_spec best cc); [eauto|].
  destruct (Z.ltb_spec cc best); [discriminate|].
  assert (Hgc' : forall k x, (if bool_decide (cur ∈ rg) then <[cur := cc]> gc else gc) !! k = Some x -> k ∈ G).
  { case_bool_decide; [|exact Hgc]. intros k x Hk. destruct (decide (k = cur)) as [->|Hne]; [set_solver|].
    rewrite lookup_insert_ne in Hk by congruence. eauto. }
  destruct (_ && _).
  - injection H as <- <-. auto.
  - inv_bind. destruct (foldl _ _ _) as [v2 next2] eqn:Ef.
    eapply IH; [exact H| |set_solver|exact Hgc'].
    change v2 with (v2, next2).1. rewrite <- Ef.
    apply (foldl_pres (fun st => preds_rel (graph_step nodes) start st.1)
             (fun e => edges a !! e.1 = Some e.2)); [|intros [vis nx] [oid path] He Hst; simpl in *|exact Hv].
    + apply Forall_forall. intros [k s] Hk. by apply elem_of_map_to_list in Hk.
    + assert (Hins : preds_rel (graph_step nodes) start (<[oid := (cc + seg_cost path, cur)]> vis)).
      { apply preds_rel_insert; [|exact Hst]. exists a. split; [exact Ha0|]. rewrite He. eauto. }
      destruct (vis !! oid) as [[pc pp]|]; [destruct (_ <? pc)|]; simpl; auto.
Qed.

Lemma graph_dijkstra_loop_closest :
  forall fuel v next rg v' gc',
  graph_dijkstra_loop nodes true fuel v next rg ∅ = Ret (v', gc') ->
  forall k1 k2 x1 x2, gc' !! k1 = Some x1 -> gc' !! k2 = Some x2 -> k1 = k2.
Proof.
  induction fuel as [|fuel IH]; simpl; intros v next rg v' gc' H; [discriminate|].
  destruct (heap_pop _ next) as [[[cur cc] next']|].
  2:{ injection H as <- <-. intros k1 k2 x1 x2 Hk1. discriminate. }
  inv_bind. destruct a as [best prev].
  destruct (Z.ltb_spec best cc); [eauto|].
  destruct (Z.ltb_spec cc best); [discriminate|].
  case_bool_decide as Hin; simpl in H.
  - injection H as <- <-. intros k1 k2 x1 x2 Hk1 Hk2.
    destruct (decide (k1 = cur)) as [->|Hne1]; [|rewrite lookup_insert_ne in Hk1 by congruence; discriminate].
    destruct (decide (k2 = cur)) as [->|Hne2]; [|rewrite lookup_insert_ne in Hk2 by congruence; discriminate].
    reflexivity.
  - inv_bind. destruct (foldl _ _ _) as [v2 next2]. eauto.
Qed.

End GraphWalks.

(** X15: A path found by graph A* between two distinct nodes starts at
    [start], ends at [goal], and follows edges of the node list. *)
Theorem graph_a_star_search_walk {N} `{!Neighborhood N} (nodes : NodeList) (nb : N) (fuel : nat)
    (start goal : NodeID) (p : Path NodeID) :
  start <> goal -> graph_a_star_search nodes nb fuel start goal = Ret (Some p) ->
  head (path_buf p) = Some start /\ last (path_buf p) = Some goal /\
  chain (graph_step nodes) (path_buf p).
Proof.
  intros Hne. unfold graph_a_star_search.
  destruct (decide (start = goal)); [contradiction|].
  intros H. inv_bind. destruct (a !! goal) as [[gc gp]|]; [|discriminate]. inv_bind.
  injection H as <-. simpl.
  eapply walk_back_from_goal; [|exact Ha0].
  eapply graph_a_star_loop_step; [exact Ha|apply preds_rel_init].
Qed.

Lemma graph_a_star_search_walk_witness :
  exists p, graph_a_star_search nl_demo_linked nb_doc 100 0 1 = Ret (Some p) /\
    head (path_buf p) = Some 0%nat /\ last (path_buf p) = Some 1%nat /\
    chain (graph_step nl_demo_linked) (path_buf p).
Proof.
  destruct (graph_a_star_search nl_demo_linked nb_doc 100 0 1) as [[p|]| |] eqn:E;
    try (vm_compute in E; discriminate E).
  exists p. split; [reflexivity|].
  exact (graph_a_star_search_walk nl_demo_linked nb_doc 100 0 1 p ltac:(discriminate) E).
Defined.

(** X16: Every path in the result of graph Dijkstra is for a requested goal,
    starts at [start], ends at that goal and follows edges of the node
    list; with [only_closest_goal] the result has at most one entry. *)
Theorem graph_dijkstra_search_walks (nodes : NodeList) (fuel : nat) (start : NodeID)
    (goals : list NodeID) (oc : bool) (m : gmap NodeID (Path NodeID)) :
  graph_dijkstra_search nodes fuel start goals oc = Ret m ->
  (forall g p, m !! g = Some p ->
     g ∈ goals /\ head (path_buf p) = Some start /\ last (path_buf p) = Some g /\
     chain (graph_step nodes) (path_buf p)) /\
  (oc = true -> forall g1 g2 p1 p2, m !! g1 = Some p1 -> m !! g2 = Some p2 -> g1 = g2).
Proof.
  unfold graph_dijkstra_search. intros H. inv_bind. destruct a as [v gcs].
  destruct (graph_dijkstra_loop_step nodes start (list_to_set goals) _ _ _ _ _ _ _ _ Ha
              (preds_rel_init _ start) ltac:(set_solver) ltac:(intros ? ? [=]))
    as [Hv Hk].
  pose proof (search_results _ start _ _ _ _ Hv H) as Hm.
  split.
  - intros g p Hg. destruct (Hm g p Hg) as ([c Hc] & Hrest). split; [|exact Hrest].
    apply (elem_of_list_to_set (C := gset NodeID)). eapply Hk; eauto.
  - intros -> g1 g2 p1 p2 H1 H2.
    destruct (Hm g1 p1 H1) as ([c1 Hc1] & _). destruct (Hm g2 p2 H2) as ([c2 Hc2] & _).
    eapply graph_dijkstra_loop_closest; eauto.
Qed.

Lemma graph_dijkstra_search_walks_witness :
  exists m, graph_dijkstra_search nl_demo_linked 100 0 [1%nat] true = Ret m /\
    (forall g p, m !! g = Some p ->
       g ∈ [1%nat] /\ head (path_buf p) = Some 0%nat /\ last (path_buf p) = Some g /\
       chain (graph_step nl_demo_linked) (path_buf p)) /\
    is_Some (m !! 1%nat).
Proof.
  destruct (graph_dijkstra_search nl_demo_linked 100 0 [1%nat] true) as [m| |] eqn:E;
    try (vm_compute in E; discriminate E).
  exists m. split; [reflexivity|]. split.
  - exact (proj1 (graph_dijkstra_search_walks nl_demo_linked 100 0 [1%nat] true m E)).
  - vm_compute in E. injection E as <-. vm_compute. eauto.
Defined.

Lemma chain_grid_valid {N} `{!Neighborhood N} (nb : N) (valid : Point -> bool) l s :
  chain (grid_step nb valid) l -> head l = Some s -> valid s = true -> Forall (fun q => valid q = true) l.
Proof.
  revert s. induction l as [|a l IH]; intros s Hc Hh Hs; [constructor|].
  simpl in Hh. injection Hh as ->. constructor; [exact Hs|].
  destruct l as [|b l]; [constructor|]. destruct Hc as [[_ Hb] Hc]. eapply IH; eauto.
Qed.

(** X17: A path found by [Chunk::find_path] runs from [start] to [goal] and
    never leaves the chunk. *)
Theorem chunk_find_path_in_chunk {N} `{!Neighborhood N} (fuel : nat) (c : Chunk) (start goal : Point)
    (get_cost : Point -> Z) (nb : N) (p : Path Point) :
  chunk_find_path fuel c start goal get_cost nb = Ret (Some p) ->
  head (path_buf p) = Some start /\ last (path_buf p) = Some goal /\
  Forall (fun q => in_chunk c q = true) (path_buf p).
Proof.
  unfold chunk_find_path. destruct (in_chunk c start) eqn:Hs; simpl; [|discriminate].
  destruct (in_chunk c goal) eqn:Hg; simpl; [|discriminate]. intros H.
  destruct (decide (start = goal)) as [<-|Hne].
  - unfold a_star_search in H. destruct (get_cost start <? 0); [discriminate|].
    rewrite decide_True in H by reflexivity. injection H as <-. simpl. auto.
  - unfold a_star_search in H. destruct (get_cost start <? 0); [discriminate|].
    rewrite decide_False in H by exact Hne. inv_bind.
    destruct (a !! goal) as [[gc gp]|]; [|discriminate]. inv_bind. injection H as <-. simpl.
    destruct (walk_back_from_goal (grid_step nb (in_chunk c)) start _ _ _ _
                (a_star_loop_step nb (in_chunk c) get_cost start goal _ _ _ _ Ha (preds_rel_init _ start)) Ha0)
      as (Hh & Hl & Hw).
    split; [exact Hh|]. split; [exact Hl|]. eapply chain_grid_valid; eauto.
Qed.

Lemma chunk_find_path_in_chunk_witness :
  exists p, chunk_find_path 100 (mkChunk (0, 0) (3, 3) ∅ (fun _ => false)) (0, 0) (2, 2) cost_doc nb_doc
              = Ret (Some p) /\
    head (path_buf p) = Some (0, 0) /\ last (path_buf p) = Some (2, 2) /\
    Forall (fun q => in_chunk (mkChunk (0, 0) (3, 3) ∅ (fun _ => false)) q = true) (path_buf p).
Proof.
  destruct (chunk_find_path 100 (mkChunk (0, 0) (3, 3) ∅ (fun _ => false)) (0, 0) (2, 2) cost_doc nb_doc)
    as [[p|]| |] eqn:E; try (vm_compute in E; discriminate E).
  exists p. split; [reflexivity|].
  exact (chunk_find_path_in_chunk 100 _ (0, 0) (2, 2) cost_doc nb_doc p E).
Defined.

(** X18: Every path found by [Chunk::find_paths] is for a requested goal,
    runs from [start] to that goal and never leaves the chunk. *)
Theorem chunk_find_paths_in_chunk {N} `{!Neighborhood N} (fuel : nat) (c : Chunk) (start : Point)
    (goals : list Point) (get_cost : Point -> Z) (nb : N) (m : gmap Point (Path Point)) :
  chunk_find_paths fuel c start goals get_cost nb = Ret m ->
  forall g p, m !! g = Some p ->
    g ∈ goals /\ head (path_buf p) = Some start /\ last (path_buf p) = Some g /\
    Forall (fun q => in_chunk c q = true) (path_buf p).
Proof.
  unfold chunk_find_paths. destruct (in_chunk c start) eqn:Hs; simpl.
  - unfold dijkstra_search. intros H. inv_bind. destruct a as [v gcs].
    destruct (dijkstra_loop_step nb (in_chunk c) get_cost start (list_to_set goals) _ _ _ _ _ _ _ _ Ha
                (preds_rel_init _ start) ltac:(set_solver) ltac:(intros ? ? [=]))
      as [Hv Hk].
    intros g p Hg. destruct (search_results _ start _ _ _ _ Hv H g p Hg) as ([x Hx] & Hh & Hl & Hc).
    split; [apply (elem_of_list_to_set (C := gset Point)); eapply Hk; eauto|].
    split; [exact Hh|]. split; [exact Hl|]. eapply chain_grid_valid; eauto.
  - intros [= <-] g p Hg. discriminate.
Qed.

Lemma chunk_find_paths_in_chunk_witness :
  exists m, chunk_find_paths 100 (mkChunk (0, 0) (3, 3) ∅ (fun _ => false)) (0, 0) [(2, 2); (0, 2)]
              cost_doc nb_doc = Ret m /\
    (forall g p, m !! g = Some p ->
       g ∈ [(2, 2); (0, 2)] /\ head (path_buf p) = Some (0, 0) /\ last (path_buf p) = Some g /\
       Forall (fun q => in_chunk (mkChunk (0, 0) (3, 3) ∅ (fun _ => false)) q = true) (path_buf p)) /\
    is_Some (m !! (2, 2)).
Proof.
  destruct (chunk_find_paths 100 (mkChunk (0, 0) (3, 3) ∅ (fun _ => false)) (0, 0) [(2, 2); (0, 2)]
              cost_doc nb_doc) as [m| |] eqn:E; try (vm_compute in E; discriminate E).
  exists m. split; [reflexivity|]. split.
  - exact (chunk_find_paths_in_chunk 100 _ (0, 0) [(2, 2); (0, 2)] cost_doc nb_doc m E).
  - vm_compute in E. injection E as <-. vm_compute. eauto.
Defined.

(*X13*)


Lemma slab_insert_spec {T} (s : Slab T) v k s' :
  slab_wf s -> slab_insert s v = (k, s') ->
  slab_entries s !! k = None /\ slab_entries s' = <[k := v]> (slab_entries s) /\ slab_wf s'.
Proof.
  intros (Hk & Hv & Hnd). unfold slab_insert. destruct (slab_vacant s) as [|k0 rest] eqn:Ev.
  - intros [= <- <-]. simpl. split.
    + destruct (slab_entries s !! slab_len s) as [x|] eqn:E; [|reflexivity].
      apply Hk in E. lia.
    + split; [reflexivity|]. split; [|split; [intros k' Hk'; set_solver|constructor]].
      intros k' v' Hk'. simpl in *. destruct (decide (k' = slab_len s)) as [->|Hne]; [lia|].
      rewrite lookup_insert_ne in Hk' by congruence. apply Hk in Hk'. lia.
  - intros [= <- <-]. simpl.
    assert (H0 : k0 ∈ k0 :: rest) by left.
    destruct (Hv _ H0) as [Hlt Hnone]. split; [exact Hnone|]. split; [reflexivity|].
    apply NoDup_cons in Hnd as [Hnin Hnd].
    split; [|split; [|exact Hnd]].
    + intros k' v' Hk'. simpl in *. destruct (decide (k' = k0)) as [->|Hne]; [exact Hlt|].
      rewrite lookup_insert_ne in Hk' by congruence. eauto.
    + intros k' Hk'. simpl in *. assert (Hk'' : k' ∈ k0 :: rest) by (right; exact Hk').
      destruct (Hv _ Hk'') as [Hl Hn]. split; [exact Hl|].
      rewrite lookup_insert_ne by (intros ->; contradiction). exact Hn.
Qed.

Lemma nl_remove_fold (id : NodeID) :
  forall (L : list NodeID) (e : gmap nat Node) vac len pm,
  Forall (fun x => is_Some (e !! x)) L ->
  exists e',
    foldl (fun acc other_id =>
             l ← acc;
             other ← nl_get l other_id;
             Ret (nl_set l other_id (set_edges other (delete id (edges other)))))
      (Ret (mkNodeList (mkSlab e vac len) pm)) L = Ret (mkNodeList (mkSlab e' vac len) pm) /\
    forall x, e' !! x =
      (fun n => if bool_decide (x ∈ L) then set_edges n (delete id (edges n)) else n) <$> e !! x.
Proof.
  induction L as [|y L IH]; intros e vac len pm HL.
  - exists e. split; [reflexivity|]. intros x. destruct (e !! x); reflexivity.
  - inversion HL as [|? ? [ny Hy] HL']; subst. simpl.
    assert (Hg : nl_get (mkNodeList (mkSlab e vac len) pm) y = Ret ny)
      by (unfold nl_get; simpl; by rewrite Hy).
    rewrite Hg, bind_Ret_eq. unfold nl_set at 2. simpl.
    destruct (IH (<[y := set_edges ny (delete id (edges ny))]> e) vac len pm) as (e' & Hf & He').
    { apply Forall_forall. intros x Hx. rewrite Forall_forall in HL'.
      destruct (decide (x = y)) as [->|Hne]; [rewrite lookup_insert_eq; eauto|].
      rewrite lookup_insert_ne by congruence. by apply HL'. }
    exists e'. split; [exact Hf|]. intros x. rewrite He'.
    destruct (decide (x = y)) as [->|Hne].
    + rewrite lookup_insert_eq, Hy. unfold fmap, option_fmap, option_map.
      rewrite (bool_decide_eq_true_2 (y ∈ y :: L)) by set_solver.
      case_bool_decide; [|reflexivity]. unfold set_edges. simpl. by rewrite delete_delete_eq.
    + rewrite lookup_insert_ne by congruence. destruct (e !! x); [|reflexivity].
      unfold fmap, option_fmap, option_map. f_equal. case_bool_decide; case_bool_decide; set_solver.
Qed.

Lemma set_edges_same n : set_edges n (edges n) = n.
Proof. by destruct n. Qed.

Lemma nl_add_node_facts (l : NodeList) (pos : Point) (c : Z) (id : NodeID) (l' : NodeList) :
  nl_ok l -> nl_add_node l pos c = (id, l') ->
  (exists msg, nl_get l id = Panic msg) /\ nl_get l' id = Ret (Node_new pos c) /\
  (forall x, x <> id -> nl_get l' x = nl_get l x) /\ nl_id_at l' pos = Some id /\ nl_ok l'.
Proof.
  intros [Hwf Hsym]. unfold nl_add_node.
  destruct (slab_insert (nl_nodes l) (Node_new pos c)) as [k s'] eqn:Ei. intros [= <- <-].
  destruct (slab_insert_spec _ _ _ _ Hwf Ei) as (Hfresh & He & Hwf').
  unfold nl_get, nl_id_at. simpl. rewrite Hfresh, He. split; [eauto|].
  rewrite lookup_insert_eq. split; [reflexivity|].
  split; [intros x Hx; by rewrite lookup_insert_ne by congruence|].
  split; [apply lookup_insert_eq|]. split; [exact Hwf'|].
  intros a na b Ha Hb. simpl in Ha |- *. rewrite He in Ha |- *.
  destruct (decide (a = k)) as [->|Hak].
  - rewrite lookup_insert_eq in Ha. injection Ha as <-. simpl in Hb. rewrite lookup_empty in Hb.
    by destruct Hb.
  - rewrite lookup_insert_ne in Ha by congruence.
    destruct (Hsym _ _ _ Ha Hb) as (Hab & nb & Hnb & Hba). split; [exact Hab|].
    exists nb. split; [|exact Hba]. rewrite lookup_insert_ne; [exact Hnb|].
    intros ->. congruence.
Qed.

Lemma nl_remove_node_facts (l : NodeList) (id : NodeID) (n : Node) :
  nl_ok l -> nl_get l id = Ret n ->
  exists l', nl_remove_node l id = Ret l' /\
    (exists msg, nl_get l' id = Panic msg) /\ nl_id_at l' (node_pos n) = None /\
    (forall x nx, x <> id -> nl_get l x = Ret nx ->
       exists nx', nl_get l' x = Ret nx' /\ node_pos nx' = node_pos nx /\
         walk_cost nx' = walk_cost nx /\ edges nx' = delete id (edges nx)) /\
    (forall x nx, nl_get l' x = Ret nx -> edges nx !! id = None) /\
    nl_ok l'.
Proof.
  intros [Hwf Hsym] Hn. unfold nl_get in Hn.
  destruct (slab_entries (nl_nodes l) !! id) as [n0|] eqn:Eid; [|discriminate]. injection Hn as ->.
  destruct l as [[e vac len] pm]. unfold nl_sym, edges_sym in Hsym. simpl in *.
  set (L := map fst (map_to_list (edges n))).
  assert (HL : Forall (fun x => is_Some (delete id e !! x)) L).
  { apply Forall_forall. intros x Hx. apply list_elem_of_fmap in Hx as ([x' s] & -> & Hx).
    apply elem_of_map_to_list in Hx. simpl.
    destruct (Hsym _ _ _ Eid ltac:(eauto)) as (Hne & nx & Hnx & _).
    rewrite lookup_delete_ne by congruence. eauto. }
  destruct (nl_remove_fold id L (delete id e) (id :: vac) len pm HL) as (e' & Hf & He').
  unfold nl_remove_node, slab_remove. simpl. rewrite Eid. simpl.
  change (map fst (map_to_list (edges n))) with L. rewrite Hf. simpl.
  eexists; split; [reflexivity|].
  (* the nodes other than [id] *)
  assert (Hothers : forall x nx, x <> id -> e !! x = Some nx ->
            e' !! x = Some (set_edges nx (delete id (edges nx)))).
  { intros x nx Hx Hnx. rewrite He', lookup_delete_ne, Hnx by congruence. simpl.
    case_bool_decide as HxL; [reflexivity|]. f_equal.
    assert (Hnone : edges nx !! id = None).
    { destruct (edges nx !! id) eqn:E; [|reflexivity]. exfalso. apply HxL.
      destruct (Hsym _ _ _ Hnx ltac:(rewrite E; eauto)) as (_ & n1 & Hn1 & Hback).
      rewrite Eid in Hn1. injection Hn1 as <-. destruct Hback as [s Hs].
      apply list_elem_of_fmap. exists (x, s). split; [reflexivity|]. by apply elem_of_map_to_list. }
    rewrite delete_id by exact Hnone. by rewrite set_edges_same. }
  assert (Hid : e' !! id = None) by (rewrite He', lookup_delete_eq; reflexivity).
  assert (Hdom : forall x n', e' !! x = Some n' -> x <> id /\ exists nx, e !! x = Some nx /\ n' = set_edges nx (delete id (edges nx))).
  { intros x n' Hx. destruct (decide (x = id)) as [->|Hne]; [congruence|]. split; [exact Hne|].
    rewrite He', lookup_delete_ne in Hx by congruence.
    destruct (e !! x) as [nx|] eqn:Ex; [|discriminate]. exists nx. split; [reflexivity|].
    pose proof (Hothers x nx Hne Ex) as Ho. rewrite He', lookup_delete_ne, Ex in Ho by congruence.
    rewrite Hx in Ho. by injection Ho as ->. }
  unfold nl_get, nl_id_at. simpl. rewrite Hid. split; [eauto|].
  split; [apply lookup_delete_eq|].
  split.
  { intros x nx Hx Hnx. destruct (e !! x) as [nx0|] eqn:Ex; [|discriminate]. injection Hnx as ->.
    rewrite (Hothers x nx Hx Ex). eexists; split; [reflexivity|]. simpl. auto. }
  split.
  { intros x nx Hx. destruct (e' !! x) as [n'|] eqn:Ex; [|discriminate]. injection Hx as <-.
    destruct (Hdom x n' Ex) as (_ & nx & _ & ->). simpl. apply lookup_delete_eq. }
  destruct Hwf as (Hk & Hv & Hnd). simpl in Hk, Hv, Hnd. split; [split; [|split]|].
  - intros k v Hkv. simpl. destruct (Hdom k v Hkv) as (_ & nx & Hnx & _). eauto.
  - simpl. intros k Hk'. apply elem_of_cons in Hk' as [->|Hk'].
    + split; [eauto|exact Hid].
    + destruct (Hv k Hk') as [Hl Hnone]. split; [exact Hl|].
      destruct (e' !! k) as [n'|] eqn:E; [|reflexivity].
      destruct (Hdom k n' E) as (_ & nx & Hnx & _). congruence.
  - simpl. constructor; [|exact Hnd]. intros Hin. destruct (Hv id Hin) as [_ Hnone]. congruence.
  - intros a na b Ha Hb. simpl in Ha |- *.
    destruct (Hdom a na Ha) as (Hai & nx & Hnx & ->). simpl in Hb.
    destruct (decide (b = id)) as [->|Hbi]; [rewrite lookup_delete_eq in Hb; by destruct Hb|].
    rewrite lookup_delete_ne in Hb by congruence.
    destruct (Hsym _ _ _ Hnx Hb) as (Hab & nb & Hnb & Hba). split; [exact Hab|].
    exists (set_edges nb (delete id (edges nb))). split; [exact (Hothers b nb Hbi Hnb)|].
    simpl. rewrite lookup_delete_ne by congruence. exact Hba.
Qed.

Lemma slab_wf_update {T} (s : Slab T) k v v0 :
  slab_wf s -> slab_entries s !! k = Some v0 ->
  slab_wf (mkSlab (<[k := v]> (slab_entries s)) (slab_vacant s) (slab_len s)).
Proof.
  intros (Hk & Hv & Hnd) Hk0. split; [|split; [|exact Hnd]]; simpl.
  - intros k' v' Hk'. destruct (decide (k' = k)) as [->|Hne]; [eauto|].
    rewrite lookup_insert_ne in Hk' by congruence. eauto.
  - intros k' Hk'. destruct (Hv _ Hk') as [Hl Hn]. split; [exact Hl|].
    rewrite lookup_insert_ne; [exact Hn|]. intros ->. congruence.
Qed.

Lemma edges_sym_add_pair e a b na nb s1 s2 :
  a <> b -> e !! a = Some na -> e !! b = Some nb -> edges_sym e ->
  edges_sym (<[a := set_edges na (<[b := s1]> (edges na))]>
               (<[b := set_edges nb (<[a := s2]> (edges nb))]> e)).
Proof.
  intros Hab Ha Hb Hs.
  set (na' := set_edges na (<[b := s1]> (edges na))).
  set (nb' := set_edges nb (<[a := s2]> (edges nb))).
  intros x nx y Hx Hy.
  assert (Ha' : <[a := na']> (<[b := nb']> e) !! a = Some na') by apply lookup_insert_eq.
  assert (Hb' : <[a := na']> (<[b := nb']> e) !! b = Some nb')
    by (rewrite lookup_insert_ne by congruence; apply lookup_insert_eq).
  assert (Hab' : is_Some (edges na' !! b)) by (simpl; rewrite lookup_insert_eq; eauto).
  assert (Hba' : is_Some (edges nb' !! a)) by (simpl; rewrite lookup_insert_eq; eauto).
  destruct (decide (x = a)) as [->|Hxa].
  - rewrite Ha' in Hx. injection Hx as <-. simpl in Hy. apply lookup_insert_is_Some' in Hy as [<-|Hy].
    + split; [exact Hab|]. eauto.
    + destruct (Hs _ _ _ Ha Hy) as (Hay & ny & Hny & Hback). split; [exact Hay|].
      destruct (decide (y = b)) as [->|Hyb]; [eauto|].
      exists ny. rewrite !lookup_insert_ne by congruence. auto.
  - destruct (decide (x = b)) as [->|Hxb].
    + rewrite Hb' in Hx. injection Hx as <-. simpl in Hy. apply lookup_insert_is_Some' in Hy as [<-|Hy].
      * split; [congruence|]. eauto.
      * destruct (Hs _ _ _ Hb Hy) as (Hby & ny & Hny & Hback). split; [exact Hby|].
        destruct (decide (y = a)) as [->|Hya]; [eauto|].
        exists ny. rewrite !lookup_insert_ne by congruence. auto.
    + rewrite !lookup_insert_ne in Hx by congruence.
      destruct (Hs _ _ _ Hx Hy) as (Hxy & ny & Hny & Hback). split; [exact Hxy|].
      destruct (decide (y = a)) as [->|Hya].
      * exists na'. split; [exact Ha'|]. simpl. rewrite lookup_insert_ne by congruence.
        rewrite Ha in Hny. by injection Hny as <-.
      * destruct (decide (y = b)) as [->|Hyb].
        -- exists nb'. split; [exact Hb'|]. simpl. rewrite lookup_insert_ne by congruence.
           rewrite Hb in Hny. by injection Hny as <-.
        -- exists ny. rewrite !lookup_insert_ne by congruence. auto.
Qed.

Lemma nl_ok_new : nl_ok NodeList_new.
Proof.
  split; [split; [|split]|].
  - intros k v Hk. simpl in Hk. rewrite lookup_empty in Hk. discriminate.
  - intros k Hk. simpl in Hk. set_solver.
  - constructor.
  - intros x nx y Hx. simpl in Hx. rewrite lookup_empty in Hx. discriminate.
Qed.

Lemma nl_add_edge_ok (l l' : NodeList) (a b : NodeID) (seg : PathSegment) :
  nl_ok l -> a <> b -> nl_add_edge l a b seg = Ret l' -> nl_ok l'.
Proof.
  intros [Hwf Hsym] Hab H. unfold nl_add_edge in H. inv_bind.
  destruct (match edges a0 !! b with Some existing => _ | None => false end).
  - by injection H as <-.
  - inv_bind. rewrite nl_get_set_ne in Ha2 by congruence. rewrite Ha in Ha2. injection Ha2 as <-.
    injection H as <-. unfold nl_get in Ha, Ha0.
    destruct (slab_entries (nl_nodes l) !! a) as [na|] eqn:Ea; [|discriminate]. injection Ha as <-.
    destruct (slab_entries (nl_nodes l) !! b) as [nb|] eqn:Eb; [|discriminate]. injection Ha0 as <-.
    split.
    + unfold nl_set. eapply slab_wf_update; [eapply slab_wf_update; [exact Hwf|exact Eb]|].
      simpl. rewrite lookup_insert_ne by congruence. exact Ea.
    + unfold nl_sym, nl_set. simpl. by apply edges_sym_add_pair.
Qed.

Lemma nl_demo_ok : nl_ok nl_demo.
Proof.
  unfold nl_demo.
  destruct (nl_add_node NodeList_new (0, 0) 1) as [i1 l1] eqn:E1.
  destruct (nl_add_node_facts _ _ _ _ _ nl_ok_new E1) as (_ & _ & _ & _ & Hok1). simpl.
  destruct (nl_add_node l1 (0, 1) 10) as [i2 l2] eqn:E2.
  exact (proj2 (proj2 (proj2 (proj2 (nl_add_node_facts _ _ _ _ _ Hok1 E2))))).
Qed.

Lemma nl_demo_linked_ok : nl_ok nl_demo_linked.
Proof.
  assert (E : nl_add_edge nl_demo 0 1 seg_demo = Ret nl_demo_linked) by (vm_compute; reflexivity).
  exact (nl_add_edge_ok _ _ 0 1 seg_demo nl_demo_ok ltac:(discriminate) E).
Qed.

(** X21: The empty node list is well-formed (slab invariant, symmetric
    edges between distinct stored nodes), and [add_node], [add_edge] between
    distinct ids and [remove_node] keep it so. *)
Theorem node_list_ok_preserved (l l' : NodeList) (pos : Point) (c : Z) (a b : NodeID)
    (seg : PathSegment) :
  nl_ok NodeList_new /\
  (nl_ok l -> nl_ok (nl_add_node l pos c).2) /\
  (nl_ok l -> a <> b -> nl_add_edge l a b seg = Ret l' -> nl_ok l') /\
  (nl_ok l -> nl_remove_node l a = Ret l' -> nl_ok l').
Proof.
  split; [exact nl_ok_new|split; [|split]].
  - intros Hok. destruct (nl_add_node l pos c) as [id l2] eqn:E. simpl.
    by destruct (nl_add_node_facts l pos c id l2 Hok E) as (_ & _ & _ & _ & Hok').
  - apply nl_add_edge_ok.
  - intros Hok H. unfold nl_get in H.
    destruct (slab_entries (nl_nodes l) !! a) as [n|] eqn:Ea.
    + destruct (nl_remove_node_facts l a n Hok) as (l2 & Hr & _ & _ & _ & _ & Hok');
        [unfold nl_get; by rewrite Ea|].
      rewrite Hr in H. by injection H as <-.
    + unfold nl_remove_node, slab_remove in H. rewrite Ea in H. discriminate.
Qed.

(** X19: On a well-formed node list, [add_node] uses an id that was free,
    stores the new node under it with no edges, leaves the other ids
    unchanged, indexes the position, and keeps the list well-formed. *)
Theorem nl_add_node_spec (l : NodeList) (pos : Point) (c : Z) (id : NodeID) (l' : NodeList) :
  nl_ok l -> nl_add_node l pos c = (id, l') ->
  (exists msg, nl_get l id = Panic msg) /\ nl_get l' id = Ret (Node_new pos c) /\
  (forall x, x <> id -> nl_get l' x = nl_get l x) /\ nl_id_at l' pos = Some id /\ nl_ok l'.
Proof. exact (nl_add_node_facts l pos c id l'). Qed.

Lemma nl_add_node_spec_witness :
  nl_add_node nl_demo (2, 2) 4 = (2%nat, (nl_add_node nl_demo (2, 2) 4).2) /\
  nl_get (nl_add_node nl_demo (2, 2) 4).2 2 = Ret (Node_new (2, 2) 4) /\
  nl_id_at (nl_add_node nl_demo (2, 2) 4).2 (2, 2) = Some 2%nat.
Proof.
  assert (E : nl_add_node nl_demo (2, 2) 4 = (2%nat, (nl_add_node nl_demo (2, 2) 4).2)) by reflexivity.
  destruct (nl_add_node_spec nl_demo (2, 2) 4 2 _ nl_demo_ok E) as (_ & Hg & _ & Hid & _).
  split; [exact E|]. split; [exact Hg|exact Hid].
Defined.

(** X20: On a well-formed node list, removing a stored node succeeds, frees
    its id and position, keeps the other nodes but for their edge to it,
    leaves no edge to it, and keeps the list well-formed. *)
Theorem nl_remove_node_spec (l : NodeList) (id : NodeID) (n : Node) :
  nl_ok l -> nl_get l id = Ret n ->
  exists l', nl_remove_node l id = Ret l' /\
    (exists msg, nl_get l' id = Panic msg) /\ nl_id_at l' (node_pos n) = None /\
    (forall x nx, x <> id -> nl_get l x = Ret nx ->
       exists nx', nl_get l' x = Ret nx' /\ node_pos nx' = node_pos nx /\
         walk_cost nx' = walk_cost nx /\ edges nx' = delete id (edges nx)) /\
    (forall x nx, nl_get l' x = Ret nx -> edges nx !! id = None) /\
    nl_ok l'.
Proof. exact (nl_remove_node_facts l id n). Qed.

Lemma nl_remove_node_spec_witness :
  exists n l', nl_get nl_demo_linked 0 = Ret n /\ nl_remove_node nl_demo_linked 0 = Ret l' /\
    nl_id_at l' (0, 0) = None /\ (forall x nx, nl_get l' x = Ret nx -> edges nx !! 0%nat = None) /\
    nl_ok l'.
Proof.
  destruct (nl_get nl_demo_linked 0) as [n| |] eqn:En; try (vm_compute in En; discriminate En).
  destruct (nl_remove_node_spec nl_demo_linked 0 n nl_demo_linked_ok En)
    as (l' & Hr & _ & Hid & _ & Hedges & Hok).
  assert (Hpos : node_pos n = (0, 0)) by (vm_compute in En; injection En as <-; reflexivity).
  rewrite Hpos in Hid. exists n, l'. auto.
Defined.

Lemma foldl_zrange {A} (P : Z -> A -> Prop) (f : A -> Z -> A) (lo hi : Z) (a : A) :
  lo <= hi -> P lo a -> (forall k acc, lo <= k < hi -> P k acc -> P (k + 1) (f acc k)) ->
  P hi (foldl f a (zrange lo hi)).
Proof.
  unfold zrange. remember (Z.to_nat (hi - lo)) as n eqn:En. revert lo a En.
  induction n as [|n IH]; intros lo a En Hle Ha Hf.
  - simpl. replace hi with lo by lia. exact Ha.
  - simpl. rewrite <- seq_shift, map_map.
    replace (map (fun k => lo + Z.of_nat (S k)) (seq 0 n)) with (map (fun k => (lo + 1) + Z.of_nat k) (seq 0 n))
      by (apply map_ext; intros; lia).
    apply (IH (lo + 1)); [lia|lia| |].
    + replace (lo + Z.of_nat 0) with lo by lia. apply Hf; [lia|exact Ha].
    + intros k acc Hk. apply Hf. lia.
Qed.

Section NewCache.
Context {N : Type} `{!Neighborhood N}.

Lemma Chunk_new_shape fuel pos size ts gc (nb : N) nodes cfg c nodes' :
  Chunk_new fuel pos size ts gc nb nodes cfg = Ret (c, nodes') -> ch_pos c = pos /\ ch_size c = size.
Proof.
  unfold Chunk_new. intros H. inv_bind. destruct a as [ch cands].
  assert (Hs : ch_pos ch = pos /\ ch_size ch = size).
  { revert Ha. apply (foldl_holds (fun '(ch, _) => ch_pos ch = pos /\ ch_size ch = size)).
    - intros acc d Hacc r Hr. destruct acc as [[ch0 cs0]| |]; simpl in Hr; try discriminate.
      specialize (Hacc _ eq_refl). simpl in Hacc.
      destruct (_ || _); [by injection Hr as <-|]. inv_bind. injection Hr as <-. exact Hacc.
    - apply holds_Ret. auto. }
  destruct (foldl _ _ _) as [ids all] in H. unfold add_nodes in H. inv_bind. injection H as <- _.
  exact Hs.
Qed.

Lemma connect_nodes_shape (pc : PathCache N) ids pc' :
  connect_nodes pc ids = Ret pc' ->
  pc_chunks pc' = pc_chunks pc /\ pc_num_chunks pc' = pc_num_chunks pc /\ pc_config pc' = pc_config pc.
Proof. unfold connect_nodes. intros H. inv_bind. injection H as <-. auto. Qed.

Lemma div_mod_row (nw y x : Z) : 0 < nw -> 0 <= x < nw -> (y * nw + x) / nw = y /\ (y * nw + x) mod nw = x.
Proof.
  intros Hn Hx. split.
  - rewrite Z.div_add_l by lia. rewrite Z.div_small by lia. lia.
  - rewrite Z.add_comm, Z.mod_add by lia. apply Z.mod_small. lia.
Qed.

Lemma div_bounds (a cs : Z) : 0 < cs -> 0 <= a -> 0 <= a / cs /\ a / cs * cs <= a < a / cs * cs + cs.
Proof.
  intros Hcs Ha. pose proof (Z.mod_pos_bound a cs Hcs). pose proof (Z.div_pos a cs ltac:(lia) Hcs).
  rewrite Z.mod_eq in * by lia. nia.
Qed.

(** X22: in a cache built by [PathCache::new] (chunk size above 0), every
    point of the grid has a chunk: [get_chunk] does not go out of range,
    and the chunk it returns contains the point and starts at
    [get_chunk_pos]. *)
Theorem get_chunk_in_new_cache fuel (W H : Z) (get_cost : Point -> Z) (nb : N) (config : PathCacheConfig)
    (pc : PathCache N) (p : Point) :
  0 < chunk_size config -> PathCache_new fuel (W, H) get_cost nb config = Ret pc ->
  0 <= p.1 < W -> 0 <= p.2 < H ->
  exists c, get_chunk pc p = Ret c /\ in_chunk c p = true /\ ch_pos c = get_chunk_pos pc p.
Proof.
  intros Hcs Hnew Hx Hy. unfold PathCache_new in Hnew.
  set (cs := chunk_size config) in *.
  destruct (let w := W / cs in let remain := W - w * cs in if 0 <? remain then (w + 1, remain) else (w, cs))
    as [nw lw] eqn:Ew.
  destruct (let h := H / cs in let remain := H - h * cs in if 0 <? remain then (h + 1, remain) else (h, cs))
    as [nh lh] eqn:Eh.
  assert (Hw : 0 < nw /\ (nw - 1) * cs + lw = W /\ (nw - 1) * cs + cs >= W /\ 0 < lw).
  { simpl in Ew. pose proof (Z.mul_div_le W cs Hcs). pose proof (Z.mod_pos_bound W cs Hcs).
    rewrite Z.mod_eq in * by lia.
    destruct (Z.ltb_spec 0 (W - W / cs * cs)); injection Ew as <- <-; nia. }
  assert (Hh : 0 < nh /\ (nh - 1) * cs + lh = H /\ (nh - 1) * cs + cs >= H /\ 0 < lh).
  { simpl in Eh. pose proof (Z.mul_div_le H cs Hcs). pose proof (Z.mod_pos_bound H cs Hcs).
    rewrite Z.mod_eq in * by lia.
    destruct (Z.ltb_spec 0 (H - H / cs * cs)); injection Eh as <- <-; nia. }
  set (good := fun chunks : list Chunk => forall i c, chunks !! i = Some c ->
    ch_pos c = ((Z.of_nat i mod nw) * cs, (Z.of_nat i / nw) * cs) /\
    ch_size c = (if bool_decide (Z.of_nat i mod nw = nw - 1) then lw else cs,
                 if bool_decide (Z.of_nat i / nw = nh - 1) then lh else cs)).
  inv_bind. destruct a as [chunks nodes].
  assert (Hgood : Z.of_nat (length chunks) = nh * nw /\ good chunks).
  { match type of Ha with ?m = Ret _ =>
      assert (Hf : holds (fun '(chunks, _) => Z.of_nat (length chunks) = nh * nw /\ good chunks) m);
      [|exact (Hf _ Ha)] end.
    apply (foldl_zrange (fun y acc => holds (fun '(chunks, _) => Z.of_nat (length chunks) = y * nw /\ good chunks) acc));
      [lia| |].
    - apply holds_Ret. split; [reflexivity|]. intros i c Hi. rewrite lookup_nil in Hi. discriminate.
    - intros y acc Hyr Hacc.
      replace ((y + 1) * nw) with (y * nw + nw) by lia.
      apply (foldl_zrange (fun x acc => holds (fun '(chunks, _) => Z.of_nat (length chunks) = y * nw + x /\ good chunks) acc));
        [lia|by replace (y * nw + 0) with (y * nw) by lia|].
      intros x acc0 Hxr Hacc0 r Hr. destruct acc0 as [[ch0 nd0]| |]; simpl in Hr; try discriminate.
      destruct (Hacc0 _ eq_refl) as [Hlen Hg]. apply bind_Ret in Hr as ([chunk nd1] & Hcn & Hr). injection Hr as <-.
      apply Chunk_new_shape in Hcn as [Hp Hs].
      split; [rewrite length_app; simpl; lia|].
      intros i c Hi. apply lookup_app_Some in Hi as [Hi|[Hge Hi]]; [exact (Hg i c Hi)|].
      apply list_lookup_singleton_Some in Hi as [Hi0 <-].
      assert (Hi : Z.of_nat i = y * nw + x) by lia. rewrite Hi, Hp, Hs.
      destruct (div_mod_row nw y x ltac:(lia) ltac:(lia)) as [-> ->]. split; reflexivity. }
  apply connect_nodes_shape in Hnew as (Hch & Hnc & Hcf). simpl in Hch, Hnc, Hcf.
  destruct (div_bounds p.1 cs Hcs ltac:(lia)) as (Hx0 & Hx1 & Hx2).
  destruct (div_bounds p.2 cs Hcs ltac:(lia)) as (Hy0 & Hy1 & Hy2).
  assert (Hxn : p.1 / cs < nw) by nia. assert (Hyn : p.2 / cs < nh) by nia.
  assert (Hlt : p.2 / cs * nw + p.1 / cs < nh * nw) by nia.
  destruct (lookup_lt_is_Some_2 chunks (Z.to_nat (p.2 / cs * nw + p.1 / cs))) as [c Hc]; [lia|].
  destruct (proj2 Hgood _ c Hc) as [Hp Hs].
  rewrite Z2Nat.id in Hp, Hs by lia.
  destruct (div_mod_row nw (p.2 / cs) (p.1 / cs) ltac:(lia) ltac:(lia)) as [Hd Hm].
  rewrite Hd, Hm in Hp, Hs.
  exists c. unfold get_chunk, get_chunk_index, get_chunk_pos. rewrite Hch, Hnc, Hcf.
  change (chunk_size config) with cs. simpl. unfold index. rewrite Hc.
  split; [reflexivity|]. split; [|exact Hp].
  unfold in_chunk, ch_left, ch_right, ch_top, ch_bottom. rewrite Hp, Hs. simpl.
  repeat case_bool_decide;
    repeat match goal with
    | |- context [Z.leb ?a ?b] => destruct (Z.leb_spec a b)
    | |- context [Z.ltb ?a ?b] => destruct (Z.ltb_spec a b)
    end; simpl; try reflexivity; nia.
Qed.
End NewCache.

(** The cache of the documentation example: the point (4, 1) of its last,
    narrower chunk column. *)
Lemma get_chunk_in_new_cache_witness :
  exists pc c, cache_doc = Ret pc /\ get_chunk pc (4, 1) = Ret c /\ in_chunk c (4, 1) = true.
Proof.
  destruct cache_doc as [pc| |] eqn:E; try (vm_compute in E; discriminate E).
  destruct (get_chunk_in_new_cache 200 5 5 cost_doc nb_doc (with_chunk_size 3) pc (4, 1)
              ltac:(vm_compute; reflexivity) E ltac:(simpl; lia) ltac:(simpl; lia)) as (c & Hc & Hin & _).
  exists pc, c. auto.
Defined.

Lemma string_append_assoc (a b c : string) :
  String.append (String.append a b) c = String.append a (String.append b c).
Proof. induction a as [|ch a IH]; [reflexivity|exact (f_equal (String ch) IH)]. Qed.

Lemma string_append_empty (s : string) : String.append s EmptyString = s.
Proof. induction s as [|ch s IH]; [reflexivity|exact (f_equal (String ch) IH)]. Qed.

Lemma concat_empty_cons (z : string) (zs : list string) :
  String.concat EmptyString (z :: zs) = String.append z (String.concat EmptyString zs).
Proof. destruct zs; [symmetry; apply string_append_empty|reflexivity]. Qed.

Lemma concat_arrow {P} (show : P -> string) (l : list P) (x : string) :
  String.concat " -> " (x :: map show l) =
  String.append x (String.concat EmptyString (map (fun q => String.append " -> " (show q)) l)).
Proof.
  revert x. induction l as [|y l IH]; intros x.
  - symmetry. apply string_append_empty.
  - change (String.concat " -> " (x :: map show (y :: l)))
      with (String.append x (String.append " -> " (String.concat " -> " (show y :: map show l)))).
    rewrite IH. cbn [map]. rewrite concat_empty_cons, string_append_assoc. reflexivity.
Qed.

Lemma fmt_loop {P} (show : P -> string) (l : list P) (acc : string) :
  fold_left (fun out q => String.append out (String.append " -> " (show q))) l acc =
  String.append acc (String.concat EmptyString (map (fun q => String.append " -> " (show q)) l)).
Proof.
  revert acc. induction l as [|y l IH]; intros acc; cbn [fold_left map].
  - symmetry. apply string_append_empty.
  - rewrite IH, concat_empty_cons, string_append_assoc. reflexivity.
Qed.

(** X23: [Display for Path] prints the cost, then [<empty>] for an empty
    path, or else the stored points joined by [" -> "]: the points in
    iteration order, reversed back when the path is reversed. *)
Theorem path_fmt_spec {P} (show : P -> string) (show_cost : Z -> string) (p : Path P) :
  path_fmt show show_cost p =
  String.append "Path[Cost = " (String.append (show_cost (path_cost p)) (String.append "]: "
    (if bool_decide (path_len p = 0%nat) then "<empty>"
     else String.concat " -> " (map show (if is_reversed p then rev (path_points p) else path_points p))))).
Proof.
  unfold path_fmt, path_points, path_len.
  destruct (is_reversed p); [rewrite rev_involutive|];
    destruct (path_buf p) as [|x l]; cbn [length skipn map];
    (case_bool_decide as Hl; [|done]) || (case_bool_decide as Hl; [done|]);
    rewrite ?fmt_loop, ?concat_arrow, !string_append_assoc; reflexivity.
Qed.

Section FindPaths.
Context {N : Type} `{!Neighborhood N}.

Lemma chunk_find_paths_keys (fuel : nat) (c : Chunk) (start : Point) (goals : list Point)
    (get_cost : Point -> Z) (nb : N) (m : gmap Point (Path Point)) :
  chunk_find_paths fuel c start goals get_cost nb = Ret m ->
  forall g p, m !! g = Some p -> g ∈ goals.
Proof.
  unfold chunk_find_paths. destruct (in_chunk c start) eqn:Hs; simpl.
  - unfold dijkstra_search. intros H. inv_bind. destruct a as [v gcs].
    destruct (dijkstra_loop_step nb (in_chunk c) get_cost start (list_to_set goals) _ _ _ _ _ _ _ _ Ha
                (preds_rel_init _ start) ltac:(set_solver) ltac:(intros ? ? [=]))
      as [Hv Hk].
    intros g p Hg. destruct (search_results _ start _ _ _ _ Hv H g p Hg) as ([x Hx] & _).
    apply (elem_of_list_to_set (C := gset Point)). eapply Hk; eauto.
  - intros [= <-] g p Hg. discriminate.
Qed.

Lemma resolve_paths_keys fuel (pc : PathCache N) start sp gd paths get_cost m :
  resolve_paths fuel pc start sp gd paths get_cost = Ret m ->
  forall g x, m !! g = Some x -> exists gi gp, (g, gi, gp) ∈ gd.
Proof.
  unfold resolve_paths. intros H. apply bind_Ret in H as ([spm r] & Hf & H). injection H as <-.
  refine (foldl_holds_Forall
    (fun '(_, r) => forall g x, (r : gmap Point (AbstractPathImpl N)) !! g = Some x ->
                    exists gi gp, (g, gi, gp) ∈ gd)
    (fun e => e ∈ gd) _ _ _ _ _ _ _ Hf).
  - by apply Forall_forall.
  - intros acc [[goal gi] gp] Hin Hacc r0 Hr. destruct acc as [[spm0 r1]| |]; simpl in Hr; try discriminate.
    specialize (Hacc _ eq_refl). simpl in Hacc.
    destruct (paths !! gi); [|by injection Hr as <-].
    apply bind_Ret in Hr as ([spm2 fp] & _ & Hr). injection Hr as <-.
    intros g x Hg. destruct (decide (g = goal)) as [->|Hne]; [eauto|].
    rewrite lookup_insert_ne in Hg by congruence. eauto.
  - apply holds_Ret. intros g x Hg. discriminate.
Qed.

Lemma goal_data_fold fuel (pc : PathCache N) start goals get_cost nb gdata gids r :
  foldl (fun acc goal =>
           '(goal_data, goal_ids, ret) ← acc;
           if decide (goal = start) then
             path ← AbstractPath_from_known_path (Some nb) (Path_new [start; start] 0);
             Ret (goal_data, goal_ids, <[goal := path]> (ret : gmap Point (AbstractPathImpl N)))
           else
             g ← find_nearest_node fuel pc goal get_cost true;
             match g with
             | None => Ret (goal_data, goal_ids, ret)
             | Some (goal_id, goal_path) =>
                 Ret (goal_data ++ [(goal, goal_id, goal_path)], goal_ids ++ [goal_id], ret)
             end)
    (Ret ([], [], ∅)) goals = Ret (gdata, gids, r) ->
  forall g gi gp, (g, gi, gp) ∈ gdata -> g ∈ goals /\ g <> start.
Proof.
  intros H. refine (foldl_holds_Forall
    (fun '(gdata, _, _) => forall g gi gp, (g, gi, gp) ∈ gdata -> g ∈ goals /\ g <> start)
    (fun goal => goal ∈ goals) _ _ _ _ _ _ _ H).
  - by apply Forall_forall.
  - intros acc goal Hin Hacc r0 Hr. destruct acc as [[[gd0 gi0] r1]| |]; simpl in Hr; try discriminate.
    specialize (Hacc _ eq_refl). simpl in Hacc.
    destruct (decide (goal = start)) as [->|Hne].
    + injection Hr as <-. exact Hacc.
    + apply bind_Ret in Hr as (o & _ & Hr). destruct o as [[gid gp]|]; injection Hr as <-; [|exact Hacc].
      intros g gi gp' Hg. apply elem_of_app in Hg as [Hg|Hg]; [eauto|].
      apply list_elem_of_singleton in Hg. injection Hg as -> _ _. auto.
  - apply holds_Ret. intros g gi gp Hg. by apply elem_of_nil in Hg.
Qed.

(** X24: every path returned by [find_paths_internal], the body of
    [find_paths], is keyed by one of the requested goals. *)
Theorem find_paths_keys_are_goals fuel (pc : PathCache N) start goals get_cost oc m :
  find_paths_internal fuel pc start goals get_cost oc = Ret m ->
  forall g ap, m !! g = Some ap -> g ∈ goals.
Proof.
  unfold find_paths_internal. intros H g ap Hg.
  destruct (_ || _) eqn:Eg. { injection H as <-. discriminate. }
  destruct goals as [|g1 [|g2 gs]].
  - apply orb_false_iff in Eg as [_ Eg]. by rewrite bool_decide_eq_false in Eg.
  - apply bind_Ret in H as (r & _ & H). destruct r as [p|]; injection H as <-; [|discriminate].
    destruct (decide (g = g1)) as [->|Hne]; [left|by rewrite lookup_singleton_ne in Hg].
  - apply bind_Ret in H as (s & _ & H). destruct s as [[sid sp]|].
    + apply bind_Ret in H as ([[gdata gids] r] & Hf & H). apply bind_Ret in H as (paths & _ & H).
      destruct (resolve_paths_keys _ _ _ _ _ _ _ _ H g ap Hg) as (gi & gp & Hin).
      exact (proj1 (goal_data_fold _ _ _ _ _ _ _ _ _ Hf g gi gp Hin)).
    + apply bind_Ret in H as (ch & _ & H). apply bind_Ret in H as (m0 & Hm0 & H).
      refine (foldl_holds_Forall
        (fun r : gmap Point (AbstractPathImpl N) => forall g ap, r !! g = Some ap -> g ∈ g1 :: g2 :: gs)
        (fun gp => m0 !! gp.1 = Some gp.2) _ _ _ _ _ _ _ H g ap Hg).
      * apply Forall_forall. intros [k p] Hk. by apply elem_of_map_to_list in Hk.
      * intros acc [k p] Hk Hacc r0 Hr. destruct acc as [r1| |]; simpl in Hr; try discriminate.
        specialize (Hacc _ eq_refl). apply bind_Ret in Hr as (ap0 & _ & Hr). injection Hr as <-.
        intros g' ap' Hg'. destruct (decide (g' = k)) as [->|Hne].
        -- exact (chunk_find_paths_keys _ _ _ _ _ _ _ Hm0 k p Hk).
        -- rewrite lookup_insert_ne in Hg' by congruence. eauto.
      * apply holds_Ret. intros ? ? [=].
Qed.

(** X25: with two or more goals and a start that reaches a node of the
    graph, [find_paths_internal] never returns a path for the start itself,
    even when the start is one of the goals: the [start, start] path put in
    [ret] for it is dropped, and only the paths of [resolve_paths] are
    returned. *)
Theorem find_paths_omits_start fuel (pc : PathCache N) start goals get_cost oc s m :
  List.length goals <> 1%nat -> find_nearest_node fuel pc start get_cost false = Ret (Some s) ->
  find_paths_internal fuel pc start goals get_cost oc = Ret m -> m !! start = None.
Proof.
  intros Hlen Hs. unfold find_paths_internal. intros H.
  destruct (_ || _) eqn:Eg. { by injection H as <-. }
  destruct goals as [|g1 [|g2 gs]];
    [apply orb_false_iff in Eg as [_ Eg]; by rewrite bool_decide_eq_false in Eg|simpl in Hlen; lia|].
  apply bind_Ret in H as (s' & Hs' & H). rewrite Hs in Hs'. injection Hs' as <-. destruct s as [sid sp].
  apply bind_Ret in H as ([[gdata gids] r] & Hf & H). apply bind_Ret in H as (paths & _ & H).
  destruct (m !! start) as [ap|] eqn:Hm; [|reflexivity].
  destruct (resolve_paths_keys _ _ _ _ _ _ _ _ H start ap Hm) as (gi & gp & Hin).
  exfalso. exact (proj2 (goal_data_fold _ _ _ _ _ _ _ _ _ Hf start gi gp Hin) eq_refl).
Qed.

End FindPaths.

Lemma find_paths_keys_are_goals_witness :
  exists pc m, cache_doc = Ret pc /\ find_paths 200 pc (0, 0) [(4, 4); (2, 0)] cost_doc = Ret m /\
    (forall g ap, m !! g = Some ap -> g ∈ [(4, 4); (2, 0)]) /\ is_Some (m !! (4, 4)).
Proof.
  destruct cache_doc as [pc| |] eqn:E; try (vm_compute in E; discriminate E).
  destruct (find_paths 200 pc (0, 0) [(4, 4); (2, 0)] cost_doc) as [m| |] eqn:Em;
    try (vm_compute in E; injection E as <-; vm_compute in Em; discriminate Em).
  exists pc, m. do 2 (split; [first [reflexivity|assumption]|]).
  split; [exact (find_paths_keys_are_goals 200 pc (0, 0) [(4, 4); (2, 0)] cost_doc false m Em)|].
  vm_compute in E; injection E as <-. vm_compute in Em. injection Em as <-. vm_compute. eauto.
Defined.

(** The documentation example: [find_paths] from (0, 0) to (0, 0) and
    (4, 4) returns a path to (4, 4) only. *)
Lemma find_paths_omits_start_witness :
  exists pc s m, cache_doc = Ret pc /\
    find_nearest_node 200 pc (0, 0) cost_doc false = Ret (Some s) /\
    find_paths 200 pc (0, 0) [(0, 0); (4, 4)] cost_doc = Ret m /\
    m !! (0, 0) = None /\ is_Some (m !! (4, 4)).
Proof.
  destruct cache_doc as [pc| |] eqn:E; try (vm_compute in E; discriminate E).
  destruct (find_nearest_node 200 pc (0, 0) cost_doc false) as [[s|]| |] eqn:Es;
    try (vm_compute in E; injection E as <-; vm_compute in Es; discriminate Es).
  destruct (find_paths 200 pc (0, 0) [(0, 0); (4, 4)] cost_doc) as [m| |] eqn:Em;
    try (vm_compute in E; injection E as <-; vm_compute in Em; discriminate Em).
  exists pc, s, m. do 3 (split; [first [reflexivity|assumption]|]).
  split; [exact (find_paths_omits_start 200 pc (0, 0) [(0, 0); (4, 4)] cost_doc false s m
                   ltac:(simpl; lia) Es Em)|].
  vm_compute in E; injection E as <-. vm_compute in Em. injection Em as <-. vm_compute. eauto.
Defined.

(* ------------------------------------------------------------------ *)
(** ** The first segment of the paths returned by the cache *)

Lemma pos_index_okb_sound l : pos_index_okb l = true -> pos_index_ok l.
Proof.
  unfold pos_index_okb, pos_index_ok, nl_id_at. intros Hb pos id n Hid Hn.
  apply forallb_forall with (x := (pos, id)) in Hb; [|by apply list_elem_of_In, elem_of_map_to_list].
  rewrite Hn in Hb. by apply bool_decide_eq_true_1 in Hb.
Qed.

Lemma path_new_index0 {P} (steps : list P) c s :
  head steps = Some s -> path_index (Path_new steps c) 0 = Ret s.
Proof. destruct steps; [discriminate|]. by intros [= ->]. Qed.

Lemma a_star_search_index0 {N} `{!Neighborhood N} (nb : N) valid gc fuel s g p :
  a_star_search nb valid gc fuel s g = Ret (Some p) -> path_index p 0 = Ret s.
Proof.
  unfold a_star_search. destruct (gc s <? 0); [discriminate|].
  destruct (decide (s = g)) as [<-|Hne]; [by intros [= <-]|].
  intros H. inv_bind. destruct (a !! g) as [[gcost gp]|]; [|discriminate]. inv_bind.
  injection H as <-. apply path_new_index0.
  eapply walk_back_from_goal; [|exact Ha0].
  eapply a_star_loop_step; [exact Ha|apply preds_rel_init].
Qed.

Lemma chunk_find_path_index0 {N} `{!Neighborhood N} fuel c s g gc (nb : N) p :
  chunk_find_path fuel c s g gc nb = Ret (Some p) -> path_index p 0 = Ret s.
Proof. unfold chunk_find_path. destruct (_ || _); [discriminate|]. apply a_star_search_index0. Qed.

Lemma search_results_index0 {K} `{EqDecision K, Countable K} (R : K -> K -> Prop) (start : K) fuel v
    (gcs : gmap K Z) (m : gmap K (Path K)) :
  preds_rel R start v ->
  foldl (fun acc gc =>
           m ← acc;
           steps ← walk_back start fuel v gc.1 [];
           Ret (<[gc.1 := Path_new steps gc.2]> m))
    (Ret ∅) (map_to_list gcs) = Ret m ->
  forall g p, m !! g = Some p -> path_index p 0 = Ret start.
Proof.
  intros Hv. apply (foldl_holds
      (fun m : gmap K (Path K) => forall g p, m !! g = Some p -> path_index p 0 = Ret start)).
  - intros acc [k c] Hacc r Hr. destruct acc as [a| |]; simpl in Hr; try discriminate.
    inv_bind. injection Hr as <-. intros g p Hg. destruct (decide (g = k)) as [->|Hne].
    + rewrite lookup_insert_eq in Hg. injection Hg as <-. apply path_new_index0.
      eapply walk_back_from_goal; eauto.
    + rewrite lookup_insert_ne in Hg by congruence. eapply Hacc; eauto.
  - intros r [= <-] g p Hg. discriminate.
Qed.

Lemma dijkstra_search_index0 {N} `{!Neighborhood N} (nb : N) valid gc fuel s goals oc m :
  dijkstra_search nb valid gc fuel s goals oc = Ret m ->
  forall g p, m !! g = Some p -> path_index p 0 = Ret s.
Proof.
  unfold dijkstra_search. intros H. inv_bind. destruct a as [v gcs].
  destruct (dijkstra_loop_step nb valid gc s (list_to_set goals) _ _ _ _ _ _ _ _ Ha
              (preds_rel_init _ s) ltac:(set_solver) ltac:(intros ? ? [=])) as [Hv _].
  exact (search_results_index0 _ s _ _ _ _ Hv H).
Qed.

Lemma graph_a_star_search_index0 {N} `{!Neighborhood N} nodes (nb : N) fuel s g p :
  graph_a_star_search nodes nb fuel s g = Ret (Some p) -> path_index p 0 = Ret s.
Proof.
  unfold graph_a_star_search.
  destruct (decide (s = g)) as [<-|Hne]; [by intros [= <-]|].
  intros H. inv_bind. destruct (a !! g) as [[gcost gp]|]; [|discriminate]. inv_bind.
  injection H as <-. apply path_new_index0.
  eapply walk_back_from_goal; [|exact Ha0].
  eapply graph_a_star_loop_step; [exact Ha|apply preds_rel_init].
Qed.

Lemma graph_dijkstra_search_index0 nodes fuel s goals oc m :
  graph_dijkstra_search nodes fuel s goals oc = Ret m ->
  forall g p, m !! g = Some p -> path_index p 0 = Ret s.
Proof.
  unfold graph_dijkstra_search. intros H. inv_bind. destruct a as [v gcs].
  destruct (graph_dijkstra_loop_step nodes s (list_to_set goals) _ _ _ _ _ _ _ _ Ha
              (preds_rel_init _ s) ltac:(set_solver) ltac:(intros ? ? [=])) as [Hv _].
  exact (search_results_index0 _ s _ _ _ _ Hv H).
Qed.

Lemma nearest_node_index0 {N} `{!Neighborhood N} fuel c nodes s gc (nb : N) id p :
  nearest_node fuel c nodes s gc nb false = Ret (Some (id, p)) -> path_index p 0 = Ret s.
Proof.
  unfold nearest_node. destruct (gc s <? 0); [discriminate|].
  intros H. inv_bind. destruct a as [points map]. inv_bind.
  destruct (map_to_list a) as [|[pt path] l] eqn:El; [discriminate|].
  inv_bind. destruct a0 as [id' nc]. injection H as <- <-.
  assert (Hin : (pt, path) ∈ map_to_list a) by (rewrite El; left).
  apply elem_of_map_to_list in Hin. exact (dijkstra_search_index0 _ _ _ _ _ _ _ _ Ha0 _ _ Hin).
Qed.

Lemma chunk_find_paths_index0 {N} `{!Neighborhood N} fuel c s goals gc (nb : N) m :
  chunk_find_paths fuel c s goals gc nb = Ret m -> forall g p, m !! g = Some p -> starts_at s p.
Proof.
  unfold chunk_find_paths. destruct (negb _).
  - intros [= <-] g p Hg. discriminate.
  - apply dijkstra_search_index0.
Qed.

Section FirstSegment.
Context {N : Type} `{!Neighborhood N}.

Lemma find_nearest_node_start fuel (pc : PathCache N) s gc id sp :
  find_nearest_node fuel pc s gc false = Ret (Some (id, sp)) ->
  match sp with None => node_at pc s = Some id | Some p => path_index p 0 = Ret s end.
Proof.
  unfold find_nearest_node. destruct (node_at pc s) eqn:E; [by intros [= <- <-]|].
  intros H. inv_bind. destruct a0 as [[id' p']|]; simpl in H; [|discriminate].
  injection H as <- <-. eapply nearest_node_index0; eauto.
Qed.

Lemma from_known_first (nb : option N) p s ap :
  path_index p 0 = Ret s -> AbstractPath_from_known_path nb p = Ret ap ->
  first_seg_at s ap /\ ap_path ap <> [].
Proof. unfold AbstractPath_from_known_path. intros Hp H. inv_bind. injection H as <-. done. Qed.

Lemma add_path_segment_first (fp : AbstractPathImpl N) seg fp' s :
  add_path_segment fp seg = Ret fp' -> first_seg_at s fp ->
  first_seg_at s fp' /\ ap_path fp' <> [].
Proof.
  unfold add_path_segment, first_seg_at. intros H Hf. inv_bind.
  destruct (decide _) as [Heq|]; [|discriminate]. inv_bind. injection H as <-. simpl.
  split; [|by intros [_ ?]%app_eq_nil].
  destruct (ap_path fp); simpl; [congruence|exact Hf].
Qed.

Lemma add_path_first (fp : AbstractPathImpl N) p fp' s :
  add_path fp p = Ret fp' -> first_seg_at s fp -> (ap_path fp = [] -> path_index p 0 = Ret s) ->
  first_seg_at s fp'.
Proof.
  unfold add_path, first_seg_at. intros H Hf He. inv_bind. injection H as <-. simpl.
  destruct (ap_path fp); simpl; auto.
Qed.

Lemma add_node_path_segments_first pc (fp : AbstractPathImpl N) path sf sl li fp' s :
  add_node_path_segments pc fp path sf sl li = Ret fp' -> first_seg_at s fp ->
  first_seg_at s fp'.
Proof.
  unfold add_node_path_segments. intros H Hf. revert H.
  apply (foldl_holds (first_seg_at s)); [|by intros ? [= <-]].
  intros acc [i [a b]] Hacc r Hr. inv_bind. specialize (Hacc _ Ha).
  destruct (_ || _); [by injection Hr as <-|].
  inv_bind. exact (proj1 (add_path_segment_first _ _ _ _ Hr Hacc)).
Qed.

Lemma add_path_segment_nonempty (fp : AbstractPathImpl N) seg fp' :
  add_path_segment fp seg = Ret fp' -> ap_path fp' <> [].
Proof.
  unfold add_path_segment. intros H. inv_bind.
  destruct (decide _); [|discriminate]. inv_bind. injection H as <-. by intros [_ ?]%app_eq_nil.
Qed.

Lemma add_node_path_segments_nonempty pc (fp : AbstractPathImpl N) path sf sl li fp' :
  add_node_path_segments pc fp path sf sl li = Ret fp' -> ap_path fp' = [] ->
  ap_path fp = [] /\ ((2 <= path_len path)%nat -> sf = true \/ (sl = true /\ li = 0)).
Proof.
  unfold add_node_path_segments.
  assert (Hkeep : forall l m, holds (fun a : AbstractPathImpl N => ap_path a <> []) m ->
            holds (fun a => ap_path a <> [])
              (foldl (fun acc '(i, (a, b)) =>
                 fp ← acc;
                 if (sf && bool_decide (i = 0%nat)) || (sl && bool_decide (Z.of_nat i = li))
                 then Ret fp
                 else an ← nl_get (pc_nodes pc) a; e ← map_index (edges an) b; add_path_segment fp e)
               m l)).
  { intros l m. apply foldl_holds. intros acc [i [a b]] Hacc r Hr. inv_bind.
    specialize (Hacc _ Ha). destruct (_ || _); [by injection Hr as <-|].
    inv_bind. exact (add_path_segment_nonempty _ _ _ Hr). }
  intros H Hemp. rewrite <- length_path_points.
  destruct (path_points path) as [|x [|y r]]; cbn [Datatypes.length seq zip tail foldl] in H |- *.
  - split; [|intros Hl; simpl in Hl; lia]. injection H as <-. exact Hemp.
  - split; [|intros Hl; simpl in Hl; lia]. injection H as <-. exact Hemp.
  - destruct ((sf && bool_decide (0%nat = 0%nat)) || (sl && bool_decide (Z.of_nat 0 = li))) eqn:Ec.
    + split.
      * destruct (ap_path fp) eqn:E; [reflexivity|].
        exfalso. refine (Hkeep _ _ _ _ H Hemp). intros ? Hm. inv_bind. injection Hm as <-. congruence.
      * intros _. apply orb_true_iff in Ec as [Ec|Ec]; apply andb_true_iff in Ec as [Ec1 Ec2];
          [left; exact Ec1|right; split; [exact Ec1|apply bool_decide_eq_true_1 in Ec2; lia]].
    + exfalso. refine (Hkeep _ _ _ _ H Hemp).
      intros a Ha. inv_bind. exact (add_path_segment_nonempty _ _ _ Ha).
Qed.


Lemma resolve_start_path_first fuel (pc : PathCache N) start sp path spm gc spm' sp' sf :
  resolve_start_path fuel pc start sp path spm gc = Ret (spm', sp', sf) ->
  (forall p, sp = Some p -> starts_at start p) -> map_Forall (fun _ => starts_at start) spm ->
  map_Forall (fun _ => starts_at start) spm' /\ (forall p, sp' = Some p -> starts_at start p) /\
  (sp' = None -> sp = None /\ sf = false).
Proof.
  unfold resolve_start_path. intros H Hsp Hspm. destruct sp as [p|].
  2:{ injection H as <- <- <-. done. }
  inv_bind. destruct (same_chunk _ _ _).
  - destruct (spm !! node_pos a0) as [p'|] eqn:E.
    + injection H as <- <- <-. split; [exact Hspm|]. split; [|done].
      intros ? [= <-]. exact (Hspm _ _ E).
    + inv_bind. destruct a2 as [p'|]; [|discriminate]. simpl in Ha3. injection Ha3 as <-.
      injection H as <- <- <-. pose proof (chunk_find_path_index0 _ _ _ _ _ _ _ Ha2) as Hp'.
      split; [by apply map_Forall_insert_2|]. split; [|done]. intros ? [= <-]. exact Hp'.
  - injection H as <- <- <-. done.
Qed.

Lemma resolve_one_first fuel (pc : PathCache N) start sp goal gp path spm gc spm' fp :
  pos_index_ok (pc_nodes pc) ->
  (forall p, sp = Some p -> starts_at start p) ->
  (sp = None -> exists id, node_at pc start = Some id /\ starts_at id path) ->
  map_Forall (fun _ => starts_at start) spm ->
  resolve_one fuel pc start sp goal gp path spm gc = Ret (spm', fp) ->
  map_Forall (fun _ => starts_at start) spm' /\ first_seg_at start fp.
Proof.
  unfold resolve_one. intros Hpos Hsp Hnode Hspm H.
  apply bind_Ret in H as ([[spm1 sp1] sf] & Hrs & H).
  destruct (resolve_start_path_first _ _ _ _ _ _ _ _ _ _ Hrs Hsp Hspm) as (Hspm1 & Hsp1 & Hnone).
  apply bind_Ret in H as (bi & Hbi & H). apply usize_sub_Ret in Hbi as [Hle ->].
  apply bind_Ret in H as (bgid & Hbgid & H). apply bind_Ret in H as (bn & Hbn & H).
  apply bind_Ret in H as (fp0 & Hfp0 & H). apply bind_Ret in H as (fp1 & Hfp1 & H).
  apply bind_Ret in H as (fp2 & Hfp2 & H). injection H as <- <-. split; [exact Hspm1|].
  assert (F0 : first_seg_at start fp0 /\ (sp1 <> None -> ap_path fp0 <> [])).
  { destruct sp1 as [p|].
    - destruct (from_known_first _ _ _ _ (Hsp1 p eq_refl) Hfp0) as [F ?]. done.
    - injection Hfp0 as <-. done. }
  destruct F0 as [F0 Hne0].
  pose proof (add_node_path_segments_first _ _ _ _ _ _ _ _ Hfp1 F0) as F1.
  (* an empty path after the segments means there was no start path and
     the first node path edge was skipped as the last one *)
  assert (Hemp : ap_path fp1 = [] ->
            sp = None /\ sf = false /\
            bool_decide (is_Some gp) && same_chunk pc goal (node_pos bn) = true /\
            (path_len path = 2)%nat).
  { intros E1. destruct (add_node_path_segments_nonempty _ _ _ _ _ _ _ Hfp1 E1) as [E0 Hsk].
    destruct sp1 as [p|]; [exfalso; exact (Hne0 ltac:(discriminate) E0)|].
    destruct (Hnone eq_refl) as [-> ->]. split; [reflexivity|]. split; [reflexivity|].
    destruct (Hsk ltac:(lia)) as [?|[? ?]]; [discriminate|]. split; [assumption|lia]. }
  destruct (bool_decide (is_Some gp) && same_chunk pc goal (node_pos bn)) eqn:Hsl.
  - inv_bind. destruct a0 as [p|]; [|discriminate]. simpl in Ha1. injection Ha1 as <-.
    apply (add_path_first _ _ _ _ Hfp2 F1). intros E1.
    destruct (Hemp E1) as (-> & _ & _ & Hlen).
    destruct (Hnode eq_refl) as (id & Hid & Hpath).
    replace (Z.to_nat (Z.of_nat (path_len path) - 2)) with 0%nat in Hbgid by lia. unfold starts_at in Hpath.
    rewrite Hpath in Hbgid. injection Hbgid as <-.
    rewrite <- (Hpos _ _ _ Hid Hbn). exact (chunk_find_path_index0 _ _ _ _ _ _ _ Ha0).
  - destruct gp as [p|].
    + apply (add_path_first _ _ _ _ Hfp2 F1). intros E1.
      destruct (Hemp E1) as (_ & _ & Hc & _). discriminate.
    + by injection Hfp2 as <-.
Qed.

Lemma resolve_paths_first fuel (pc : PathCache N) start sp gd paths gc m start_id :
  pos_index_ok (pc_nodes pc) ->
  (forall p, sp = Some p -> starts_at start p) ->
  (sp = None -> node_at pc start = Some start_id) ->
  map_Forall (fun _ => starts_at start_id) paths ->
  resolve_paths fuel pc start sp gd paths gc = Ret m ->
  map_Forall (fun _ => first_seg_at start) m.
Proof.
  unfold resolve_paths. intros Hpos Hsp Hnode Hpaths H. inv_bind. destruct a as [spm ret].
  injection H as <-. revert Ha.
  apply (foldl_holds (fun r => map_Forall (fun _ => starts_at start) r.1 /\
                               map_Forall (fun _ => first_seg_at start) r.2));
    [|intros ? [= <-]; split; apply map_Forall_empty].
  intros acc [[goal goal_id] goal_path] Hacc r Hr. inv_bind. destruct a as [spm1 ret1].
  destruct (Hacc _ Ha) as [H1 H2]. simpl in H1, H2.
  destruct (paths !! goal_id) as [path|] eqn:Ep.
  - inv_bind. destruct a as [spm2 fp]. injection Hr as <-. simpl.
    destruct (resolve_one_first _ _ _ _ _ _ _ _ _ _ _ Hpos Hsp
                (fun Hn => ex_intro _ start_id (conj (Hnode Hn) (Hpaths _ _ Ep))) H1 Ha0) as [? ?].
    split; [done|]. by apply map_Forall_insert_2.
  - by injection Hr as <-.
Qed.

Lemma find_path_first fuel (pc : PathCache N) start goal gc ap :
  pos_index_ok (pc_nodes pc) ->
  find_path fuel pc start goal gc = Ret (Some ap) -> first_seg_at start ap.
Proof.
  unfold find_path. intros Hpos H.
  destruct (gc start <? 0); [discriminate|].
  destruct (decide _).
  { inv_bind. injection H as <-. by eapply from_known_first; [|exact Ha]. }
  inv_bind. destruct a as [[start_id start_path]|].
  - pose proof (find_nearest_node_start _ _ _ _ _ _ Ha) as Hs.
    inv_bind. destruct a as [[goal_id goal_path]|]; [|discriminate].
    inv_bind. destruct a as [path|]; [|discriminate].
    destruct (_ || _).
    + inv_bind. destruct a as [p|]; [|discriminate]. inv_bind.
      injection H as <-. eapply from_known_first; [|exact Ha3].
      exact (a_star_search_index0 _ _ _ _ _ _ _ Ha2).
    + inv_bind. destruct (map_to_list a) as [|[g p] l] eqn:El; [discriminate|].
      injection H as <-.
      assert (Hm : map_Forall (fun _ => first_seg_at start) a).
      { eapply (resolve_paths_first _ _ _ _ _ _ _ _ start_id Hpos); [| |apply map_Forall_singleton|exact Ha2].
        - intros p' ->. exact Hs.
        - intros ->. exact Hs.
        - exact (graph_a_star_search_index0 _ _ _ _ _ _ Ha1). }
      assert (Hin : (g, p) ∈ map_to_list a) by (rewrite El; left).
      apply elem_of_map_to_list in Hin. exact (Hm _ _ Hin).
  - inv_bind. destruct a0 as [p|]; [|discriminate]. inv_bind.
    injection H as <-. eapply from_known_first; [|exact Ha2].
    exact (chunk_find_path_index0 _ _ _ _ _ _ _ Ha1).
Qed.

Lemma find_paths_internal_first fuel (pc : PathCache N) start goals gc oc m :
  pos_index_ok (pc_nodes pc) ->
  find_paths_internal fuel pc start goals gc oc = Ret m -> map_Forall (fun _ => first_seg_at start) m.
Proof.
  unfold find_paths_internal. intros Hpos H.
  destruct (gc start <? 0); simpl in H.
  { injection H as <-. apply map_Forall_empty. }
  destruct goals as [|g [|g2 goals]]; simpl in H.
  - injection H as <-. apply map_Forall_empty.
  - inv_bind. destruct a as [ap|].
    + injection H as <-. apply map_Forall_singleton. by eapply find_path_first.
    + injection H as <-. apply map_Forall_empty.
  - inv_bind. destruct a as [[start_id start_path]|].
    + pose proof (find_nearest_node_start _ _ _ _ _ _ Ha) as Hs.
      inv_bind. destruct a as [[goal_data goal_ids] ret]. inv_bind.
      eapply (resolve_paths_first _ _ _ _ _ _ _ _ start_id Hpos); [| | |exact H].
      * intros p' ->. exact Hs.
      * intros ->. exact Hs.
      * intros k p Hk. exact (graph_dijkstra_search_index0 _ _ _ _ _ _ Ha1 _ _ Hk).
    + inv_bind.
      lazymatch goal with
      | Hc : chunk_find_paths _ _ _ _ _ _ = Ret ?m0 |- _ =>
          pose proof (chunk_find_paths_index0 _ _ _ _ _ _ _ Hc) as Hm0; revert H;
          apply (foldl_holds_Forall (fun r => map_Forall (fun _ => first_seg_at start) r)
                   (fun kp => m0 !! kp.1 = Some kp.2))
      end.
      * apply Forall_forall. intros [k p] Hk. by apply elem_of_map_to_list in Hk.
      * intros acc [goal path] Hgp Hacc r Hr. inv_bind. injection Hr as <-.
        apply map_Forall_insert_2; [|by apply Hacc].
        exact (proj1 (from_known_first _ _ _ _ (Hm0 _ _ Hgp) Ha3)).
      * intros ? [= <-]. apply map_Forall_empty.
Qed.

Lemma first_step (ap : AbstractPathImpl N) s q ap' :
  first_seg_at s ap -> ap_current_index ap = (0%nat, 1%nat) -> ap_next ap = Ret (Some q, ap') ->
  exists p rest, ap_path ap = Known p :: rest /\ path_index p 0 = Ret s /\ path_index p 1 = Ret q.
Proof.
  unfold first_seg_at, ap_next. intros Hf Hi. rewrite Hi.
  destruct (ap_path ap) as [|seg rest]; simpl; [discriminate|].
  intros H. destruct seg as [p|]; simpl in H; [|discriminate]. inv_bind.
  injection H as <- _. exists p, rest. split; [reflexivity|]. split; [exact Hf|exact Ha].
Qed.

End FirstSegment.

(** C10: every path returned by [find_path], and every path in the map
    returned by [find_paths] (and [find_paths_internal]), has its
    iteration cursor at segment 0, offset 1.  When the position index of
    the cache's node list is consistent ([pos_index_ok]), the first
    segment of such a path is a known path starting at [start], so that
    the first point yielded is the second cell of that path, the first
    step away from [start]; but when [start = goal] (and [start] is
    walkable) [find_path] returns the path [[start; start]], so that the
    only point yielded is [start] itself. *)
Theorem find_path_cursor_start {N} `{!Neighborhood N} :
  (forall fuel (pc : PathCache N) start goal get_cost ap,
     find_path fuel pc start goal get_cost = Ret (Some ap) ->
     ap_current_index ap = (0%nat, 1%nat)) /\
  (forall fuel (pc : PathCache N) start goals get_cost oc m g ap,
     find_paths_internal fuel pc start goals get_cost oc = Ret m -> m !! g = Some ap ->
     ap_current_index ap = (0%nat, 1%nat)) /\
  (forall fuel (pc : PathCache N) start goal get_cost ap q ap',
     pos_index_ok (pc_nodes pc) ->
     find_path fuel pc start goal get_cost = Ret (Some ap) -> ap_next ap = Ret (Some q, ap') ->
     exists p rest, ap_path ap = Known p :: rest /\ path_index p 0 = Ret start /\
       path_index p 1 = Ret q) /\
  (forall fuel (pc : PathCache N) start goals get_cost oc m g ap q ap',
     pos_index_ok (pc_nodes pc) ->
     find_paths_internal fuel pc start goals get_cost oc = Ret m -> m !! g = Some ap ->
     ap_next ap = Ret (Some q, ap') ->
     exists p rest, ap_path ap = Known p :: rest /\ path_index p 0 = Ret start /\
       path_index p 1 = Ret q) /\
  (forall fuel (pc : PathCache N) s get_cost, 0 <= get_cost s ->
     exists ap, find_path fuel pc s s get_cost = Ret (Some ap) /\ ap_collect 2 ap = Ret [s]).
Proof.
  split; [|split; [|split; [|split]]].
  - apply find_path_cursor.
  - intros fuel pc start goals gc oc m g ap H Hg. exact (find_paths_internal_cursor _ _ _ _ _ _ _ H g ap Hg).
  - intros fuel pc start goal gc ap q ap' Hpos H Hn.
    exact (first_step ap start q ap' (find_path_first _ _ _ _ _ _ Hpos H) (find_path_cursor _ _ _ _ _ _ H) Hn).
  - intros fuel pc start goals gc oc m g ap q ap' Hpos H Hg Hn.
    exact (first_step ap start q ap' (find_paths_internal_first _ _ _ _ _ _ _ Hpos H g ap Hg)
             (find_paths_internal_cursor _ _ _ _ _ _ _ H g ap Hg) Hn).
  - intros fuel pc s gc Hs. unfold find_path.
    destruct (Z.ltb_spec (gc s) 0) as [Hlt|_]; [lia|]. rewrite decide_True by reflexivity.
    eexists. split; reflexivity.
Qed.

(** Witness of C10: on the documentation grid the query from [(0, 0)]
    to [(4, 4)] yields first [(0, 1)], the cell after [(0, 0)] in the
    first segment. *)
Lemma find_path_cursor_start_witness :
  exists pc ap q ap' p rest, cache_doc = Ret pc /\ pos_index_ok (pc_nodes pc) /\
    find_path 200 pc (0, 0) (4, 4) cost_doc = Ret (Some ap) /\
    ap_next ap = Ret (Some q, ap') /\ q = (0, 1) /\
    ap_path ap = Known p :: rest /\ path_index p 0 = Ret (0, 0) /\ path_index p 1 = Ret q.
Proof.
  destruct cache_doc as [pc| |] eqn:E; try (vm_compute in E; discriminate E).
  assert (Hpos : pos_index_ok (pc_nodes pc)).
  { apply pos_index_okb_sound. vm_compute in E. injection E as <-. vm_compute. reflexivity. }
  destruct (find_path 200 pc (0, 0) (4, 4) cost_doc) as [[ap|]| |] eqn:F;
    try (vm_compute in E; injection E as <-; vm_compute in F; discriminate F).
  destruct (ap_next ap) as [[[q|] ap']| |] eqn:G;
    try (vm_compute in E; injection E as <-; vm_compute in F; injection F as <-; vm_compute in G; discriminate G).
  destruct (proj1 (proj2 (proj2 find_path_cursor_start)) 200%nat pc (0, 0) (4, 4) cost_doc ap q ap' Hpos F G)
    as (p & rest & Hp & H0 & H1).
  exists pc, ap, q, ap', p, rest. split; [reflexivity|]. split; [exact Hpos|]. split; [exact F|].
  split; [exact G|]. split; [|split; [exact Hp|split; [exact H0|exact H1]]].
  vm_compute in E. injection E as <-. vm_compute in F. injection F as <-. vm_compute in G.
  injection G as <- _. reflexivity.
Defined.

(** Counterexample to C10: iterating the path returned for the query from
    [(0, 0)] to [(0, 0)] yields [(0, 0)], the start itself. *)
Lemma find_path_cursor_start_counterexample :
  exists pc ap, cache_doc = Ret pc /\ find_path 200 pc (0, 0) (0, 0) cost_doc = Ret (Some ap) /\
    ap_collect 10 ap = Ret [(0, 0)].
Proof.
  destruct cache_doc as [pc| |] eqn:E; try (vm_compute in E; discriminate E).
  destruct (find_path 200 pc (0, 0) (0, 0) cost_doc) as [[ap|]| |] eqn:F;
    try (vm_compute in F; discriminate F).
  exists pc, ap. split; [reflexivity|]. split; [exact F|].
  vm_compute in F. injection F as <-. vm_compute. reflexivity.
Qed.
